(** * HTTP/3 client: control-stream monitor and request coordinator

    A shallow embedding of [http3/client.go].  The client talks to three
    collaborators that are not part of the file: the QUIC transport
    (connection and streams), the frame parser and the QPACK codec.  Their
    answers are inputs of the model (scripts and oracle records); their
    invocations are recorded as events in a trace, in program order.

    Goroutines: the synchronous path of every function is modelled as a
    function on the [world]; a goroutine started with [go] is recorded as an
    [EvGo] event and its body is modelled as a function of its own.  What
    other goroutines do while a call blocks, and between the return
    statement of [roundTripOpt] and its deferred function, is an input of
    the model (a list of [envAction]s applied at that point). *)

From Stdlib Require Import ZArith List String Ascii Bool Lia.
From stdpp Require Import gmap strings list fin_maps.

Local Open Scope Z_scope.

(** ** Errors and error codes *)

(** Go [error] values that the client creates or compares against.
    [errOther] stands for any error produced by a collaborator. *)
Inductive error : Type :=
| errGoaway                                 (* errors.New("server sent goaway") *)
| ctxCanceled                               (* context.Canceled *)
| ctxDeadlineExceeded                       (* context.DeadlineExceeded *)
| ioEOF                                     (* io.EOF *)
| errWrongClient (expected got : string)    (* "http3 client BUG: RoundTripOpt called for the wrong client" *)
| errExpectedHeaders                        (* "expected first frame to be a HEADERS frame" *)
| errHeadersTooLarge (len max : Z)          (* "HEADERS frame too large: %d bytes (max: %d)" *)
| errContentLength (declared actual : Z)    (* "http: ContentLength=%d with Body length %d" *)
| errOther (msg : string).

(** [err == errGoaway], on a possibly nil error. *)
Definition isGoaway (e : option error) : bool :=
  match e with
  | Some errGoaway => true
  | _ => false
  end.

(** Result of a fallible call of a collaborator. *)
Inductive res (A : Type) : Type :=
| Ok (a : A)
| Err (e : error).
Arguments Ok {A} a.
Arguments Err {A} e.

(** Modelled from the spec: the [ErrCode] constants are declared in
    [http3/error_codes.go], which is not part of the sources at hand.  The
    spec lists them by name; the numbers are the ones HTTP/3 assigns.  The
    client relies on one property of them only: none is the zero value. *)
Definition ErrCode := Z.
Definition ErrCodeNoError : ErrCode := 0x100.
Definition ErrCodeGeneralProtocolError : ErrCode := 0x101.
Definition ErrCodeInternalError : ErrCode := 0x102.
Definition ErrCodeFrameUnexpected : ErrCode := 0x105.
Definition ErrCodeFrameError : ErrCode := 0x106.
Definition ErrCodeIDError : ErrCode := 0x108.
Definition ErrCodeRequestCanceled : ErrCode := 0x10c.
Definition ErrCodeRequestIncomplete : ErrCode := 0x10d.
Definition ErrCodeMessageError : ErrCode := 0x10e.

(** ** Frames *)

(** [quic.StreamID] is an [int64]. *)
Definition StreamID := Z.

(** The frames [parseNextFrame] can return. *)
Inductive frame : Type :=
| headersFrame (Length : Z)
| dataFrame (Length : Z)
| settingsFrame (Datagram : bool) (Other : list (Z * Z))
| goawayFrame (ID : StreamID).

(** ** Contexts

    A [context.Context] is a cell of a store; a handle is its index.  The
    caller's request context is a root of the store (its cancellation is an
    action of the environment); the contexts the client derives with
    [context.WithCancelCause] are children of a root and have no children of
    their own, since [roundTripOpt] hands [ctx] to nobody. *)
Record ctxRec : Type := mkCtx {
  ctx_parent : option nat;
  ctx_err : option error;      (* ctx.Err() *)
  ctx_cause : option error     (* context.Cause(ctx) *)
}.

Definition ctxErr (s : list ctxRec) (h : nat) : option error :=
  match s !! h with
  | Some r => ctx_err r
  | None => None
  end.

Definition ctxCause (s : list ctxRec) (h : nat) : option error :=
  match s !! h with
  | Some r => ctx_cause r
  | None => None
  end.

(** A context is canceled once: a later cancellation leaves err and cause. *)
Definition markCanceled (e k : error) (r : ctxRec) : ctxRec :=
  match ctx_err r with
  | Some _ => r
  | None => mkCtx (ctx_parent r) (Some e) (Some k)
  end.

Definition isChildOf (h : nat) (r : ctxRec) : bool :=
  match ctx_parent r with
  | Some p => Nat.eqb p h
  | None => false
  end.

(** Cancel context [h] with error [e] and cause [k], and its children with
    it.  Nothing happens when [h] is already canceled. *)
Definition cancelCtx (h : nat) (e k : error) (s : list ctxRec) : list ctxRec :=
  match ctxErr s h with
  | Some _ => s
  | None =>
      imap (fun i r => if Nat.eqb i h || isChildOf h r then markCanceled e k r else r) s
  end.

(** Invoking a [context.CancelCauseFunc]: the error is [context.Canceled],
    and a nil cause stands for that error. *)
Definition cancelCause (h : nat) (cause : option error) (s : list ctxRec) : list ctxRec :=
  cancelCtx h ctxCanceled (default ctxCanceled cause) s.

(** [context.WithCancelCause(parent)]: the new context is born canceled when
    the parent is done. *)
Definition withCancelCause (parent : nat) (s : list ctxRec) : nat * list ctxRec :=
  (length s, s ++ [mkCtx (Some parent) (ctxErr s parent) (ctxCause s parent)]).

(** ** Requests and responses *)

(** [http.Header]: a map from canonical keys to value lists. *)
Abbreviation Header := (gmap string (list string)).

(** [Header.Get] for a key that is already in canonical form, as all keys
    this file asks for are: the first value, or the empty string. *)
Definition Header_Get (h : Header) (key : string) : string :=
  match h !! key with
  | Some (v :: _) => v
  | _ => ""%string
  end.

(** The fields of [http.Request] the client reads.  [Body] is a handle on
    the caller's [io.ReadCloser] ([None] for nil); [Ctx] is the handle of
    [req.Context()]. *)
Record Request : Type := mkRequest {
  Method : string;
  Host : string;
  ReqHeader : Header;
  Body : option nat;
  ReqContentLength : Z;
  Ctx : nat
}.

Definition withMethod (m : string) (r : Request) : Request :=
  mkRequest m (Host r) (ReqHeader r) (Body r) (ReqContentLength r) (Ctx r).

(** The stream a response body reads from: the request stream, or the
    request stream behind [newLengthLimitedStream]. *)
Inductive bodyStream : Type :=
| plainStream (str : StreamID)
| lengthLimitedStream (str : StreamID) (limit : Z).

(** [res.Body]: [newResponseBody(httpStr, conn, reqDone)], possibly wrapped
    by [newGzipReader].  [reqDone] is [false] for a nil channel. *)
Inductive responseBody : Type :=
| noBody
| hijackableBody (s : bodyStream) (reqDone : bool)
| gzipReader (b : responseBody).

Record Response : Type := mkResponse {
  StatusCode : Z;
  RespHeader : Header;
  ContentLength : Z;
  Uncompressed : bool;
  RespBody : responseBody;
  RespRequest : option nat;     (* res.Request, a pointer *)
  HasTLS : bool                 (* res.TLS != nil *)
}.

(** ** The client and its world *)

Record roundTripperOpts : Type := mkOpts {
  DisableCompression : bool;
  EnableDatagram : bool;
  MaxHeaderBytes : Z;
  AdditionalSettings : list (Z * Z);
  StreamHijacker : bool        (* opts.StreamHijacker != nil *)
}.

(** The fields of [client] that the modelled functions read or write.
    [dialed] is the state of [dialOnce]; [runningCtx] maps a stream id to the
    handle its [CancelCauseFunc] cancels. *)
Record client : Type := mkClient {
  hostname : string;
  opts : roundTripperOpts;
  dialed : bool;
  handshakeErr : option error;
  receivedGoaway : bool;
  runningCtx : gmap Z nat
}.

(** Goroutines the client starts. *)
Inductive goroutine : Type :=
| goSetupConn
| goHandleBidirectionalStreams
| goHandleUnidirectionalStreams
| goGoawayWatcher (ctx : nat) (str : StreamID)
| goCancelWatcher (ctx : nat) (str : StreamID)
| goSendRequestBody (str : StreamID) (body : nat) (contentLength : Z) (closeAfter : bool).

(** Calls on collaborators, in program order. *)
Inductive event : Type :=
| EvLog (msg : string)
| EvDial (ctx : nat)
| EvConnClose (code : ErrCode) (reason : option error)   (* reason: err.Error(), or the empty string *)
| EvCancel (h : nat) (cause : option error)
| EvWaitHandshake
| EvWaitSettings
| EvOpenStream (r : res StreamID)
| EvWriteRequestHeader (str : StreamID) (req : Request) (gzip : bool)
| EvStreamClose (str : StreamID)
| EvCancelWrite (str : StreamID) (code : ErrCode)
| EvCancelRead (str : StreamID) (code : ErrCode)
| EvParseFrame (str : StreamID)
| EvGo (g : goroutine).

Record world : Type := mkWorld {
  w_client : client;
  w_ctxs : list ctxRec;        (* the context store *)
  w_reqs : list Request;       (* the heap of http.Request objects *)
  w_ctrlStopped : bool;        (* readControlStream has returned *)
  w_trace : list event
}.

Definition emit (e : event) (w : world) : world :=
  mkWorld (w_client w) (w_ctxs w) (w_reqs w) (w_ctrlStopped w) (w_trace w ++ [e]).

Definition setClient (c : client) (w : world) : world :=
  mkWorld c (w_ctxs w) (w_reqs w) (w_ctrlStopped w) (w_trace w).

Definition setCtxs (s : list ctxRec) (w : world) : world :=
  mkWorld (w_client w) s (w_reqs w) (w_ctrlStopped w) (w_trace w).

Definition setReqs (h : list Request) (w : world) : world :=
  mkWorld (w_client w) (w_ctxs w) h (w_ctrlStopped w) (w_trace w).

Definition setCtrlStopped (w : world) : world :=
  mkWorld (w_client w) (w_ctxs w) (w_reqs w) true (w_trace w).

Definition storeReceivedGoaway (b : bool) (c : client) : client :=
  mkClient (hostname c) (opts c) (dialed c) (handshakeErr c) b (runningCtx c).

Definition setRunningCtx (m : gmap Z nat) (c : client) : client :=
  mkClient (hostname c) (opts c) (dialed c) (handshakeErr c) (receivedGoaway c) m.

Definition setDialed (e : option error) (c : client) : client :=
  mkClient (hostname c) (opts c) true e (receivedGoaway c) (runningCtx c).

(** [cancel(cause)] for the [CancelCauseFunc] with handle [h]. *)
Definition callCancel (h : nat) (cause : option error) (w : world) : world :=
  emit (EvCancel h cause) (setCtxs (cancelCause h cause (w_ctxs w)) w).

(** ** [readControlStream] *)

Inductive loopExit : Type :=
| ExitParseError (e : error)
| ExitIDError.

Inductive stepResult : Type :=
| Continue (w : world)
| Stop (w : world) (why : loopExit).

(** The guard of line 182:
    [v.ID < 0 || v.ID%4 != 0 || (c.receivedGoaway.Load() && v.ID > lastID)].
    Go's [%] truncates towards zero, as [Z.rem] does. *)
Definition goawayInvalid (c : client) (lastID ID : StreamID) : bool :=
  (ID <? 0) || negb (Z.rem ID 4 =? 0) || (receivedGoaway c && (ID >? lastID)).

(** The body of the [range c.runningCtx] loop, for one entry. *)
Definition cancelFrom (ID : StreamID) (w : world) (entry : Z * nat) : world :=
  if fst entry >=? ID then callCancel (snd entry) (Some errGoaway) w else w.

(** One iteration of the [for] loop on the result [r] of [parseNextFrame].
    Go ranges over a map in an unspecified order; the model takes the order
    of [map_to_list], and nothing proved below depends on it. *)
Definition controlStep (lastID : StreamID) (r : res frame) (w : world) : stepResult :=
  match r with
  | Err e => Stop (emit (EvLog "Error reading control stream") w) (ExitParseError e)
  | Ok (goawayFrame ID) =>
      if goawayInvalid (w_client w) lastID ID
      then Stop (emit (EvConnClose ErrCodeIDError None) w) ExitIDError
      else
        let w1 := setClient (storeReceivedGoaway true (w_client w)) w in
        Continue (foldl (cancelFrom ID) w1 (map_to_list (runningCtx (w_client w1))))
  | Ok _ => Continue (emit (EvLog "reading frame type") w)
  end.

(** The loop over the results that [parseNextFrame] yields on the control
    stream.  When the script is exhausted the stream has ended and the next
    parse fails with [io.EOF].  Returns the world, why the loop returned and
    the results it left unread.  [lastID] is never assigned in the loop. *)
Fixpoint controlLoop (lastID : StreamID) (rs : list (res frame)) (w : world)
  : world * loopExit * list (res frame) :=
  match rs with
  | [] => (emit (EvLog "Error reading control stream") w, ExitParseError ioEOF, [])
  | r :: rest =>
      match controlStep lastID r w with
      | Continue w' => controlLoop lastID rest w'
      | Stop w' why => (w', why, rest)
      end
  end.

Definition readControlStream (rs : list (res frame)) (w : world)
  : world * loopExit * list (res frame) :=
  let lastID : StreamID := 0 in
  controlLoop lastID rs w.

(** The loop run over a prefix of the stream: [Some] world if every
    iteration went on to the next one, [None] if the loop returned. *)
Fixpoint controlPrefix (lastID : StreamID) (rs : list (res frame)) (w : world)
  : option world :=
  match rs with
  | [] => Some w
  | r :: rest =>
      match controlStep lastID r w with
      | Continue w' => controlPrefix lastID rest w'
      | Stop _ _ => None
      end
  end.

Definition goawayID (r : res frame) : list StreamID :=
  match r with
  | Ok (goawayFrame ID) => [ID]
  | _ => []
  end.

(** The ids of the GOAWAY frames the loop accepted, in order: the frames
    after which [controlStep] went on. *)
Fixpoint acceptedGoaways (lastID : StreamID) (rs : list (res frame)) (w : world)
  : list StreamID :=
  match rs with
  | [] => []
  | r :: rest =>
      match controlStep lastID r w with
      | Continue w' => goawayID r ++ acceptedGoaways lastID rest w'
      | Stop _ _ => []
      end
  end.

(** ** What other goroutines do while a call blocks *)

Inductive envAction : Type :=
| ActCancelCaller (ctx : nat) (e : error)   (* the caller cancels a request context, or its deadline passes *)
| ActControlFrame (r : res frame).          (* the control-stream reader gets its next parse result *)

Definition applyAction (w : world) (a : envAction) : world :=
  match a with
  | ActCancelCaller h e => setCtxs (cancelCtx h e e (w_ctxs w)) w
  | ActControlFrame r =>
      if w_ctrlStopped w then w
      else
        match controlStep 0 r w with
        | Continue w' => w'
        | Stop w' _ => setCtrlStopped w'
        end
  end.

Definition applyActions (acts : list envAction) (w : world) : world :=
  foldl applyAction w acts.

(** ** [doRequest] *)

(** Modelled from the spec: [requestError], [newStreamError] and
    [newConnError] are declared outside this file.  A request outcome
    carries an error, at most one stream-level code and at most one
    connection-level code; zero means no code. *)
Record requestError : Type := mkRequestError {
  re_err : option error;
  streamErr : ErrCode;
  connErr : ErrCode
}.

Definition newStreamError (code : ErrCode) (err : error) : requestError :=
  mkRequestError (Some err) code 0.

Definition newConnError (code : ErrCode) (err : error) : requestError :=
  mkRequestError (Some err) 0 code.

Definition noRequestError : requestError := mkRequestError None 0 0.

(** [10 * 1 << 20]: in Go [*] and [<<] bind alike, to the left. *)
Definition defaultMaxResponseHeaderBytes : Z := Z.shiftl (10 * 1) 20.

Definition maxHeaderBytes (c : client) : Z :=
  if MaxHeaderBytes (opts c) <=? 0
  then defaultMaxResponseHeaderBytes
  else MaxHeaderBytes (opts c).

Record HeaderField : Type := mkHeaderField {
  hf_name : string;
  hf_value : string
}.

(** The fields of the [RoundTripOpt] struct (the method of that name is
    below); [Settings] is what [c.hconn.Settings()] holds. *)
Record Settings : Type := mkSettings {
  SettingsDatagram : bool;
  SettingsOther : list (Z * Z)
}.

Record roundTripOptions : Type := mkRoundTripOptions {
  CheckSettings : option (Settings -> option error);
  DontCloseRequestStream : bool
}.

(** What the collaborators of [doRequest] answer.  [responseFromHeaders] is
    a function of this package that lives in another file. *)
Record requestOracle : Type := mkRequestOracle {
  writeRequestHeader : option error;          (* c.requestWriter.WriteRequestHeader(str, req, requestGzip) *)
  nextFrame : res frame;                      (* parseNextFrame(str, nil) *)
  readFull : option error;                    (* io.ReadFull(str, headerBlock) *)
  decodeFull : res (list HeaderField);        (* c.decoder.DecodeFull(headerBlock) *)
  responseFromHeaders : list HeaderField -> res Response
}.

(** Lines 428-431. *)
Definition requestGzip (c : client) (req : Request) : bool :=
  negb (DisableCompression (opts c))
  && negb (Method req =? "HEAD")%string
  && (Header_Get (ReqHeader req) "Accept-Encoding" =? "")%string
  && (Header_Get (ReqHeader req) "Range" =? "")%string.

(** Lines 444-449: the length handed to [sendRequestBody]. *)
Definition bodyContentLength (req : Request) : Z :=
  if ReqContentLength req >? 0 then ReqContentLength req else -1.

(** [strconv.ParseInt(s, 10, 64)]: [Some n] when it returns [n] and a nil
    error.  An optional sign, then one decimal digit or more, within the
    range of [int64]. *)
Definition digitValue (c : ascii) : option Z :=
  let n := Z.of_N (N_of_ascii c) in
  if (48 <=? n) && (n <=? 57) then Some (n - 48) else None.

Fixpoint parseDigits (s : string) (acc : Z) : option Z :=
  match s with
  | EmptyString => Some acc
  | String c rest =>
      match digitValue c with
      | Some d => parseDigits rest (10 * acc + d)
      | None => None
      end
  end.

Definition parseUnsigned (s : string) : option Z :=
  match s with
  | EmptyString => None
  | _ => parseDigits s 0
  end.

Definition ParseInt (s : string) : option Z :=
  match s with
  | EmptyString => None
  | String c rest =>
      let neg := Ascii.eqb c "-"%char in
      let digits := if neg || Ascii.eqb c "+"%char then rest else s in
      match parseUnsigned digits with
      | None => None
      | Some un =>
          if neg
          then (if un >? 2 ^ 63 then None else Some (- un))
          else (if un >=? 2 ^ 63 then None else Some un)
      end
  end.

Definition hasKey (h : Header) (key : string) : bool :=
  match h !! key with
  | Some _ => true
  | None => false
  end.

(** Lines 489-494: the stream the response body reads from. *)
Definition responseStream (str : StreamID) (res : Response) : bodyStream :=
  if hasKey (RespHeader res) "Content-Length" && (ContentLength res >=? 0)
  then lengthLimitedStream str (ContentLength res)
  else plainStream str.

(** Lines 497-509: [res.ContentLength] after the block that applies the
    rules of RFC 7230, section 3.3.2. *)
Definition contentLengthRules (req : Request) (res : Response) : Z :=
  let hasTransferEncoding := hasKey (RespHeader res) "Transfer-Encoding" in
  let isInformational := (StatusCode res >=? 100) && (StatusCode res <? 200) in
  let isNoContent := StatusCode res =? 204 in
  let isSuccessfulConnect :=
    (Method req =? "CONNECT")%string && (StatusCode res >=? 200) && (StatusCode res <? 300) in
  if negb hasTransferEncoding && negb isInformational && negb isNoContent
     && negb isSuccessfulConnect
  then
    match RespHeader res !! "Content-Length"%string with
    | Some [clen] =>
        match ParseInt clen with
        | Some clen64 => clen64
        | None => -1
        end
    | _ => -1
    end
  else ContentLength res.

(** Lines 484-521: from the response [responseFromHeaders] built to the one
    [doRequest] returns. *)
Definition finishResponse (reqp : nat) (req : Request) (gzip : bool)
    (str : StreamID) (reqDone : bool) (res : Response) : Response :=
  let respBody := hijackableBody (responseStream str res) reqDone in
  let clen := contentLengthRules req res in
  if gzip && (Header_Get (RespHeader res) "Content-Encoding" =? "gzip")%string
  then
    mkResponse (StatusCode res)
      (delete "Content-Length"%string (delete "Content-Encoding"%string (RespHeader res)))
      (-1) true (gzipReader respBody) (Some reqp) true
  else
    mkResponse (StatusCode res) (RespHeader res) clen (Uncompressed res)
      respBody (Some reqp) true.

(** The part of [doRequest] that receives the response, lines 459-521. *)
Definition receiveResponse (io : requestOracle) (c : client) (reqp : nat)
    (req : Request) (gzip : bool) (str : StreamID) (reqDone : bool)
  : option Response * requestError :=
  match nextFrame io with
  | Err err => (None, newStreamError ErrCodeFrameError err)
  | Ok (headersFrame Length) =>
      if Length >? maxHeaderBytes c
      then (None, newStreamError ErrCodeFrameError
                    (errHeadersTooLarge Length (maxHeaderBytes c)))
      else
        match readFull io with
        | Some err => (None, newStreamError ErrCodeRequestIncomplete err)
        | None =>
            match decodeFull io with
            | Err err => (None, newConnError ErrCodeGeneralProtocolError err)
            | Ok hfs =>
                match responseFromHeaders io hfs with
                | Err err => (None, newStreamError ErrCodeMessageError err)
                | Ok res =>
                    (Some (finishResponse reqp req gzip str reqDone res), noRequestError)
                end
            end
        end
  | Ok _ => (None, newConnError ErrCodeFrameUnexpected errExpectedHeaders)
  end.

(** [doRequest(req, conn, str, opt, reqDone)].  [req] is [*reqp]: nothing
    writes to the request while the call runs.  [reqDone] is [false] for a
    nil channel. *)
Definition doRequest (io : requestOracle) (reqp : nat) (req : Request)
    (str : StreamID) (opt : roundTripOptions) (reqDone : bool) (w : world)
  : option Response * requestError * world :=
  let gzip := requestGzip (w_client w) req in
  let w := emit (EvWriteRequestHeader str req gzip) w in
  match writeRequestHeader io with
  | Some err => (None, newStreamError ErrCodeInternalError err, w)
  | None =>
      let w :=
        match Body req with
        | None => if DontCloseRequestStream opt then w else emit (EvStreamClose str) w
        | Some body =>
            emit (EvGo (goSendRequestBody str body (bodyContentLength req)
                          (negb (DontCloseRequestStream opt)))) w
        end in
      let w := emit (EvParseFrame str) w in
      let '(rsp, rerr) := receiveResponse io (w_client w) reqp req gzip str reqDone in
      (rsp, rerr, w)
  end.

(** ** [roundTripOpt] and [RoundTripOpt] *)

(** How a call ends: it returns [(rsp, err)], it waits forever, or it
    dereferences a nil request. *)
Inductive outcome : Type :=
| Returns (rsp : option Response) (err : option error) (w : world)
| Blocks (w : world)
| Panics (w : world).

(** What the collaborators of [roundTripOpt] answer, and what happens around
    the call while it blocks and while it returns.  [authorityOfRequest req] is
    [authorityAddr("https", hostnameFromRequest(req))] and
    [maybeReplaceError] the function of that name on an error that is not
    nil; both live in other files of the package. *)
Record roundTripEnv : Type := mkRoundTripEnv {
  authorityOfRequest : Request -> string;
  maybeReplaceError : error -> error;
  dialResult : option error;                 (* the error of c.dialer / dialAddr *)
  whileHandshake : list envAction;           (* during the wait of lines 296-300 *)
  handshakeCompletes : bool;                 (* conn.HandshakeComplete() gets closed *)
  selectPrefersCtx : bool;                   (* the choice of select when both cases are ready *)
  settingsArrive : option (res Settings);    (* lines 305-309: SETTINGS, the cause of the connection's end, or neither *)
  openStreamSync : res StreamID;             (* conn.OpenStreamSync(req.Context()) *)
  requestIO : requestOracle;
  whileRequest : list envAction;             (* while doRequest runs *)
  watcherSawCancel : bool;                   (* the choice of the select of lines 349-354 when both cases are ready *)
  beforeCleanup : list envAction;            (* between the return statement of lines 377, 379 or 385 and line 327 *)
  beforeReturn : list envAction              (* between the return of roundTripOpt and line 255 *)
}.

(** Modelled from the spec: [maybeReplaceError(err)] is declared in another
    file.  Errors are never swallowed and only an error can be replaced: a
    nil error stays nil, an error is mapped to an error. *)
Definition replaceError (env : roundTripEnv) (err : option error) : option error :=
  option_map (maybeReplaceError env) err.

(** [c.dial(ctx)], lines 133-167: the error it returns. *)
Definition dial (env : roundTripEnv) (ctx : nat) (w : world) : option error * world :=
  let w := emit (EvDial ctx) w in
  match dialResult env with
  | Some err => (Some err, w)
  | None =>
      let w := emit (EvGo goSetupConn) w in
      let w := if StreamHijacker (opts (w_client w))
               then emit (EvGo goHandleBidirectionalStreams) w else w in
      let w := emit (EvGo goHandleUnidirectionalStreams) w in
      (None, w)
  end.

(** [c.dialOnce.Do(func() { c.handshakeErr = c.dial(req.Context()) })]. *)
Definition dialOnce (env : roundTripEnv) (ctx : nat) (w : world) : world :=
  if dialed (w_client w) then w
  else
    let '(err, w) := dial env ctx w in
    setClient (setDialed err (w_client w)) w.

(** The deferred function of lines 326-331. *)
Definition deferredCleanup (id : StreamID) (cancel : nat) (w : world) : world :=
  let w := callCancel cancel None w in
  setClient (setRunningCtx (delete id (runningCtx (w_client w))) (w_client w)) w.

(** [close(reqDone); <-done]: the goroutine of lines 347-355 has returned.
    It has canceled both sides of the stream if it saw the caller's context
    done, which it can only when that context is done. *)
Definition joinCancelWatcher (env : roundTripEnv) (callerCtx : nat)
    (str : StreamID) (w : world) : world :=
  match ctxErr (w_ctxs w) callerCtx with
  | Some _ =>
      if watcherSawCancel env
      then emit (EvCancelRead str ErrCodeRequestCanceled)
             (emit (EvCancelWrite str ErrCodeRequestCanceled) w)
      else w
  | None => w
  end.

(** The body of the goroutine of lines 334-340, once [ctx.Done()] is closed. *)
Definition goawayWatcher (ctx : nat) (str : StreamID) (w : world) : world :=
  if isGoaway (ctxCause (w_ctxs w) ctx)
  then emit (EvCancelRead str ErrCodeRequestCanceled)
         (emit (EvCancelWrite str ErrCodeRequestCanceled) w)
  else w.

(** Lines 321-324: derive the context of the request and register its
    [CancelCauseFunc] under the stream id. *)
Definition registerContext (req : Request) (id : StreamID) (w : world) : nat * world :=
  let '(ctx, s) := withCancelCause (Ctx req) (w_ctxs w) in
  let cancel := ctx in
  let w := setCtxs s w in
  (ctx, setClient (setRunningCtx (<[id := cancel]> (runningCtx (w_client w))) (w_client w)) w).

(** The return of [roundTripOpt] once the deferred function is set up: what
    the other goroutines do after the return statement was evaluated, then
    the deferred function.  The entry of the request is in [c.runningCtx]
    until line 329, so that the reader of the control stream can still
    cancel the context after the check of line 376. *)
Definition returnDeferred (env : roundTripEnv) (id : StreamID) (cancel : nat)
    (w : world) : world :=
  deferredCleanup id cancel (applyActions (beforeCleanup env) w).

(** Lines 320-385: the request on the stream that was opened.  What the
    other goroutines do while [doRequest] runs is applied once it has
    returned: [doRequest] reads nothing of what they write. *)
Definition requestOnStream (env : roundTripEnv) (reqp : nat) (req : Request)
    (opt : roundTripOptions) (str : StreamID) (w : world) : outcome :=
  let id := str in
  let '(ctx, w) := registerContext req id w in
  let cancel := ctx in
  let w := emit (EvGo (goGoawayWatcher ctx str)) w in
  let w := emit (EvGo (goCancelWatcher (Ctx req) str)) w in
  let doneChan := negb (DontCloseRequestStream opt) in
  let '(rsp, rerr, w) := doRequest (requestIO env) reqp req str opt doneChan w in
  let w := applyActions (whileRequest env) w in
  match re_err rerr with
  | Some e =>
      let w := joinCancelWatcher env (Ctx req) str w in
      let w := if streamErr rerr =? 0 then w
               else emit (EvCancelWrite str (streamErr rerr)) w in
      let w := if connErr rerr =? 0 then w
               else emit (EvConnClose (connErr rerr) (Some e)) w in
      if isGoaway (ctxCause (w_ctxs w) ctx)
      then Returns None (Some errGoaway) (returnDeferred env id cancel w)
      else Returns None (replaceError env (Some e)) (returnDeferred env id cancel w)
  | None =>
      let w := if DontCloseRequestStream opt
               then joinCancelWatcher env (Ctx req) str w else w in
      Returns rsp (replaceError env None) (returnDeferred env id cancel w)
  end.

(** Lines 303-318: the optional wait for SETTINGS, then the stream. *)
Definition settingsAndStream (env : roundTripEnv) (reqp : nat) (req : Request)
    (opt : roundTripOptions) (w : world) : outcome :=
  let open (w : world) : outcome :=
    let w := emit (EvOpenStream (openStreamSync env)) w in
    match openStreamSync env with
    | Err err => Returns None (Some err) w
    | Ok str => requestOnStream env reqp req opt str w
    end in
  match CheckSettings opt with
  | None => open w
  | Some check =>
      let w := emit EvWaitSettings w in
      match settingsArrive env with
      | None => Blocks w
      | Some (Err cause) => Returns None (Some cause) w
      | Some (Ok settings) =>
          match check settings with
          | Some err => Returns None (Some err) w
          | None => open w
          end
      end
  end.

Definition MethodGet0RTT : string := "GET_0RTT".
Definition MethodHead0RTT : string := "HEAD_0RTT".

(** [reqCopy := *req; req = &reqCopy; req.Method = m]: a new cell of the
    heap, the caller's cell is not written. *)
Definition copyWithMethod (m : string) (req : Request) (w : world) : nat * Request * world :=
  let reqCopy := withMethod m req in
  (length (w_reqs w), reqCopy, setReqs (w_reqs w ++ [reqCopy]) w).

(** The [select] of lines 296-300, after the other goroutines have done
    [whileHandshake]: [inl w] to go on, [inr o] to return or block. *)
Definition waitForHandshake (env : roundTripEnv) (req : Request) (w : world)
  : world + outcome :=
  let w := emit EvWaitHandshake w in
  let w := applyActions (whileHandshake env) w in
  match handshakeCompletes env, ctxErr (w_ctxs w) (Ctx req) with
  | true, None => inl w
  | true, Some err => if selectPrefersCtx env then inr (Returns None (Some err) w) else inl w
  | false, Some err => inr (Returns None (Some err) w)
  | false, None => inr (Blocks w)
  end.

(** [roundTripOpt(req, opt)], where [reqp] is the pointer [req]. *)
Definition roundTripOpt (env : roundTripEnv) (reqp : nat) (opt : roundTripOptions)
    (w : world) : outcome :=
  match w_reqs w !! reqp with
  | None => Panics w
  | Some req =>
      if negb (authorityOfRequest env req =? hostname (w_client w))%string
      then Returns None (Some (errWrongClient (hostname (w_client w)) (Host req))) w
      else
        let w := dialOnce env (Ctx req) w in
        match handshakeErr (w_client w) with
        | Some err => Returns None (Some err) w
        | None =>
            if receivedGoaway (w_client w)
            then Returns None (Some errGoaway) w
            else if (Method req =? MethodGet0RTT)%string
            then
              let '(reqp, req, w) := copyWithMethod "GET" req w in
              settingsAndStream env reqp req opt w
            else if (Method req =? MethodHead0RTT)%string
            then
              let '(reqp, req, w) := copyWithMethod "HEAD" req w in
              settingsAndStream env reqp req opt w
            else
              match waitForHandshake env req w with
              | inl w => settingsAndStream env reqp req opt w
              | inr o => o
              end
        end
  end.

(** [RoundTripOpt(req, opt)], lines 253-260. *)
Definition RoundTripOpt (env : roundTripEnv) (reqp : nat) (opt : roundTripOptions)
    (w : world) : outcome :=
  match roundTripOpt env reqp opt w with
  | Returns rsp err w =>
      let w := applyActions (beforeReturn env) w in
      let ctxError :=
        match w_reqs w !! reqp with
        | Some req => ctxErr (w_ctxs w) (Ctx req)
        | None => None
        end in
      match err, ctxError with
      | Some _, Some cerr => Returns rsp (Some cerr) w
      | _, _ => Returns rsp err w
      end
  | o => o
  end.

(** The world a call leaves. *)
Definition outcomeWorld (o : outcome) : world :=
  match o with
  | Returns _ _ w => w
  | Blocks w => w
  | Panics w => w
  end.

(** ** [sendRequestBody]

    The goroutine of lines 443-456 runs [sendRequestBody] on a state of its
    own: the caller's body, which is an [io.Reader] outside this package,
    and the write side of the request stream. *)

(** What one [Read] of the body returns: some bytes and an error or nil.  A
    [Read] with a buffer shorter than the chunk returns the part that fits
    and leaves the rest for the next [Read]; after the last chunk every
    [Read] returns [(0, io.EOF)]. *)
Definition chunk : Type := list Byte.byte * option error.

Record bodyState : Type := mkBodyState {
  source : list chunk;             (* what the body still has to yield *)
  bodyClosed : bool;               (* body.Close() was called *)
  streamData : list Byte.byte;     (* the bytes written to the stream *)
  streamBudget : option nat;       (* the stream takes that many bytes more, then Write fails; None: Write never fails *)
  cancelWrites : list ErrCode      (* the codes of the CancelWrite calls *)
}.

Definition setSource (s : list chunk) (st : bodyState) : bodyState :=
  mkBodyState s (bodyClosed st) (streamData st) (streamBudget st) (cancelWrites st).

Definition closeBody (st : bodyState) : bodyState :=
  mkBodyState (source st) true (streamData st) (streamBudget st) (cancelWrites st).

(** [str.CancelWrite(code)]. *)
Definition CancelWrite (code : ErrCode) (st : bodyState) : bodyState :=
  mkBodyState (source st) (bodyClosed st) (streamData st) (streamBudget st)
    (cancelWrites st ++ [code]).

(** [body.Read(buf)] with [len(buf) = k]. *)
Definition bodyRead (k : nat) (s : list chunk) : list Byte.byte * option error * list chunk :=
  match s with
  | [] => ([], Some ioEOF, [])
  | (d, e) :: rest =>
      if (length d <=? k)%nat then (d, e, rest)
      else (take k d, None, (drop k d, e) :: rest)
  end.

(** [str.Write(p)]: the number of bytes written and the error.  Writing on
    a stream whose write side was canceled fails. *)
Definition streamWrite (p : list Byte.byte) (st : bodyState) : nat * option error * bodyState :=
  match cancelWrites st with
  | _ :: _ => (0%nat, Some (errOther "write on canceled stream"), st)
  | [] =>
      match streamBudget st with
      | None =>
          (length p, None,
           mkBodyState (source st) (bodyClosed st) (streamData st ++ p) None (cancelWrites st))
      | Some b =>
          if (length p <=? b)%nat
          then (length p, None,
                mkBodyState (source st) (bodyClosed st) (streamData st ++ p)
                  (Some (b - length p)%nat) (cancelWrites st))
          else (b, Some (errOther "stream write failed"),
                mkBodyState (source st) (bodyClosed st) (streamData st ++ take b p)
                  (Some 0%nat) (cancelWrites st))
      end
  end.

(** The readers [sendRequestBody] builds on the body. *)
Inductive reader : Type :=
| bodyReader
| cancelingReader (r : reader)             (* &cancelingReader{str: str, r: r} *)
| limitedReader (r : reader) (N : Z).      (* io.LimitReader(r, N) *)

(** [r.Read(buf)] with [len(buf) = k].  [cancelingReader.Read] is lines
    395-401; [LimitedReader.Read] returns [(0, io.EOF)] once [N <= 0], else
    cuts the buffer to [N] bytes and counts what was read. *)
Fixpoint Read (r : reader) (k : nat) (st : bodyState)
  : list Byte.byte * option error * reader * bodyState :=
  match r with
  | bodyReader =>
      let '(d, e, rest) := bodyRead k (source st) in
      (d, e, bodyReader, setSource rest st)
  | cancelingReader r0 =>
      let '(d, err, r0, st) := Read r0 k st in
      match err with
      | None | Some ioEOF => (d, err, cancelingReader r0, st)
      | Some _ => (d, err, cancelingReader r0, CancelWrite ErrCodeRequestCanceled st)
      end
  | limitedReader r0 N =>
      if N <=? 0 then ([], Some ioEOF, r, st)
      else
        let k := if Z.of_nat k >? N then Z.to_nat N else k in
        let '(d, err, r0, st) := Read r0 k st in
        (d, err, limitedReader r0 (N - Z.of_nat (length d)), st)
  end.

(** The loop of [io.CopyBuffer(str, src, buf)] with [len(buf) = k], for a
    destination and a source without [ReadFrom] and [WriteTo]: the bytes
    written and the error. *)
Fixpoint copyBuffer (fuel : nat) (k : nat) (src : reader) (written : Z) (st : bodyState)
  : option (Z * option error * bodyState) :=
  match fuel with
  | O => None
  | S fuel =>
      let '(d, er, src, st) := Read src k st in
      let nr := length d in
      let '(nw, ew, st) :=
        if (0 <? nr)%nat then streamWrite d st else (0%nat, None, st) in
      let written := written + Z.of_nat nw in
      match ew with
      | Some err => Some (written, Some err, st)
      | None =>
          if negb (nr =? nw)%nat
          then Some (written, Some (errOther "short write"), st)
          else
            match er with
            | Some ioEOF => Some (written, None, st)
            | Some err => Some (written, Some err, st)
            | None => copyBuffer fuel k src written st
            end
      end
  end.

Definition discardBufferSize : nat := Z.to_nat 8192.

(** [io.CopyBuffer(io.Discard, src, buf)]: [io.Discard] has [ReadFrom], which
    reads into a buffer of its own of 8192 bytes until an error, and reports
    no error for [io.EOF]. *)
Fixpoint discardReadFrom (fuel : nat) (src : reader) (n : Z) (st : bodyState)
  : option (Z * option error * bodyState) :=
  match fuel with
  | O => None
  | S fuel =>
      let '(d, err, src, st) := Read src discardBufferSize st in
      let n := n + Z.of_nat (length d) in
      match err with
      | Some ioEOF => Some (n, None, st)
      | Some err => Some (n, Some err, st)
      | None => discardReadFrom fuel src n st
      end
  end.

(** A bound on the number of [Read] calls a body takes until it has
    returned an error: each call with a buffer that is not empty ends a
    chunk or takes a byte or more of it. *)
Definition readBound (s : list chunk) : nat :=
  S (length s + length (concat (map fst s))).

(** [sendRequestBody(str, body, contentLength)], lines 403-425, with
    [bodyCopyBufferSize] (a constant of another file) as a parameter.  The
    error it returns and the state it leaves; [None] only if the loops were
    cut short, which [readBound] excludes. *)
Definition sendRequestBody (bodyCopyBufferSize : nat) (contentLength : Z)
    (st : bodyState) : option (option error * bodyState) :=
  let fuel := readBound (source st) in
  let sr := cancelingReader bodyReader in
  if contentLength =? -1
  then
    match copyBuffer fuel bodyCopyBufferSize sr 0 st with
    | None => None
    | Some (_, err, st) => Some (err, closeBody st)
    end
  else
    match copyBuffer fuel bodyCopyBufferSize (limitedReader sr contentLength) 0 st with
    | None => None
    | Some (_, Some err, st) => Some (Some err, closeBody st)
    | Some (n, None, st) =>
        match discardReadFrom fuel sr 0 st with
        | None => None
        | Some (extra, err, st) =>
            let n := n + extra in
            if n >? contentLength
            then Some (Some (errContentLength contentLength n),
                       closeBody (CancelWrite ErrCodeRequestCanceled st))
            else Some (err, closeBody st)
        end
    end.

(** The bytes a body still has to yield, and how many of them a run took. *)
Definition sourceBytes (s : list chunk) : list Byte.byte := concat (map fst s).

Definition consumed (st st' : bodyState) : Z :=
  Z.of_nat (length (sourceBytes (source st))) - Z.of_nat (length (sourceBytes (source st'))).

(** ** [newClient] *)

(** [quic.Version]. *)
Definition Version := Z.

(** The fields of [quic.Config] that [newClient] reads or writes, and
    [KeepAlivePeriod], which [defaultQuicConfig] sets (a [time.Duration], in
    nanoseconds). *)
Record quicConfig : Type := mkQuicConfig {
  Versions : list Version;
  EnableDatagrams : bool;
  MaxIncomingStreams : Z;
  KeepAlivePeriod : Z
}.

(** Lines 38-41; the fields that are not listed have their zero value. *)
Definition defaultQuicConfig : quicConfig :=
  mkQuicConfig [] false (-1) (10 * 1000000000).

Definition setEnableDatagrams (b : bool) (c : quicConfig) : quicConfig :=
  mkQuicConfig (Versions c) b (MaxIncomingStreams c) (KeepAlivePeriod c).

Definition setVersions (vs : list Version) (c : quicConfig) : quicConfig :=
  mkQuicConfig vs (EnableDatagrams c) (MaxIncomingStreams c) (KeepAlivePeriod c).

Definition setMaxIncomingStreams (n : Z) (c : quicConfig) : quicConfig :=
  mkQuicConfig (Versions c) (EnableDatagrams c) n (KeepAlivePeriod c).

(** The fields of [tls.Config] that [newClient] reads or writes. *)
Record tlsConfig : Type := mkTlsConfig {
  ServerName : string;
  NextProtos : list string
}.

(** What [newClient] calls outside this file: [protocol.SupportedVersions[0]],
    [net.SplitHostPort] (the host and the port, or an error),
    [versionToALPN] and [authorityAddr]. *)
Record newClientEnv : Type := mkNewClientEnv {
  supportedVersion0 : Version;
  splitHostPort : string -> res (string * string);
  versionToALPN : Version -> string;
  authorityAddr : string -> string -> string
}.

Definition errDatagramsDisabled : error :=
  errOther "HTTP Datagrams enabled, but QUIC Datagrams disabled".

Definition errSingleVersion : error :=
  errOther "can only use a single QUIC version for dialing a HTTP/3 connection".

(** What [newClient] returns when it succeeds: the client, with the TLS and
    QUIC configurations it will dial with.  The fields the struct literal of
    lines 120-130 does not set have their zero value: the client has not
    dialed, has no handshake error and has received no GOAWAY; the registry
    is the empty map of line 128. *)
Record clientSetup : Type := mkClientSetup {
  cs_client : client;
  cs_tlsConf : tlsConfig;
  cs_config : quicConfig
}.

(** [newClient(hostname, tlsConf, opts, conf, dialer)], lines 84-131.  [conf]
    and [tlsConf] are pointers: [None] is nil, [Some c] points to an object
    of the caller that holds [c].  The second component is what the
    caller's [quic.Config] object holds when [newClient] returns.

    In the body [cur] is the object the local [conf] points to and [shared]
    tells whether that is the object of the caller: it is until [conf] is
    bound to a clone (lines 86 and 93), and a write through [conf] (line
    100) changes the caller's object when it is.  The TLS configuration is
    fresh or a clone (lines 104-108), so the caller's is never written. *)
Definition newClient (E : newClientEnv) (hostname : string)
    (tlsConf : option tlsConfig) (opts : roundTripperOpts) (conf : option quicConfig)
  : res clientSetup * option quicConfig :=
  let '(cur, shared) :=
    match conf with
    | None => (setEnableDatagrams (EnableDatagram opts) defaultQuicConfig, false)
    | Some c => (c, true)
    end in
  if EnableDatagram opts && negb (EnableDatagrams cur)
  then (Err errDatagramsDisabled, conf)
  else
    let '(cur, shared) :=
      if (length (Versions cur) =? 0)%nat
      then (setVersions [supportedVersion0 E] cur, false)
      else (cur, shared) in
    match Versions cur with
    | [v] =>
        let cur :=
          if MaxIncomingStreams cur =? 0 then setMaxIncomingStreams (-1) cur else cur in
        let tls :=
          match tlsConf with
          | None => mkTlsConfig "" []
          | Some t => t
          end in
        let tls :=
          if (ServerName tls =? "")%string
          then
            let sni :=
              match splitHostPort E hostname with
              | Ok (sni, _) => sni
              | Err _ => hostname
              end in
            mkTlsConfig sni (NextProtos tls)
          else tls in
        let tls := mkTlsConfig (ServerName tls) [versionToALPN E v] in
        (Ok (mkClientSetup
               (mkClient (authorityAddr E "https" hostname) opts false None false ∅)
               tls cur),
         if shared then Some cur else conf)
    | _ => (Err errSingleVersion, conf)
    end.

(** ** [Close] and [HandshakeComplete] *)

(** [c.conn.Load() != nil].  The connection is stored at line 144, in
    [dial], once the dialer has returned no error; [dial] then returns nil,
    and it runs nowhere but in [dialOnce].  So the pointer is set exactly
    when the client has dialed and [handshakeErr] is nil. *)
Definition connStored (c : client) : bool :=
  dialed c && match handshakeErr c with
              | None => true
              | Some _ => false
              end.

(** [Close()], lines 237-243; [closeResult] is what
    [conn.CloseWithError] returns. *)
Definition Close (closeResult : option error) (w : world) : option error * world :=
  if connStored (w_client w)
  then (closeResult, emit (EvConnClose ErrCodeNoError None) w)
  else (None, w).

(** [HandshakeComplete()], lines 524-535; [handshakeDone] tells whether the
    channel [conn.HandshakeComplete()] is closed. *)
Definition HandshakeComplete (handshakeDone : bool) (c : client) : bool :=
  if connStored c then handshakeDone else false.

(** ** The goroutine that sends the body *)

(** The goroutine of lines 443-456 on the body and the stream of the
    request; it logs the error of [sendRequestBody] and closes the write
    side of the stream unless [DontCloseRequestStream] is set. *)
Definition sendBodyGoroutine (bodyCopyBufferSize : nat) (req : Request)
    (opt : roundTripOptions) (str : StreamID) (st : bodyState) (w : world)
  : option (bodyState * world) :=
  match sendRequestBody bodyCopyBufferSize (bodyContentLength req) st with
  | None => None
  | Some (err, st) =>
      let w := match err with
               | Some _ => emit (EvLog "Error writing request") w
               | None => w
               end in
      let w := if DontCloseRequestStream opt then w else emit (EvStreamClose str) w in
      Some (st, w)
  end.

(** ** [handleBidirectionalStreams] *)

(** What [parseNextFrame] returns for a stream that the [StreamHijacker] is
    offered first: a frame, [errHijacked] when the hijacker took the
    stream, or another error. *)
Inductive hijackResult : Type :=
| frameParsed (f : frame)
| streamHijacked
| parseFailed (e : error).

(** The reason the connection is closed with at line 232 (a string, kept
    as the error with that text). *)
Definition errFrameOnBidirectionalStream : error :=
  errOther "received HTTP/3 frame on bidirectional stream".

(** The goroutine of lines 221-233, for one accepted stream. *)
Definition handleAcceptedStream (r : hijackResult) (w : world) : world :=
  match r with
  | streamHijacked => w
  | frameParsed _ =>
      emit (EvConnClose ErrCodeFrameUnexpected (Some errFrameOnBidirectionalStream)) w
  | parseFailed _ =>
      emit (EvConnClose ErrCodeFrameUnexpected (Some errFrameOnBidirectionalStream))
        (emit (EvLog "error handling stream") w)
  end.

(** The loop of lines 215-234 over what [conn.AcceptStream] returns, call
    after call: the streams it has started a goroutine for, in order,
    whether it has returned ([false]: it waits for the next stream), and the
    world it leaves. *)
Fixpoint handleBidirectionalStreams (accepted : list (res StreamID)) (w : world)
  : list StreamID * bool * world :=
  match accepted with
  | [] => ([], false, w)
  | Err _ :: _ => ([], true, emit (EvLog "accepting bidirectional stream failed") w)
  | Ok str :: rest =>
      let '(strs, returned, w) := handleBidirectionalStreams rest w in
      (str :: strs, returned, w)
  end.

(** ** Vocabulary of the properties *)

(** Modelled from the spec: [requestWriter.WriteRequestHeader(str, req,
    gzip)] is in another file of the package.  The header block it writes
    holds the fields of the request and, when [gzip] is set, the field of
    the automatic negotiation, [accept-encoding: gzip]. *)
Definition acceptEncodingGzip : HeaderField := mkHeaderField "accept-encoding" "gzip".

Definition automaticFields (gzip : bool) : list HeaderField :=
  if gzip then [acceptEncodingGzip] else [].

(** [Header.Get] finds no value for [key]: the header has no entry under
    that key, or an entry without values, or one whose first value is the
    empty string. *)
Definition noValue (h : Header) (key : string) : Prop :=
  h !! key = None \/ h !! key = Some [] \/ exists vs, h !! key = Some (""%string :: vs).

(** [Header.Get] finds a value for [key]: the header has an entry under that
    key whose first value is not the empty string. *)
Definition hasValue (h : Header) (key : string) : Prop :=
  exists v vs, h !! key = Some (v :: vs) /\ v <> ""%string.

(** The request [r] with the header [h]. *)
Definition withHeader (h : Header) (r : Request) : Request :=
  mkRequest (Method r) (Host r) h (Body r) (ReqContentLength r) (Ctx r).

(** The responses for which lines 498-502 skip the Content-Length rules:
    a Transfer-Encoding header, a status 1xx, the status 204, or a
    successful CONNECT. *)
Definition exemptResponse (req : Request) (res : Response) : Prop :=
  hasKey (RespHeader res) "Transfer-Encoding" = true \/
  (100 <= StatusCode res < 200) \/
  StatusCode res = 204 \/
  (Method req = "CONNECT"%string /\ 200 <= StatusCode res < 300).

(** The call returns an error and no response. *)
Definition fails (o : outcome) : Prop :=
  exists err w, o = Returns None (Some err) w.

(** A [Read] error that is neither nil nor [io.EOF]. *)
Definition isRealError (e : option error) : bool :=
  match e with
  | None | Some ioEOF => false
  | Some _ => true
  end.

(** The number of chunks and bytes a body still has to yield. *)
Definition sourceSize (s : list chunk) : nat :=
  (length s + length (sourceBytes s))%nat.

(** A body that yields its bytes and then [io.EOF], with no other error. *)
Definition cleanSource (s : list chunk) : Prop :=
  Forall (fun c => snd c = None) s.

(** The write side of the stream was not canceled and takes [n] bytes more. *)
Definition accepts (n : Z) (st : bodyState) : Prop :=
  cancelWrites st = [] /\
  match streamBudget st with
  | None => True
  | Some b => n <= Z.of_nat b
  end.

(** What a copy that started in [st] with [written] bytes counted, read
    through a limit of [N] bytes, and ended in [st'] with [written'] bytes
    counted and the error [err] has done: the bytes it wrote are the first
    bytes of the body, no more than it took from the body, which are no more
    than the limit; without an error it wrote all it took and canceled
    nothing; when the body is clean and the stream takes what the limit
    allows there is no error, and the copy went to the limit or to the end
    of the body; and an error on a clean body is one of the stream. *)
Record copied (N written written' : Z) (err : option error) (st st' : bodyState)
  : Prop := mkCopied {
  cp_written : 0 <= written' - written <= consumed st st';
  cp_limit : consumed st st' <= Z.max N 0;
  cp_size : (sourceSize (source st') <= sourceSize (source st))%nat;
  cp_data : streamData st' =
            streamData st ++ take (Z.to_nat (written' - written)) (sourceBytes (source st));
  cp_closed : bodyClosed st' = bodyClosed st;
  cp_ok : err = None ->
          written' - written = consumed st st' /\ cancelWrites st' = cancelWrites st;
  cp_keep : cleanSource (source st) -> cleanSource (source st');
  cp_clean : cleanSource (source st) -> accepts (Z.max N 0) st ->
             err = None /\ (consumed st st' = Z.max N 0 \/ source st' = []);
  cp_err : forall x, err = Some x -> cleanSource (source st) ->
                     exists msg, x = errOther msg
}.

(** The [cancel(errGoaway)] calls of the range loop over the entries [l]. *)
Definition cancelEvents (G : StreamID) (l : list (Z * nat)) : list event :=
  flat_map (fun e => if fst e >=? G then [EvCancel (snd e) (Some errGoaway)] else []) l.

(** Every registered request has a cancellation handle of its own. *)
Definition registryInjective (m : gmap Z nat) : Prop :=
  forall i j h, m !! i = Some h -> m !! j = Some h -> i = j.

(** [w'] has the trace of [w] and then events that satisfy [Q]. *)
Definition extends (Q : event -> Prop) (w w' : world) : Prop :=
  exists evs, w_trace w' = w_trace w ++ evs /\ Forall Q evs.

(** The events of the control-stream reader. *)
Definition controlEvent (e : event) : Prop :=
  match e with
  | EvLog _ | EvConnClose _ _ | EvCancel _ _ => True
  | _ => False
  end.

Definition stepWorld (s : stepResult) : world :=
  match s with
  | Continue w => w
  | Stop w _ => w
  end.

(** The events of a call that sends [req], after the wait for the
    handshake: no dial, no wait for the handshake, and [req] is the only
    request whose header is written. *)
Definition requestEvent (req : Request) (e : event) : Prop :=
  match e with
  | EvDial _ | EvWaitHandshake => False
  | EvWriteRequestHeader _ r _ => r = req
  | _ => True
  end.

(** What [settingsAndStream] and all that follows it do to the world. *)
Record callFrame (env : roundTripEnv) (req : Request) (w : world) (o : outcome) : Prop :=
  mkCallFrame {
    cf_reqs : w_reqs (outcomeWorld o) = w_reqs w;
    cf_done : forall h x, ctxErr (w_ctxs w) h = Some x ->
                          ctxErr (w_ctxs (outcomeWorld o)) h = Some x;
    cf_trace : extends (requestEvent req) w (outcomeWorld o);
    cf_ctx : length (w_ctxs (outcomeWorld o)) = length (w_ctxs w) \/
             (length (w_ctxs (outcomeWorld o)) = S (length (w_ctxs w)) /\
              exists x, ctxErr (w_ctxs (outcomeWorld o)) (length (w_ctxs w)) = Some x);
    cf_goaway : forall rsp e w',
        beforeCleanup env = [] ->
        o = Returns rsp (Some e) w' ->
        ctxCause (w_ctxs w') (length (w_ctxs w)) = Some errGoaway -> e = errGoaway
  }.

(** The request the client sends for the caller's request [req]. *)
Definition sentRequest (req : Request) : Request :=
  if (Method req =? MethodGet0RTT)%string then withMethod "GET" req
  else if (Method req =? MethodHead0RTT)%string then withMethod "HEAD" req
  else req.

(** The events of a call that sends [req]. *)
Definition callEvent (req : Request) (e : event) : Prop :=
  match e with
  | EvWriteRequestHeader _ r _ => r = req
  | _ => True
  end.

(** What a call of [roundTripOpt] for the request [req] at [reqp] does to
    the world: the caller's request stays as it is, the heap of requests
    gets at most the copy that is sent, contexts that are done stay so, the
    only request header written is the one of [sentRequest req], at most one
    context is derived, and, when nothing happens between the return
    statement and the deferred function, a failure is the goaway error when
    that is the cause recorded in the derived context. *)
Record tripFrame (env : roundTripEnv) (reqp : nat) (req : Request) (w : world)
    (o : outcome) : Prop := mkTripFrame {
  tf_req : w_reqs (outcomeWorld o) !! reqp = Some req;
  tf_heap : w_reqs (outcomeWorld o) = w_reqs w \/
            w_reqs (outcomeWorld o) = w_reqs w ++ [sentRequest req];
  tf_done : forall h x, ctxErr (w_ctxs w) h = Some x ->
                        ctxErr (w_ctxs (outcomeWorld o)) h = Some x;
  tf_trace : extends (callEvent (sentRequest req)) w (outcomeWorld o);
  tf_ctx : length (w_ctxs (outcomeWorld o)) = length (w_ctxs w) \/
           (length (w_ctxs (outcomeWorld o)) = S (length (w_ctxs w)) /\
            exists x, ctxErr (w_ctxs (outcomeWorld o)) (length (w_ctxs w)) = Some x);
  tf_goaway : forall rsp e w',
      beforeCleanup env = [] ->
      o = Returns rsp (Some e) w' ->
      ctxCause (w_ctxs w') (length (w_ctxs w)) = Some errGoaway -> e = errGoaway
}.

(** The environment of a call in which no other goroutine acts between the
    return statement of [roundTripOpt] and its deferred function. *)
Definition quietReturn (env : roundTripEnv) : roundTripEnv :=
  mkRoundTripEnv (authorityOfRequest env) (maybeReplaceError env) (dialResult env)
    (whileHandshake env) (handshakeCompletes env) (selectPrefersCtx env)
    (settingsArrive env) (openStreamSync env) (requestIO env) (whileRequest env)
    (watcherSawCancel env) [] (beforeReturn env).

(** The cause recorded in the context the call derives, by all that happens
    up to the return statement of [roundTripOpt]: the cause in the world the
    call leaves when nothing happens after the return statement.  A goaway
    cause is recorded there if and only if the check of line 376 finds it:
    the deferred [cancel(nil)] leaves the cause of a context that is done
    and records [context.Canceled] in one that is not.  It is [None] when
    the call derives no context.  The handle of the derived context is the
    size of the store when the call begins. *)
Definition causeAtReturn (env : roundTripEnv) (reqp : nat) (opt : roundTripOptions)
    (w : world) : option error :=
  ctxCause (w_ctxs (outcomeWorld (roundTripOpt (quietReturn env) reqp opt w)))
    (length (w_ctxs w)).

(** What a call hands to its caller. *)
Definition resultOf (o : outcome) : option (option Response * option error) :=
  match o with
  | Returns rsp err _ => Some (rsp, err)
  | _ => None
  end.

(** The registry of a world is in order: every registered request has a
    cancellation handle of its own, and the handles are contexts of the
    store. *)
Definition registryOK (w : world) : Prop :=
  registryInjective (runningCtx (w_client w)) /\
  forall id h, runningCtx (w_client w) !! id = Some h -> (h < length (w_ctxs w))%nat.

(** The events of the dial: the call of the dialer and the goroutines of the
    connection. *)
Definition isDialEvent (e : event) : bool :=
  match e with
  | EvDial _ | EvGo goSetupConn | EvGo goHandleBidirectionalStreams
  | EvGo goHandleUnidirectionalStreams => true
  | _ => false
  end.

(** What [dial] adds to the trace. *)
Definition dialEvents (env : roundTripEnv) (ctx : nat) (c : client) : list event :=
  EvDial ctx ::
  match dialResult env with
  | Some _ => []
  | None =>
      EvGo goSetupConn ::
      (if StreamHijacker (opts c) then [EvGo goHandleBidirectionalStreams] else [])
      ++ [EvGo goHandleUnidirectionalStreams]
  end.

(** The request stream an event is about. *)
Definition streamOf (e : event) : option StreamID :=
  match e with
  | EvWriteRequestHeader s _ _ | EvStreamClose s | EvCancelWrite s _
  | EvCancelRead s _ | EvParseFrame s => Some s
  | EvGo (goGoawayWatcher _ s) | EvGo (goCancelWatcher _ s)
  | EvGo (goSendRequestBody s _ _ _) => Some s
  | _ => None
  end.

(** An event of a request on the stream [str]: no event of the dial, no
    wait for the handshake, and if it is about a stream, then about [str]. *)
Definition streamEvent (str : StreamID) (e : event) : Prop :=
  isDialEvent e = false /\ e <> EvWaitHandshake /\
  forall s, streamOf e = Some s -> s = str.

(** An event of a call after its dial: as above, for the stream that
    [OpenStreamSync] gives. *)
Definition afterDialEvent (env : roundTripEnv) (e : event) : Prop :=
  isDialEvent e = false /\
  forall s, streamOf e = Some s -> openStreamSync env = Ok s.

(** The fields of the client that are set once: when it is made, and by the
    dial. *)
Definition clientFixed (c c' : client) : Prop :=
  hostname c' = hostname c /\ opts c' = opts c /\
  dialed c' = dialed c /\ handshakeErr c' = handshakeErr c.

(** The world a call works in once it is past [dialOnce]: the world of the
    call if the request is for another client, or if there is no request. *)
Definition dialedWorld (env : roundTripEnv) (reqp : nat) (w : world) : world :=
  match w_reqs w !! reqp with
  | Some req =>
      if (authorityOfRequest env req =? hostname (w_client w))%string
      then dialOnce env (Ctx req) w
      else w
  | None => w
  end.

(** Calls of [RoundTripOpt], one after the other. *)
Record call : Type := mkCall {
  call_env : roundTripEnv;
  call_req : nat;
  call_opt : roundTripOptions
}.

Definition runCalls (cs : list call) (w : world) : world :=
  foldl (fun w c => outcomeWorld (RoundTripOpt (call_env c) (call_req c) (call_opt c) w))
    w cs.

(** The events of the control-stream reader before it returns: a log entry
    for a frame it ignores, and the [cancel(errGoaway)] calls. *)
Definition goawayOrLog (e : event) : Prop :=
  match e with
  | EvLog _ => True
  | EvCancel _ (Some errGoaway) => True
  | _ => False
  end.

(** What a copy without a limit that started in [st] with [written] bytes
    counted and ended in [st'] with [written'] bytes counted and the error
    [err] has done: the bytes it wrote are the first bytes of the body, no
    more than it took from it; without an error it wrote all it took and
    canceled nothing; on a clean body and a stream that takes the whole
    body there is no error and the body is at its end; and an error on a
    clean body is one of the stream. *)
Record streamed (written written' : Z) (err : option error) (st st' : bodyState)
  : Prop := mkStreamed {
  sm_written : 0 <= written' - written <= consumed st st';
  sm_data : streamData st' =
            streamData st ++ take (Z.to_nat (written' - written)) (sourceBytes (source st));
  sm_closed : bodyClosed st' = bodyClosed st;
  sm_ok : err = None ->
          written' - written = consumed st st' /\ cancelWrites st' = cancelWrites st;
  sm_clean : cleanSource (source st) ->
             accepts (Z.of_nat (length (sourceBytes (source st)))) st ->
             err = None /\ source st' = [];
  sm_err : forall x, err = Some x -> cleanSource (source st) ->
                     exists msg, x = errOther msg
}.

Definition isStreamClose (e : event) : bool :=
  match e with
  | EvStreamClose _ => true
  | _ => false
  end.

(** How often the write side of a request stream was closed. *)
Definition closes (t : list event) : nat := length (List.filter isStreamClose t).

Definition isConnClose (e : event) : bool :=
  match e with
  | EvConnClose _ _ => true
  | _ => false
  end.

(** The [CloseWithError] calls of a trace. *)
Definition connCloses (t : list event) : list event := List.filter isConnClose t.

Definition isHijacked (r : hijackResult) : bool :=
  match r with
  | streamHijacked => true
  | _ => false
  end.

(** The streams before the first error of [AcceptStream]. *)
Fixpoint acceptedStreams (accepted : list (res StreamID)) : list StreamID :=
  match accepted with
  | Ok str :: rest => str :: acceptedStreams rest
  | _ => []
  end.

(** ** Sample inputs

    Concrete clients, requests and environments on which the properties
    below are exercised. *)

Definition sampleOpts : roundTripperOpts := mkOpts false false 0 [] false.

(** A client whose connection is up. *)
Definition sampleClient : client :=
  mkClient "example.com:443" sampleOpts true None false ∅.

Definition sampleRequest : Request :=
  mkRequest "GET" "example.com" ∅ None 0 0%nat.

(** One caller context (handle 0, not done) and one request (pointer 0). *)
Definition sampleWorld : world :=
  mkWorld sampleClient [mkCtx None None None] [sampleRequest] false [].

(** Three requests in flight on the streams 0, 4 and 8, each with a context
    of its own derived from the caller's. *)
Definition busyWorld : world :=
  mkWorld
    (setRunningCtx (<[0 := 1%nat]> (<[4 := 2%nat]> (<[8 := 3%nat]> ∅))) sampleClient)
    [mkCtx None None None; mkCtx (Some 0%nat) None None;
     mkCtx (Some 0%nat) None None; mkCtx (Some 0%nat) None None]
    [sampleRequest] false [].

Definition sampleResponse : Response :=
  mkResponse 200 ∅ 0 false noBody None false.

(** A server that answers with a HEADERS frame that decodes well. *)
Definition sampleIO : requestOracle :=
  mkRequestOracle None (Ok (headersFrame 10)) None (Ok []) (fun _ => Ok sampleResponse).

(** The handshake completes, the stream 0 opens, nobody interferes. *)
Definition sampleEnv : roundTripEnv :=
  mkRoundTripEnv (fun _ => "example.com:443"%string) (fun e => e) None
    [] true false None (Ok 0) sampleIO [] false [] [].

Definition sampleOptions : roundTripOptions := mkRoundTripOptions None false.

(** A GOAWAY was received, and the caller's context is canceled. *)
Definition goawayCanceledWorld : world :=
  mkWorld (storeReceivedGoaway true sampleClient)
    [mkCtx None (Some ctxCanceled) (Some ctxCanceled)] [sampleRequest] false [].

(** The stream fails while the reader of the control stream accepts a
    GOAWAY with id 0, and the caller cancels the request right after. *)
Definition raceEnv : roundTripEnv :=
  mkRoundTripEnv (fun _ => "example.com:443"%string) (fun e => e) None
    [] true false None (Ok 0)
    (mkRequestOracle None (Err (errOther "stream canceled")) None (Ok [])
       (fun _ => Ok sampleResponse))
    [ActControlFrame (Ok (goawayFrame 0)); ActCancelCaller 0%nat ctxCanceled]
    true [] [].

(** The stream is reset while the reader of the control stream accepts a
    GOAWAY with id 0; the caller does not cancel. *)
Definition goawayResetEnv : roundTripEnv :=
  mkRoundTripEnv (fun _ => "example.com:443"%string) (fun e => e) None
    [] true false None (Ok 0)
    (mkRequestOracle None (Err (errOther "stream reset")) None (Ok [])
       (fun _ => Ok sampleResponse))
    [ActControlFrame (Ok (goawayFrame 0))] false [] [].

(** The stream is reset, and the reader of the control stream accepts a
    GOAWAY with id 0 when [roundTripOpt] has evaluated its return statement
    and has not run its deferred function yet. *)
Definition goawayAtReturnEnv : roundTripEnv :=
  mkRoundTripEnv (fun _ => "example.com:443"%string) (fun e => e) None
    [] true false None (Ok 0)
    (mkRequestOracle None (Err (errOther "stream reset")) None (Ok [])
       (fun _ => Ok sampleResponse))
    [] false [ActControlFrame (Ok (goawayFrame 0))] [].

(** The handshake never completes. *)
Definition noHandshakeEnv : roundTripEnv :=
  mkRoundTripEnv (fun _ => "example.com:443"%string) (fun e => e) None
    [] false false None (Ok 0) sampleIO [] false [] [].

(** The handshake never completes, and the deadline of the caller's context
    passes during the wait. *)
Definition deadlineEnv : roundTripEnv :=
  mkRoundTripEnv (fun _ => "example.com:443"%string) (fun e => e) None
    [ActCancelCaller 0%nat ctxDeadlineExceeded] false false None (Ok 0) sampleIO [] false [] [].

Definition zeroRTTRequest : Request :=
  mkRequest MethodGet0RTT "example.com" ∅ None 0 0%nat.

(** Requests whose caller has set an Accept-Encoding header that
    [Header.Get] does not find: one with an empty value, and one that was
    put into the map under a key that is not in canonical form. *)
Definition emptyEncodingRequest : Request :=
  mkRequest "GET" "example.com" (<["Accept-Encoding"%string := [""%string]]> ∅)
    None 0 0%nat.

Definition lowerCaseEncodingRequest : Request :=
  mkRequest "GET" "example.com" (<["accept-encoding"%string := ["identity"%string]]> ∅)
    None 0 0%nat.

Definition zeroRTTWorld : world :=
  mkWorld sampleClient [mkCtx None None None] [zeroRTTRequest] false [].

(** Modelled from the spec: [responseFromHeaders] is in another file.  It
    builds the response from the decoded fields and records the length of a
    Content-Length header that is present as [ContentLength]; line 490 reads
    it from there.  This is the response for the fields [:status 204] and
    [content-length: 5]. *)
Definition noContentResponse : Response :=
  mkResponse 204 (<["Content-Length"%string := ["5"%string]]> ∅) 5 false noBody None false.

Definition noContentEnv : roundTripEnv :=
  mkRoundTripEnv (fun _ => "example.com:443"%string) (fun e => e) None
    [] true false None (Ok 0)
    (mkRequestOracle None (Ok (headersFrame 10)) None (Ok [])
       (fun _ => Ok noContentResponse))
    [] false [] [].

(** The environment of [sampleEnv] with another server. *)
Definition envWithIO (io : requestOracle) : roundTripEnv :=
  mkRoundTripEnv (fun _ => "example.com:443"%string) (fun e => e) None
    [] true false None (Ok 0) io [] false [] [].

(** Servers that answer with a DATA frame first, with a HEADERS frame of
    1 GiB, and with a header block that does not decode. *)
Definition dataFirstIO : requestOracle :=
  mkRequestOracle None (Ok (dataFrame 3)) None (Ok []) (fun _ => Ok sampleResponse).

Definition hugeHeadersIO : requestOracle :=
  mkRequestOracle None (Ok (headersFrame (2 ^ 30))) None (Ok []) (fun _ => Ok sampleResponse).

Definition badBlockIO : requestOracle :=
  mkRequestOracle None (Ok (headersFrame 10)) None (Err (errOther "decoding error"))
    (fun _ => Ok sampleResponse).

(** A body of five bytes that comes in two chunks, and a stream that takes
    whatever is written. *)
Definition fiveBytes : bodyState :=
  mkBodyState [([Byte.x01; Byte.x02; Byte.x03], None); ([Byte.x04; Byte.x05], None)]
    false [] None [].


(** The collaborators of [newClient] for a host name without a port. *)
Definition sampleNewClientEnv : newClientEnv :=
  mkNewClientEnv 1 (fun _ => Err (errOther "missing port in address"))
    (fun _ => "h3"%string) (fun _ h => (h ++ ":443")%string).

(** Configurations of a caller: one version and no limit set, and two
    versions. *)
Definition oneVersionConfig : quicConfig := mkQuicConfig [1] false 0 0.

Definition twoVersionsConfig : quicConfig := mkQuicConfig [1; 2] false 0 0.

(** A client that has not dialed, as [newClient] returns it, and a world
    with one request for it. *)
Definition freshClient : client :=
  mkClient "example.com:443" sampleOpts false None false ∅.

Definition freshWorld : world :=
  mkWorld freshClient [mkCtx None None None] [sampleRequest] false [].


(** Servers whose stream cannot be written to, and whose header block
    breaks off. *)
Definition brokenWriterIO : requestOracle :=
  mkRequestOracle (Some (errOther "stream closed")) (Ok (headersFrame 10)) None (Ok [])
    (fun _ => Ok sampleResponse).

Definition shortBlockIO : requestOracle :=
  mkRequestOracle None (Ok (headersFrame 10)) (Some (errOther "unexpected EOF")) (Ok [])
    (fun _ => Ok sampleResponse).

(** The response arrives while the reader of the control stream accepts a
    GOAWAY with id 0. *)
Definition goawayMeanwhileEnv : roundTripEnv :=
  mkRoundTripEnv (fun _ => "example.com:443"%string) (fun e => e) None
    [] true false None (Ok 0) sampleIO
    [ActControlFrame (Ok (goawayFrame 0))] false [] [].

(** Modelled from the spec: [responseFromHeaders] is in another file.  This
    is the response for the fields [:status 200], [content-encoding: gzip]
    and [content-length: 20]. *)
Definition gzipResponse : Response :=
  mkResponse 200
    (<["Content-Encoding"%string := ["gzip"%string]]>
       (<["Content-Length"%string := ["20"%string]]> ∅))
    20 false noBody None false.

Definition gzipIO : requestOracle :=
  mkRequestOracle None (Ok (headersFrame 10)) None (Ok []) (fun _ => Ok gzipResponse).

(** A body whose second [Read] fails, on a stream that takes whatever is
    written. *)
Definition failingBody : bodyState :=
  mkBodyState [([Byte.x01; Byte.x02], None); ([], Some (errOther "disk error"))]
    false [] None [].

(** A request with a body and no declared length. *)
Definition uploadRequest : Request :=
  mkRequest "POST" "example.com" ∅ (Some 0%nat) 0 0%nat.

(** The reader of the control stream accepts a GOAWAY with id 4 while the
    call waits for the handshake, which then completes. *)
Definition lateGoawayEnv : roundTripEnv :=
  mkRoundTripEnv (fun _ => "example.com:443"%string) (fun e => e) None
    [ActControlFrame (Ok (goawayFrame 4))] true false None (Ok 0) sampleIO [] false [] [].

(** * Properties *)

(** ** Contexts: cancellation is monotone *)

Lemma ctxErr_markCanceled e k r :
  ctx_err r <> None -> markCanceled e k r = r.
Proof.
  unfold markCanceled. destruct (ctx_err r); [reflexivity | congruence].
Qed.

Lemma ctx_err_markCanceled_done e k r : ctx_err (markCanceled e k r) <> None.
Proof.
  unfold markCanceled. destruct (ctx_err r) eqn:E; simpl; congruence.
Qed.

Lemma length_cancelCtx h e k s : length (cancelCtx h e k s) = length s.
Proof.
  unfold cancelCtx. destruct (ctxErr s h); [reflexivity | apply length_imap].
Qed.

Lemma ctxErr_cancelCtx_keeps h e k s h' x :
  ctxErr s h' = Some x -> ctxErr (cancelCtx h e k s) h' = Some x.
Proof.
  unfold cancelCtx. destruct (ctxErr s h) eqn:E; [auto |].
  unfold ctxErr. rewrite list_lookup_imap.
  destruct (s !! h') as [r |] eqn:Hr; simpl; [| discriminate].
  intros Hx. destruct (Nat.eqb h' h || isChildOf h r); [| exact Hx].
  rewrite ctxErr_markCanceled; [exact Hx | congruence].
Qed.

Lemma ctxCause_cancelCtx_keeps h e k s h' x :
  ctxErr s h' = Some x -> ctxCause (cancelCtx h e k s) h' = ctxCause s h'.
Proof.
  unfold cancelCtx. destruct (ctxErr s h) eqn:E; [auto |].
  unfold ctxErr, ctxCause. rewrite list_lookup_imap.
  destruct (s !! h') as [r |] eqn:Hr; simpl; [| discriminate].
  intros Hx. destruct (Nat.eqb h' h || isChildOf h r); [| reflexivity].
  rewrite ctxErr_markCanceled; [reflexivity | congruence].
Qed.

Lemma ctxErr_cancelCtx_done h e k s :
  (h < length s)%nat -> ctxErr (cancelCtx h e k s) h <> None.
Proof.
  intros Hlt. unfold cancelCtx. destruct (ctxErr s h) eqn:E.
  - rewrite E. discriminate.
  - unfold ctxErr. rewrite list_lookup_imap.
    destruct (lookup_lt_is_Some_2 s h Hlt) as [r Hr]. rewrite Hr. simpl.
    rewrite Nat.eqb_refl. simpl. apply ctx_err_markCanceled_done.
Qed.

(** ** The control-stream loop *)

Lemma w_client_cancelFrom G l w :
  w_client (foldl (cancelFrom G) w l) = w_client w.
Proof.
  revert w. induction l as [| e l IH]; intros w; simpl; [reflexivity |].
  rewrite IH. unfold cancelFrom. destruct (fst e >=? G); reflexivity.
Qed.

Lemma w_trace_cancelFrom G l w :
  w_trace (foldl (cancelFrom G) w l) = w_trace w ++ cancelEvents G l.
Proof.
  revert w. induction l as [| e l IH]; intros w; simpl.
  - now rewrite app_nil_r.
  - rewrite IH. unfold cancelFrom. destruct (fst e >=? G); simpl.
    + now rewrite <- app_assoc.
    + reflexivity.
Qed.

Lemma length_ctxs_callCancel h c w :
  length (w_ctxs (callCancel h c w)) = length (w_ctxs w).
Proof. simpl. apply length_cancelCtx. Qed.

Lemma ctxErr_cancelFrom_keeps G l w h x :
  ctxErr (w_ctxs w) h = Some x -> ctxErr (w_ctxs (foldl (cancelFrom G) w l)) h = Some x.
Proof.
  revert w. induction l as [| e l IH]; intros w Hx; simpl; [exact Hx |].
  apply IH. unfold cancelFrom. destruct (fst e >=? G); [| exact Hx].
  simpl. now apply ctxErr_cancelCtx_keeps.
Qed.

Lemma ctxErr_cancelFrom_done G l w id h :
  In (id, h) l -> G <= id -> (h < length (w_ctxs w))%nat ->
  ctxErr (w_ctxs (foldl (cancelFrom G) w l)) h <> None.
Proof.
  revert w. induction l as [| e l IH]; intros w Hin HG Hlt; simpl; [destruct Hin |].
  destruct Hin as [-> | Hin].
  - unfold cancelFrom at 2. simpl.
    destruct (id >=? G) eqn:E; [| lia].
    pose proof (ctxErr_cancelCtx_done h ctxCanceled errGoaway (w_ctxs w) Hlt) as Hd.
    destruct (ctxErr (cancelCtx h ctxCanceled errGoaway (w_ctxs w)) h) as [x |] eqn:Ex;
      [| congruence].
    erewrite ctxErr_cancelFrom_keeps; [discriminate |]. simpl. exact Ex.
  - apply IH; [exact Hin | exact HG |].
    unfold cancelFrom. destruct (fst e >=? G); [| exact Hlt].
    now rewrite length_ctxs_callCancel.
Qed.

Lemma in_cancelEvents G l h c :
  In (EvCancel h c) (cancelEvents G l) <->
  c = Some errGoaway /\ exists id, In (id, h) l /\ G <= id.
Proof.
  unfold cancelEvents. rewrite in_flat_map. split.
  - intros [[id h'] [Hin Hev]]. simpl in Hev.
    destruct (id >=? G) eqn:E; [| destruct Hev].
    destruct Hev as [Hev | []]. inversion Hev; subst.
    split; [reflexivity |]. exists id. split; [exact Hin | lia].
  - intros [-> [id [Hin HG]]]. exists (id, h). split; [exact Hin |]. simpl.
    destruct (id >=? G) eqn:E; [now left | lia].
Qed.

(** What an accepted GOAWAY frame does. *)
Lemma controlStep_goaway lastID G w w' :
  controlStep lastID (Ok (goawayFrame G)) w = Continue w' ->
  goawayInvalid (w_client w) lastID G = false /\
  w' = foldl (cancelFrom G) (setClient (storeReceivedGoaway true (w_client w)) w)
         (map_to_list (runningCtx (w_client w))).
Proof.
  unfold controlStep. destruct (goawayInvalid (w_client w) lastID G); [discriminate |].
  intros H. inversion H. split; reflexivity.
Qed.

Lemma goawayInvalid_false c lastID G :
  goawayInvalid c lastID G = false ->
  0 <= G /\ (4 | G) /\ (receivedGoaway c = true -> G <= lastID).
Proof.
  unfold goawayInvalid. intros H.
  apply orb_false_iff in H as [H H3]. apply orb_false_iff in H as [H1 H2].
  apply negb_false_iff in H2. apply Z.eqb_eq in H2.
  split; [lia |]. split.
  - apply Z.rem_divide; [lia | exact H2].
  - intros Hf. rewrite Hf in H3. simpl in H3. lia.
Qed.

Lemma goawayInvalid_true c lastID G :
  G < 0 \/ ~ (4 | G) \/ (receivedGoaway c = true /\ lastID < G) ->
  goawayInvalid c lastID G = true.
Proof.
  unfold goawayInvalid. intros [H | [H | [H1 H2]]].
  - replace (G <? 0) with true by lia. reflexivity.
  - destruct (Z.rem G 4 =? 0) eqn:E.
    + apply Z.eqb_eq in E. apply Z.rem_divide in E; [contradiction | lia].
    + simpl. now rewrite orb_true_r.
  - rewrite H1. replace (G >? lastID) with true by lia. simpl.
    now rewrite orb_true_r.
Qed.

Lemma controlStep_keeps_flag lastID r w w' :
  controlStep lastID r w = Continue w' ->
  receivedGoaway (w_client w) = true -> receivedGoaway (w_client w') = true.
Proof.
  destruct r as [[L | L | D O | G] | e]; simpl; try (intros H; inversion H; subst; auto; fail).
  intros H _. apply controlStep_goaway in H as [_ ->].
  now rewrite w_client_cancelFrom.
Qed.

Lemma controlStep_sets_flag lastID G w w' :
  controlStep lastID (Ok (goawayFrame G)) w = Continue w' ->
  receivedGoaway (w_client w') = true.
Proof.
  intros H. apply controlStep_goaway in H as [_ ->].
  now rewrite w_client_cancelFrom.
Qed.

Lemma accepted_valid rs : forall lastID w,
  Forall (fun id => 0 <= id /\ (4 | id)) (acceptedGoaways lastID rs w).
Proof.
  induction rs as [| r rs IH]; intros lastID w; simpl; [constructor |].
  destruct (controlStep lastID r w) as [w' | w' why] eqn:E; [| constructor].
  apply Forall_app. split; [| apply IH].
  destruct r as [[L | L | D O | G] | e]; simpl; try constructor; [| constructor].
  apply controlStep_goaway in E as [E _].
  apply goawayInvalid_false in E. tauto.
Qed.

Lemma accepted_below_lastID rs : forall lastID w,
  receivedGoaway (w_client w) = true ->
  Forall (fun id => id <= lastID) (acceptedGoaways lastID rs w).
Proof.
  induction rs as [| r rs IH]; intros lastID w Hf; simpl; [constructor |].
  destruct (controlStep lastID r w) as [w' | w' why] eqn:E; [| constructor].
  apply Forall_app. split.
  - destruct r as [[L | L | D O | G] | e]; simpl; try constructor; [| constructor].
    apply controlStep_goaway in E as [E _].
    apply goawayInvalid_false in E. tauto.
  - apply IH. eapply controlStep_keeps_flag; eauto.
Qed.

Lemma accepted_adjacent rs : forall lastID w pre prev next post,
  lastID <= 0 ->
  acceptedGoaways lastID rs w = pre ++ prev :: next :: post ->
  next <= prev.
Proof.
  induction rs as [| r rs IH]; intros lastID w pre prev next post Hl; simpl.
  - destruct pre; discriminate.
  - destruct (controlStep lastID r w) as [w' | w' why] eqn:E;
      [| destruct pre; discriminate].
    destruct (goawayID r) as [| G gs] eqn:Er; simpl.
    + eapply IH; eauto.
    + assert (r = Ok (goawayFrame G) /\ gs = []) as [-> ->].
      { destruct r as [[L | L | D O | G'] | e]; simpl in Er; try discriminate.
        inversion Er; subst. split; reflexivity. }
      simpl. destruct pre as [| p pre]; simpl; intros Heq.
      * inversion Heq as [[H1 H2]]. subst prev.
        pose proof (accepted_below_lastID rs lastID w'
                      (controlStep_sets_flag _ _ _ _ E)) as Hb.
        rewrite H2 in Hb. inversion Hb as [| ? ? Hn _]; subst.
        apply controlStep_goaway in E as [E _].
        apply goawayInvalid_false in E. lia.
      * inversion Heq as [[H1 H2]]. eapply IH; eauto.
Qed.

Lemma controlLoop_app lastID pre : forall w w1 r post,
  controlPrefix lastID pre w = Some w1 ->
  controlLoop lastID (pre ++ r :: post) w = controlLoop lastID (r :: post) w1.
Proof.
  induction pre as [| p pre IH]; intros w w1 r post; simpl.
  - intros H. inversion H. reflexivity.
  - destruct (controlStep lastID p w) as [w' | w' why]; [| discriminate].
    intros H. now apply IH.
Qed.

Lemma controlPrefix_flag lastID pre : forall w w1,
  controlPrefix lastID pre w = Some w1 ->
  (receivedGoaway (w_client w) = true \/ acceptedGoaways lastID pre w <> []) ->
  receivedGoaway (w_client w1) = true.
Proof.
  induction pre as [| p pre IH]; intros w w1; simpl.
  - intros H [Hf | Hn]; [inversion H; subst; exact Hf | congruence].
  - destruct (controlStep lastID p w) as [w' | w' why] eqn:E; [| discriminate].
    intros H Hor. apply (IH w' w1 H).
    destruct Hor as [Hf | Hn].
    + left. eapply controlStep_keeps_flag; eauto.
    + destruct p as [[L | L | D O | G] | e]; simpl in Hn;
        try (right; exact Hn).
      left. eapply controlStep_sets_flag; eauto.
Qed.

(** C1.  The GOAWAY fence of [readControlStream], for every sequence of
    parse results on the control stream and every state of the client.
    Every accepted GOAWAY id is non-negative and a multiple of 4, and an
    accepted id is never greater than the id accepted before it.  A GOAWAY
    frame the loop reaches whose id is negative, or not a multiple of 4, or
    greater than the last accepted id, makes the loop close the connection
    with [ErrCodeIDError] and return, leaving the rest of the stream unread. *)
Theorem readControlStream_goaway_fence :
  forall (rs : list (res frame)) (w : world),
    Forall (fun id => 0 <= id /\ (4 | id)) (acceptedGoaways 0 rs w) /\
    (forall pre prev next post,
        acceptedGoaways 0 rs w = pre ++ prev :: next :: post -> next <= prev) /\
    (forall pre ID post w1,
        rs = pre ++ Ok (goawayFrame ID) :: post ->
        controlPrefix 0 pre w = Some w1 ->
        (ID < 0 \/ ~ (4 | ID) \/
         exists prev, last (acceptedGoaways 0 pre w) = Some prev /\ prev < ID) ->
        readControlStream rs w
        = (emit (EvConnClose ErrCodeIDError None) w1, ExitIDError, post)).
Proof.
  intros rs w. split; [apply accepted_valid |].
  split; [intros pre prev next post; apply accepted_adjacent; lia |].
  intros pre ID post w1 -> Hpre Hbad.
  unfold readControlStream. rewrite (controlLoop_app _ _ _ _ _ _ Hpre). simpl.
  rewrite goawayInvalid_true; [reflexivity |].
  destruct Hbad as [H | [H | [prev [Hlast Hlt]]]]; [now left | now right; left |].
  right; right. split.
  - apply (controlPrefix_flag _ _ _ _ Hpre). right.
    intros Hnil. rewrite Hnil in Hlast. discriminate.
  - pose proof (accepted_valid pre 0 w) as Hv.
    apply last_Some in Hlast as [l' Hl']. rewrite Hl' in Hv.
    apply Forall_app in Hv as [_ Hv]. inversion Hv; subst. lia.
Qed.

(** C2.  When the loop accepts a GOAWAY frame with id [G], the calls it
    makes are [cancel(errGoaway)] calls on handles of the registry, and the
    handle of a registered request is called if and only if the stream id
    of the request is [G] or more; the context of a request that was called
    is done afterwards.  Requests with a smaller stream id get no call. *)
Theorem goaway_cancels_from_id :
  forall (lastID G : StreamID) (w w' : world),
    controlStep lastID (Ok (goawayFrame G)) w = Continue w' ->
    registryInjective (runningCtx (w_client w)) ->
    exists evs,
      w_trace w' = w_trace w ++ evs /\
      (forall id h, runningCtx (w_client w) !! id = Some h ->
         (In (EvCancel h (Some errGoaway)) evs <-> G <= id)) /\
      (forall e, In e evs ->
         exists id h, e = EvCancel h (Some errGoaway) /\
                      runningCtx (w_client w) !! id = Some h /\ G <= id) /\
      (forall id h, runningCtx (w_client w) !! id = Some h -> G <= id ->
         (h < length (w_ctxs w))%nat -> ctxErr (w_ctxs w') h <> None).
Proof.
  intros lastID G w w' Hstep Hinj.
  apply controlStep_goaway in Hstep as [_ ->].
  exists (cancelEvents G (map_to_list (runningCtx (w_client w)))).
  split; [now rewrite w_trace_cancelFrom |].
  split; [| split].
  - intros id h Hreg. rewrite in_cancelEvents. split.
    + intros [_ [id' [Hin HG]]].
      apply list_elem_of_In, elem_of_map_to_list in Hin.
      now rewrite (Hinj id id' h Hreg Hin).
    + intros HG. split; [reflexivity |]. exists id. split; [| exact HG].
      now apply list_elem_of_In, elem_of_map_to_list.
  - intros e Hin. unfold cancelEvents in Hin. apply in_flat_map in Hin.
    destruct Hin as [[id h] [Hin He]]. simpl in He.
    destruct (id >=? G) eqn:E; [| destruct He].
    destruct He as [<- | []]. exists id, h.
    split; [reflexivity |]. split; [| lia].
    now apply list_elem_of_In, elem_of_map_to_list in Hin.
  - intros id h Hreg HG Hlt.
    apply (ctxErr_cancelFrom_done G _ _ id h); [| exact HG | exact Hlt].
    now apply list_elem_of_In, elem_of_map_to_list.
Qed.

Lemma readControlStream_goaway_fence_witness :
  readControlStream [Ok (goawayFrame 8); Ok (goawayFrame 12); Ok (goawayFrame 0)] sampleWorld
  = (emit (EvConnClose ErrCodeIDError None)
       (setClient (storeReceivedGoaway true sampleClient) sampleWorld),
     ExitIDError, [Ok (goawayFrame 0)]).
Proof.
  destruct (readControlStream_goaway_fence
              [Ok (goawayFrame 8); Ok (goawayFrame 12); Ok (goawayFrame 0)] sampleWorld)
    as (_ & _ & H).
  apply (H [Ok (goawayFrame 8)] 12 [Ok (goawayFrame 0)]
           (setClient (storeReceivedGoaway true sampleClient) sampleWorld)).
  - reflexivity.
  - reflexivity.
  - right; right. exists 8. split; [reflexivity | lia].
Defined.

(** The fence is stricter than the claim asks for: [lastID] stays 0, so once
    a GOAWAY was accepted only the id 0 passes, and a smaller id that is
    not 0 is refused like a greater one. *)
Example goaway_8_then_4_refused :
  readControlStream [Ok (goawayFrame 8); Ok (goawayFrame 4)] sampleWorld
  = (emit (EvConnClose ErrCodeIDError None)
       (setClient (storeReceivedGoaway true sampleClient) sampleWorld),
     ExitIDError, []).
Proof. reflexivity. Qed.

Example goaway_8_then_0_accepted :
  acceptedGoaways 0 [Ok (goawayFrame 8); Ok (goawayFrame 0)] sampleWorld = [8; 0].
Proof. reflexivity. Qed.

Lemma busyWorld_injective : registryInjective (runningCtx (w_client busyWorld)).
Proof.
  intros i j h Hi Hj.
  apply elem_of_map_to_list, list_elem_of_In in Hi.
  apply elem_of_map_to_list, list_elem_of_In in Hj.
  vm_compute in Hi, Hj.
  repeat match goal with
         | H : _ \/ _ |- _ => destruct H
         | H : False |- _ => destruct H
         | H : (_, _) = (_, _) |- _ => inversion H; clear H; subst
         end; try reflexivity; discriminate.
Defined.

Lemma goaway_cancels_from_id_witness :
  exists w',
    controlStep 0 (Ok (goawayFrame 4)) busyWorld = Continue w' /\
    In (EvCancel 2%nat (Some errGoaway)) (w_trace w') /\
    In (EvCancel 3%nat (Some errGoaway)) (w_trace w') /\
    ~ In (EvCancel 1%nat (Some errGoaway)) (w_trace w').
Proof.
  destruct (controlStep 0 (Ok (goawayFrame 4)) busyWorld) as [w' | w' why] eqn:E;
    [| vm_compute in E; discriminate].
  exists w'. split; [reflexivity |].
  destruct (goaway_cancels_from_id 0 4 busyWorld w' E busyWorld_injective)
    as (evs & Htr & Hiff & _).
  rewrite Htr. simpl.
  split; [| split].
  - apply (Hiff 4 2%nat); [reflexivity | lia].
  - apply (Hiff 8 3%nat); [reflexivity | lia].
  - intros Hin. apply (Hiff 0 1%nat) in Hin; [lia | reflexivity].
Defined.

(** ** What a call adds to the trace *)

Lemma extends_refl Q w : extends Q w w.
Proof. exists []. split; [now rewrite app_nil_r | constructor]. Qed.

Lemma extends_same Q w w' : w_trace w' = w_trace w -> extends Q w w'.
Proof. intros H. exists []. split; [now rewrite app_nil_r | constructor]. Qed.

Lemma extends_trans Q w1 w2 w3 :
  extends Q w1 w2 -> extends Q w2 w3 -> extends Q w1 w3.
Proof.
  intros [e1 [H1 F1]] [e2 [H2 F2]]. exists (e1 ++ e2). split.
  - now rewrite H2, H1, app_assoc.
  - apply Forall_app. now split.
Qed.

Lemma extends_emit (Q : event -> Prop) e w : Q e -> extends Q w (emit e w).
Proof. intros H. exists [e]. split; [reflexivity | now repeat constructor]. Qed.

Lemma extends_weaken (Q Q' : event -> Prop) w w' :
  (forall e, Q e -> Q' e) -> extends Q w w' -> extends Q' w w'.
Proof.
  intros HQ [evs [H F]]. exists evs. split; [exact H |].
  eapply Forall_impl; eauto.
Qed.

Lemma extends_in Q w w' e :
  extends Q w w' -> In e (w_trace w') -> In e (w_trace w) \/ Q e.
Proof.
  intros [evs [H F]] Hin. rewrite H in Hin. apply in_app_or in Hin.
  destruct Hin as [Hin | Hin]; [now left | right].
  rewrite Forall_forall in F. apply F. now apply list_elem_of_In.
Qed.

Lemma w_reqs_cancelFrom G l w : w_reqs (foldl (cancelFrom G) w l) = w_reqs w.
Proof.
  revert w. induction l as [| e l IH]; intros w; simpl; [reflexivity |].
  rewrite IH. unfold cancelFrom. destruct (fst e >=? G); reflexivity.
Qed.

Lemma length_ctxs_cancelFrom G l w :
  length (w_ctxs (foldl (cancelFrom G) w l)) = length (w_ctxs w).
Proof.
  revert w. induction l as [| e l IH]; intros w; simpl; [reflexivity |].
  rewrite IH. unfold cancelFrom. destruct (fst e >=? G); [| reflexivity].
  apply length_ctxs_callCancel.
Qed.

Lemma ctxCause_cancelFrom_keeps G l w h x :
  ctxErr (w_ctxs w) h = Some x ->
  ctxCause (w_ctxs (foldl (cancelFrom G) w l)) h = ctxCause (w_ctxs w) h.
Proof.
  revert w. induction l as [| e l IH]; intros w Hx; simpl; [reflexivity |].
  unfold cancelFrom at 2. destruct (fst e >=? G); [| now apply IH].
  rewrite IH; simpl.
  - eapply ctxCause_cancelCtx_keeps; eauto.
  - now apply ctxErr_cancelCtx_keeps.
Qed.

Lemma cancelEvents_control G l : Forall controlEvent (cancelEvents G l).
Proof.
  apply Forall_forall. intros e He. apply list_elem_of_In in He.
  unfold cancelEvents in He. apply in_flat_map in He as [x [_ He]].
  destruct (fst x >=? G); [| destruct He].
  destruct He as [<- | []]. exact I.
Qed.

(** One iteration of the control-stream loop leaves the requests alone,
    keeps the contexts that are done as they are, and adds events of the
    control-stream reader only. *)
Lemma controlStep_frame lastID r w :
  let w' := stepWorld (controlStep lastID r w) in
  w_reqs w' = w_reqs w /\
  length (w_ctxs w') = length (w_ctxs w) /\
  (forall h x, ctxErr (w_ctxs w) h = Some x ->
     ctxErr (w_ctxs w') h = Some x /\ ctxCause (w_ctxs w') h = ctxCause (w_ctxs w) h) /\
  extends controlEvent w w'.
Proof.
  destruct r as [[L | L | D O | G] | e]; simpl;
    try (repeat split; auto; apply extends_emit; exact I).
  destruct (goawayInvalid (w_client w) lastID G); simpl.
  - repeat split; auto. apply extends_emit. exact I.
  - split; [now rewrite w_reqs_cancelFrom |].
    split; [now rewrite length_ctxs_cancelFrom |].
    split.
    + intros h x Hx. split.
      * now apply ctxErr_cancelFrom_keeps.
      * erewrite ctxCause_cancelFrom_keeps; [reflexivity | exact Hx].
    + exists (cancelEvents G (map_to_list (runningCtx (w_client w)))).
      split; [now rewrite w_trace_cancelFrom | apply cancelEvents_control].
Qed.

Lemma applyAction_frame w a :
  let w' := applyAction w a in
  w_reqs w' = w_reqs w /\
  length (w_ctxs w') = length (w_ctxs w) /\
  (forall h x, ctxErr (w_ctxs w) h = Some x ->
     ctxErr (w_ctxs w') h = Some x /\ ctxCause (w_ctxs w') h = ctxCause (w_ctxs w) h) /\
  extends controlEvent w w'.
Proof.
  destruct a as [h e | r]; simpl.
  - split; [reflexivity |]. split; [apply length_cancelCtx |].
    split; [| now apply extends_same].
    intros h' x Hx. split.
    + now apply ctxErr_cancelCtx_keeps.
    + eapply ctxCause_cancelCtx_keeps; eauto.
  - destruct (w_ctrlStopped w).
    + repeat split; auto. apply extends_refl.
    + pose proof (controlStep_frame 0 r w) as H. simpl in H.
      destruct (controlStep 0 r w) as [w' | w' why]; simpl in *; exact H.
Qed.

Lemma applyActions_frame acts : forall w,
  let w' := applyActions acts w in
  w_reqs w' = w_reqs w /\
  length (w_ctxs w') = length (w_ctxs w) /\
  (forall h x, ctxErr (w_ctxs w) h = Some x ->
     ctxErr (w_ctxs w') h = Some x /\ ctxCause (w_ctxs w') h = ctxCause (w_ctxs w) h) /\
  extends controlEvent w w'.
Proof.
  induction acts as [| a acts IH]; intros w; simpl.
  - repeat split; auto. apply extends_refl.
  - destruct (applyAction_frame w a) as (R1 & L1 & K1 & E1).
    destruct (IH (applyAction w a)) as (R2 & L2 & K2 & E2).
    unfold applyActions in *. simpl in *.
    split; [congruence |]. split; [congruence |]. split.
    + intros h x Hx. destruct (K1 h x Hx) as [Ka Kb].
      destruct (K2 h x Ka) as [Kc Kd]. split; congruence.
    + eapply extends_trans; eauto.
Qed.

(** ** [RoundTripOpt] after a GOAWAY *)

(** C3, as stated, fails: after a GOAWAY a call whose request context is
    canceled returns [context.Canceled], not the goaway error (line 255). *)
Lemma RoundTripOpt_after_goaway_canceled_caller :
  receivedGoaway (w_client goawayCanceledWorld) = true /\
  RoundTripOpt sampleEnv 0 sampleOptions goawayCanceledWorld
  = Returns None (Some ctxCanceled) goawayCanceledWorld /\
  ~ (exists rsp w',
        RoundTripOpt sampleEnv 0 sampleOptions goawayCanceledWorld
        = Returns rsp (Some errGoaway) w').
Proof.
  split; [reflexivity |]. split; [reflexivity |].
  intros (rsp & w' & H). vm_compute in H. discriminate.
Qed.

(** C3, amended.  After a GOAWAY was received, a call for a request of the
    client's authority on a client whose connection is up opens no stream:
    [roundTripOpt] returns the goaway error and leaves the world as it was.
    [RoundTripOpt] returns that error unless the caller's request context
    is done, in which case it returns the error of that context. *)
Theorem RoundTripOpt_after_goaway :
  forall (env : roundTripEnv) (reqp : nat) (req : Request)
         (opt : roundTripOptions) (w : world),
    w_reqs w !! reqp = Some req ->
    authorityOfRequest env req = hostname (w_client w) ->
    dialed (w_client w) = true ->
    handshakeErr (w_client w) = None ->
    receivedGoaway (w_client w) = true ->
    let w' := applyActions (beforeReturn env) w in
    roundTripOpt env reqp opt w = Returns None (Some errGoaway) w /\
    RoundTripOpt env reqp opt w
    = Returns None (Some (default errGoaway (ctxErr (w_ctxs w') (Ctx req)))) w' /\
    (forall r, In (EvOpenStream r) (w_trace w') -> In (EvOpenStream r) (w_trace w)).
Proof.
  intros env reqp req opt w Hreq Hauth Hdial Hhs Hga w'.
  assert (Hrt : roundTripOpt env reqp opt w = Returns None (Some errGoaway) w).
  { unfold roundTripOpt. rewrite Hreq.
    apply String.eqb_eq in Hauth. rewrite Hauth. simpl.
    unfold dialOnce. rewrite Hdial, Hhs, Hga. reflexivity. }
  destruct (applyActions_frame (beforeReturn env) w) as (HR & _ & _ & HE).
  fold w' in HR, HE.
  split; [exact Hrt |]. split.
  - unfold RoundTripOpt. rewrite Hrt. fold w'. rewrite HR, Hreq.
    destruct (ctxErr (w_ctxs w') (Ctx req)); reflexivity.
  - intros r Hin. destruct (extends_in _ _ _ _ HE Hin) as [H | H]; [exact H | destruct H].
Qed.

Lemma RoundTripOpt_after_goaway_witness :
  RoundTripOpt sampleEnv 0 sampleOptions
    (setClient (storeReceivedGoaway true sampleClient) sampleWorld)
  = Returns None (Some errGoaway)
      (setClient (storeReceivedGoaway true sampleClient) sampleWorld).
Proof.
  apply (RoundTripOpt_after_goaway sampleEnv 0 sampleRequest sampleOptions
           (setClient (storeReceivedGoaway true sampleClient) sampleWorld));
    reflexivity.
Defined.

(** ** The request on its stream *)

Lemma controlEvent_requestEvent req e : controlEvent e -> requestEvent req e.
Proof. destruct e; simpl; tauto. Qed.

Lemma doRequest_spec io reqp req str opt reqDone w rsp rerr w' :
  doRequest io reqp req str opt reqDone w = (rsp, rerr, w') ->
  w_client w' = w_client w /\ w_ctxs w' = w_ctxs w /\ w_reqs w' = w_reqs w /\
  w_ctrlStopped w' = w_ctrlStopped w /\
  extends (requestEvent req) w w' /\
  In (EvWriteRequestHeader str req (requestGzip (w_client w) req)) (w_trace w').
Proof.
  unfold doRequest.
  set (e0 := EvWriteRequestHeader str req (requestGzip (w_client w) req)).
  assert (H0 : extends (requestEvent req) w (emit e0 w))
    by (apply extends_emit; reflexivity).
  destruct (writeRequestHeader io).
  - intros H. inversion H; subst. repeat split; auto.
    simpl. apply in_or_app. right. now left.
  - set (w1 := match Body req with
               | Some body => _
               | None => _
               end).
    assert (H1 : w_client w1 = w_client w /\ w_ctxs w1 = w_ctxs w /\
                 w_reqs w1 = w_reqs w /\ w_ctrlStopped w1 = w_ctrlStopped w /\
                 extends (requestEvent req) (emit e0 w) w1).
    { subst w1. destruct (Body req); [| destruct (DontCloseRequestStream opt)];
        repeat split; auto; try (apply extends_emit; exact I); apply extends_refl. }
    destruct H1 as (C1 & C2 & C3 & C4 & E1).
    destruct (receiveResponse io (w_client (emit (EvParseFrame str) w1)) reqp req
                (requestGzip (w_client w) req) str reqDone) as [rsp0 rerr0].
    intros H. inversion H; subst. simpl.
    repeat split; auto.
    + eapply extends_trans; [exact H0 |].
      eapply extends_trans; [exact E1 |]. apply extends_emit. exact I.
    + destruct E1 as [evs [-> _]]. simpl.
      apply in_or_app. left. apply in_or_app. left. apply in_or_app. right. now left.
Qed.

Lemma ctxErr_app_l s t h x : ctxErr s h = Some x -> ctxErr (s ++ t) h = Some x.
Proof.
  unfold ctxErr. destruct (s !! h) as [r |] eqn:E; [| discriminate].
  now rewrite (lookup_app_l_Some _ t _ _ E).
Qed.

Lemma ctxCause_app_l s t h x : ctxErr s h = Some x -> ctxCause (s ++ t) h = ctxCause s h.
Proof.
  unfold ctxErr, ctxCause. destruct (s !! h) as [r |] eqn:E; [| discriminate].
  now rewrite (lookup_app_l_Some _ t _ _ E).
Qed.

(** A [cancel(nil)] on a context that is not done records
    [context.Canceled] as its cause. *)
Lemma cancelCause_nil_fresh h s :
  (h < length s)%nat -> ctxErr s h = None ->
  ctxErr (cancelCause h None s) h = Some ctxCanceled /\
  ctxCause (cancelCause h None s) h = Some ctxCanceled.
Proof.
  intros Hlt Hn. unfold cancelCause, cancelCtx. rewrite Hn.
  unfold ctxErr, ctxCause in *. rewrite list_lookup_imap.
  destruct (lookup_lt_is_Some_2 s h Hlt) as [r Hr]. rewrite Hr in *. simpl.
  rewrite Nat.eqb_refl. simpl. unfold markCanceled. rewrite Hn. simpl. auto.
Qed.

Lemma deferredCleanup_frame id cancel w :
  let w' := deferredCleanup id cancel w in
  w_reqs w' = w_reqs w /\
  length (w_ctxs w') = length (w_ctxs w) /\
  (forall h x, ctxErr (w_ctxs w) h = Some x ->
     ctxErr (w_ctxs w') h = Some x /\ ctxCause (w_ctxs w') h = ctxCause (w_ctxs w) h) /\
  extends controlEvent w w'.
Proof.
  simpl. split; [reflexivity |]. split; [apply length_cancelCtx |]. split.
  - intros h x Hx. split.
    + now apply ctxErr_cancelCtx_keeps.
    + eapply ctxCause_cancelCtx_keeps; eauto.
  - exists [EvCancel cancel None]. split; [reflexivity | now repeat constructor].
Qed.

Lemma returnDeferred_frame env id cancel w :
  let w' := returnDeferred env id cancel w in
  w_reqs w' = w_reqs w /\
  length (w_ctxs w') = length (w_ctxs w) /\
  (forall h x, ctxErr (w_ctxs w) h = Some x ->
     ctxErr (w_ctxs w') h = Some x /\ ctxCause (w_ctxs w') h = ctxCause (w_ctxs w) h) /\
  extends controlEvent w w'.
Proof.
  unfold returnDeferred.
  destruct (applyActions_frame (beforeCleanup env) w) as (R1 & L1 & K1 & E1).
  destruct (deferredCleanup_frame id cancel (applyActions (beforeCleanup env) w))
    as (R2 & L2 & K2 & E2).
  cbv zeta. split; [congruence |]. split; [congruence |]. split.
  - intros h x Hx. destruct (K1 h x Hx) as [Ka Kb].
    destruct (K2 h x Ka) as [Kc Kd]. split; congruence.
  - eapply extends_trans; eauto.
Qed.

Lemma returnDeferred_quiet env id cancel w :
  beforeCleanup env = [] -> returnDeferred env id cancel w = deferredCleanup id cancel w.
Proof. intros H. unfold returnDeferred. now rewrite H. Qed.

Lemma joinCancelWatcher_frame env c str w req :
  let w' := joinCancelWatcher env c str w in
  w_reqs w' = w_reqs w /\ w_ctxs w' = w_ctxs w /\ w_client w' = w_client w /\
  extends (requestEvent req) w w'.
Proof.
  unfold joinCancelWatcher.
  destruct (ctxErr (w_ctxs w) c); [destruct (watcherSawCancel env) |];
    repeat split; auto; try apply extends_refl.
  eapply extends_trans; apply extends_emit; exact I.
Qed.

Lemma extends_mono Q w w' e : extends Q w w' -> In e (w_trace w) -> In e (w_trace w').
Proof.
  intros [evs [-> _]] H. apply in_or_app. now left.
Qed.

Lemma isGoaway_true c : isGoaway c = true <-> c = Some errGoaway.
Proof.
  destruct c as [[] |]; simpl; split; intros H; try discriminate; auto.
Qed.

(** [requestOnStream] returns; it derives one context, whose handle is the
    size of the store before the call, and that context is done when the
    call returns; the request it sends is [req]; and when nothing happens
    between the return statement and the deferred function, and it fails
    while the goaway error is the cause recorded in the derived context, the
    error it returns is the goaway error. *)
Lemma requestOnStream_spec env reqp req opt str w :
  exists rsp err w',
    requestOnStream env reqp req opt str w = Returns rsp err w' /\
    w_reqs w' = w_reqs w /\
    length (w_ctxs w') = S (length (w_ctxs w)) /\
    (exists x, ctxErr (w_ctxs w') (length (w_ctxs w)) = Some x) /\
    (forall h x, ctxErr (w_ctxs w) h = Some x -> ctxErr (w_ctxs w') h = Some x) /\
    extends (requestEvent req) w w' /\
    In (EvWriteRequestHeader str req (requestGzip (w_client w) req)) (w_trace w') /\
    (forall e, beforeCleanup env = [] -> err = Some e ->
       ctxCause (w_ctxs w') (length (w_ctxs w)) = Some errGoaway -> e = errGoaway).
Proof.
  unfold requestOnStream, registerContext, withCancelCause.
  set (ctx := length (w_ctxs w)).
  set (s := w_ctxs w ++ [mkCtx (Some (Ctx req)) (ctxErr (w_ctxs w) (Ctx req))
                           (ctxCause (w_ctxs w) (Ctx req))]).
  set (w0 := emit (EvGo (goCancelWatcher (Ctx req) str)) _).
  assert (F0 : w_reqs w0 = w_reqs w /\ w_ctxs w0 = s /\
               extends (requestEvent req) w w0).
  { subst w0. repeat split.
    exists [EvGo (goGoawayWatcher ctx str); EvGo (goCancelWatcher (Ctx req) str)].
    split; [simpl; now rewrite <- app_assoc | repeat constructor]. }
  destruct F0 as (R0 & C0 & E0).
  assert (G0 : requestGzip (w_client w0) req = requestGzip (w_client w) req)
    by reflexivity.
  destruct (doRequest (requestIO env) reqp req str opt
              (negb (DontCloseRequestStream opt)) w0) as [[rsp rerr] w1] eqn:Hd.
  apply doRequest_spec in Hd. destruct Hd as (_ & C1 & R1 & _ & E1 & I1).
  rewrite G0 in I1.
  destruct (applyActions_frame (whileRequest env) w1) as (R2 & L2 & K2 & E2).
  set (w2 := applyActions (whileRequest env) w1) in *.
  assert (Ls : length s = S ctx).
  { subst s ctx. rewrite length_app. simpl. lia. }
  assert (Hctx : forall w5, w_ctxs w5 = w_ctxs w2 ->
            let w' := returnDeferred env str ctx w5 in
            length (w_ctxs w') = S ctx /\
            (exists x, ctxErr (w_ctxs w') ctx = Some x) /\
            (forall h x, ctxErr (w_ctxs w) h = Some x -> ctxErr (w_ctxs w') h = Some x) /\
            (beforeCleanup env = [] -> ctxCause (w_ctxs w') ctx = Some errGoaway ->
             isGoaway (ctxCause (w_ctxs w5) ctx) = true)).
  { intros w5 H5 w'.
    destruct (returnDeferred_frame env str ctx w5) as (_ & L & K & _). fold w' in L, K.
    assert (L5 : length (w_ctxs w5) = S ctx) by congruence.
    split; [congruence |]. split; [| split].
    - subst w'. unfold returnDeferred.
      destruct (applyActions_frame (beforeCleanup env) w5) as (_ & L6 & _).
      set (w6 := applyActions (beforeCleanup env) w5) in *. simpl.
      pose proof (ctxErr_cancelCtx_done ctx ctxCanceled ctxCanceled (w_ctxs w6)) as Hd.
      destruct (ctxErr (cancelCause ctx None (w_ctxs w6)) ctx) as [x |] eqn:Ex;
        [eauto |].
      exfalso. apply Hd; [lia | exact Ex].
    - intros h x Hx. apply K. rewrite H5. apply K2. rewrite C1, C0.
      subst s. now apply ctxErr_app_l.
    - intros Hq Hc. destruct (ctxErr (w_ctxs w5) ctx) as [x |] eqn:Ex.
      + destruct (K ctx x Ex) as [_ Kc]. rewrite Kc in Hc. now apply isGoaway_true.
      + subst w'. rewrite (returnDeferred_quiet env str ctx w5 Hq) in Hc. simpl in Hc.
        destruct (cancelCause_nil_fresh ctx (w_ctxs w5)) as [_ Hk]; [lia | exact Ex |].
        rewrite Hk in Hc. discriminate. }
  assert (E02 : extends (requestEvent req) w w2).
  { eapply extends_trans; [exact E0 |]. eapply extends_trans; [exact E1 |].
    eapply extends_weaken; [apply controlEvent_requestEvent | exact E2]. }
  assert (I2 : In (EvWriteRequestHeader str req (requestGzip (w_client w) req)) (w_trace w2))
    by (apply (extends_mono _ _ _ _ E2 I1)).
  assert (Hfin : forall w5, w_ctxs w5 = w_ctxs w2 -> w_reqs w5 = w_reqs w2 ->
            extends (requestEvent req) w2 w5 ->
            let w' := returnDeferred env str ctx w5 in
            w_reqs w' = w_reqs w /\ extends (requestEvent req) w w' /\
            In (EvWriteRequestHeader str req (requestGzip (w_client w) req)) (w_trace w')).
  { intros w5 H5 HR5 HE5 w'.
    destruct (returnDeferred_frame env str ctx w5) as (R & _ & _ & E). fold w' in R, E.
    assert (E' : extends (requestEvent req) w2 w').
    { eapply extends_trans; [exact HE5 |].
      eapply extends_weaken; [apply controlEvent_requestEvent | exact E]. }
    split; [congruence |]. split.
    - eapply extends_trans; [exact E02 | exact E'].
    - apply (extends_mono _ _ _ _ E' I2). }
  destruct (re_err rerr) as [e |] eqn:Ee.
  - destruct (joinCancelWatcher_frame env (Ctx req) str w2 req) as (R3 & C3 & _ & E3).
    set (w3 := joinCancelWatcher env (Ctx req) str w2) in *.
    set (w4 := if streamErr rerr =? 0 then w3 else _).
    set (w5 := if connErr rerr =? 0 then w4 else _).
    assert (F5 : w_ctxs w5 = w_ctxs w2 /\ w_reqs w5 = w_reqs w2 /\
                 extends (requestEvent req) w2 w5).
    { subst w5 w4. destruct (connErr rerr =? 0), (streamErr rerr =? 0); simpl;
        (split; [exact C3 |]; split; [exact R3 |]);
        repeat (first [exact E3 | eapply extends_trans; [| apply extends_emit; exact I]]). }
    destruct F5 as (C5 & R5 & E5).
    destruct (Hctx w5 C5) as (L & D & K & G).
    destruct (Hfin w5 C5 R5 E5) as (R & E & I).
    destruct (isGoaway (ctxCause (w_ctxs w5) ctx)) eqn:Eg.
    + eexists _, _, _. split; [reflexivity |].
      repeat (split; [assumption |]).
      intros e' _ He' _. now inversion He'.
    + eexists _, _, _. split; [reflexivity |].
      repeat (split; [assumption |]).
      intros e' Hq _ Hc. apply (G Hq) in Hc. discriminate.
  - set (w5 := if DontCloseRequestStream opt then _ else w2).
    assert (F5 : w_ctxs w5 = w_ctxs w2 /\ w_reqs w5 = w_reqs w2 /\
                 extends (requestEvent req) w2 w5).
    { subst w5. destruct (DontCloseRequestStream opt).
      - destruct (joinCancelWatcher_frame env (Ctx req) str w2 req) as (R3 & C3 & _ & E3).
        auto.
      - repeat split. apply extends_refl. }
    destruct F5 as (C5 & R5 & E5).
    destruct (Hctx w5 C5) as (L & D & K & G).
    destruct (Hfin w5 C5 R5 E5) as (R & E & I).
    eexists _, _, _. split; [reflexivity |].
    repeat (split; [assumption |]).
    intros e' _ He' _. discriminate.
Qed.

Lemma ctxCause_out_of_range s : ctxCause s (length s) = None.
Proof.
  unfold ctxCause. now rewrite (lookup_ge_None_2 s (length s)) by lia.
Qed.

Lemma callFrame_early env req w rsp err w' :
  w_reqs w' = w_reqs w -> w_ctxs w' = w_ctxs w ->
  extends (requestEvent req) w w' ->
  callFrame env req w (Returns rsp err w').
Proof.
  intros R C E. constructor; simpl; auto.
  - intros h x. now rewrite C.
  - left. now rewrite C.
  - intros rsp' e w'' _ H. inversion H; subst. rewrite C, ctxCause_out_of_range.
    discriminate.
Qed.

Lemma callFrame_blocks env req w w' :
  w_reqs w' = w_reqs w -> w_ctxs w' = w_ctxs w ->
  extends (requestEvent req) w w' ->
  callFrame env req w (Blocks w').
Proof.
  intros R C E. constructor; simpl; auto.
  - intros h x. now rewrite C.
  - left. now rewrite C.
  - intros rsp' e w'' _ H. discriminate.
Qed.

Lemma requestOnStream_frame env reqp req opt str w :
  callFrame env req w (requestOnStream env reqp req opt str w).
Proof.
  destruct (requestOnStream_spec env reqp req opt str w)
    as (rsp & err & w' & -> & R & L & D & K & E & _ & G).
  constructor; simpl; auto.
  intros rsp' e w'' Hq H. inversion H; subst. now apply G.
Qed.

Lemma callFrame_after env req w0 w o :
  w_reqs w = w_reqs w0 -> w_ctxs w = w_ctxs w0 ->
  extends (requestEvent req) w0 w ->
  callFrame env req w o -> callFrame env req w0 o.
Proof.
  intros R C E [R' D' E' L' G']. constructor.
  - congruence.
  - intros h x. rewrite <- C. apply D'.
  - eapply extends_trans; eauto.
  - now rewrite <- C.
  - intros rsp e w'. rewrite <- C. apply G'.
Qed.

Lemma settingsAndStream_frame env reqp req opt w :
  callFrame env req w (settingsAndStream env reqp req opt w).
Proof.
  unfold settingsAndStream.
  assert (Hopen : forall w1, w_reqs w1 = w_reqs w -> w_ctxs w1 = w_ctxs w ->
            extends (requestEvent req) w w1 ->
            callFrame env req w
              (let w2 := emit (EvOpenStream (openStreamSync env)) w1 in
               match openStreamSync env with
               | Ok str => requestOnStream env reqp req opt str w2
               | Err err => Returns None (Some err) w2
               end)).
  { intros w1 R C E. cbv zeta.
    assert (E2 : extends (requestEvent req) w (emit (EvOpenStream (openStreamSync env)) w1)).
    { eapply extends_trans; [exact E |]. apply extends_emit. exact I. }
    destruct (openStreamSync env) as [str | err].
    - eapply callFrame_after; [| | exact E2 | apply requestOnStream_frame]; auto.
    - apply callFrame_early; auto. }
  destruct (CheckSettings opt) as [check |].
  - assert (E1 : extends (requestEvent req) w (emit EvWaitSettings w))
      by (apply extends_emit; exact I).
    destruct (settingsArrive env) as [[settings | cause] |].
    + destruct (check settings).
      * apply callFrame_early; auto.
      * apply Hopen; auto.
    + apply callFrame_early; auto.
    + apply callFrame_blocks; auto.
  - apply Hopen; auto. apply extends_refl.
Qed.

(** With no settings check and a stream that opens, the header of [req] is
    written on that stream. *)
Lemma settingsAndStream_sends env reqp req opt w str :
  CheckSettings opt = None -> openStreamSync env = Ok str ->
  In (EvWriteRequestHeader str req (requestGzip (w_client w) req))
     (w_trace (outcomeWorld (settingsAndStream env reqp req opt w))).
Proof.
  intros Hc Ho. unfold settingsAndStream. rewrite Hc, Ho.
  set (w2 := emit _ w).
  destruct (requestOnStream_spec env reqp req opt str w2)
    as (rsp & err & w' & -> & _ & _ & _ & _ & _ & I & _).
  exact I.
Qed.

(** ** The whole call *)

Lemma requestEvent_callEvent req e : requestEvent req e -> callEvent req e.
Proof. destruct e; simpl; tauto. Qed.

Lemma controlEvent_callEvent req e : controlEvent e -> callEvent req e.
Proof. destruct e; simpl; tauto. Qed.

Lemma tripFrame_of_callFrame env reqp req w w2 o :
  w_reqs w !! reqp = Some req ->
  (w_reqs w2 = w_reqs w \/ w_reqs w2 = w_reqs w ++ [sentRequest req]) ->
  length (w_ctxs w2) = length (w_ctxs w) ->
  (forall h x, ctxErr (w_ctxs w) h = Some x -> ctxErr (w_ctxs w2) h = Some x) ->
  extends (callEvent (sentRequest req)) w w2 ->
  callFrame env (sentRequest req) w2 o ->
  tripFrame env reqp req w o.
Proof.
  intros Hreq Hheap HL HD HE [R D E L G]. constructor.
  - rewrite R. destruct Hheap as [-> | ->]; [exact Hreq |].
    now apply lookup_app_l_Some.
  - now rewrite R.
  - intros h x Hx. apply D. now apply HD.
  - eapply extends_trans; [exact HE |].
    eapply extends_weaken; [apply requestEvent_callEvent | exact E].
  - now rewrite <- HL.
  - intros rsp e w'. rewrite <- HL. apply G.
Qed.

Lemma dialOnce_frame env ctx w req :
  let w' := dialOnce env ctx w in
  w_reqs w' = w_reqs w /\ w_ctxs w' = w_ctxs w /\
  extends (callEvent req) w w'.
Proof.
  unfold dialOnce. destruct (dialed (w_client w)).
  - repeat split. apply extends_refl.
  - unfold dial. destruct (dialResult env); simpl.
    + repeat split. exists [EvDial ctx]. split; [reflexivity | repeat constructor].
    + destruct (StreamHijacker (opts (w_client w))); simpl; repeat split.
      * exists [EvDial ctx; EvGo goSetupConn; EvGo goHandleBidirectionalStreams;
                EvGo goHandleUnidirectionalStreams].
        split; [simpl; now rewrite <- ?app_assoc | repeat constructor].
      * exists [EvDial ctx; EvGo goSetupConn; EvGo goHandleUnidirectionalStreams].
        split; [simpl; now rewrite <- ?app_assoc | repeat constructor].
Qed.

Lemma roundTripOpt_frame env reqp req opt w :
  w_reqs w !! reqp = Some req ->
  tripFrame env reqp req w (roundTripOpt env reqp opt w).
Proof.
  intros Hreq. unfold roundTripOpt. rewrite Hreq.
  assert (Hearly : forall w2 rsp err,
            w_reqs w2 = w_reqs w -> w_ctxs w2 = w_ctxs w ->
            extends (callEvent (sentRequest req)) w w2 ->
            tripFrame env reqp req w (Returns rsp err w2)).
  { intros w2 rsp err R C E.
    apply (tripFrame_of_callFrame env reqp req w w2); auto.
    - now rewrite C.
    - intros h x. now rewrite C.
    - apply callFrame_early; auto. apply extends_refl. }
  destruct (negb (authorityOfRequest env req =? hostname (w_client w))%string).
  { apply Hearly; auto. apply extends_refl. }
  destruct (dialOnce_frame env (Ctx req) w (sentRequest req)) as (R1 & C1 & E1).
  set (w1 := dialOnce env (Ctx req) w) in *.
  destruct (handshakeErr (w_client w1)); [now apply Hearly |].
  destruct (receivedGoaway (w_client w1)); [now apply Hearly |].
  assert (Hcopy : forall m, sentRequest req = withMethod m req ->
            tripFrame env reqp req w
              (let '(reqp0, req0, w0) := copyWithMethod m req w1 in
               settingsAndStream env reqp0 req0 opt w0)).
  { intros m Hs. unfold copyWithMethod.
    apply (tripFrame_of_callFrame env reqp req w
             (setReqs (w_reqs w1 ++ [withMethod m req]) w1)); auto.
    - right. simpl. now rewrite Hs, R1.
    - simpl. now rewrite C1.
    - intros h x. simpl. now rewrite C1.
    - rewrite Hs. apply settingsAndStream_frame. }
  destruct (Method req =? MethodGet0RTT)%string eqn:Eg.
  { apply Hcopy. unfold sentRequest. now rewrite Eg. }
  destruct (Method req =? MethodHead0RTT)%string eqn:Eh.
  { apply Hcopy. unfold sentRequest. now rewrite Eg, Eh. }
  assert (Hs : sentRequest req = req) by (unfold sentRequest; now rewrite Eg, Eh).
  unfold waitForHandshake.
  destruct (applyActions_frame (whileHandshake env) (emit EvWaitHandshake w1))
    as (R2 & L2 & K2 & E2).
  set (w2 := applyActions (whileHandshake env) (emit EvWaitHandshake w1)) in *.
  assert (E02 : extends (callEvent (sentRequest req)) w w2).
  { eapply extends_trans; [exact E1 |].
    apply (extends_trans _ _ (emit EvWaitHandshake w1)); [apply extends_emit; exact I |].
    eapply extends_weaken; [apply controlEvent_callEvent | exact E2]. }
  assert (D02 : forall h x, ctxErr (w_ctxs w) h = Some x -> ctxErr (w_ctxs w2) h = Some x).
  { intros h x Hx. apply K2. simpl. now rewrite C1. }
  assert (L02 : length (w_ctxs w2) = length (w_ctxs w)).
  { rewrite L2. simpl. now rewrite C1. }
  assert (R02 : w_reqs w2 = w_reqs w) by (rewrite R2; exact R1).
  assert (Hgo : tripFrame env reqp req w (settingsAndStream env reqp req opt w2)).
  { apply (tripFrame_of_callFrame env reqp req w w2); auto.
    rewrite Hs. apply settingsAndStream_frame. }
  assert (Hret : forall err, tripFrame env reqp req w (Returns None (Some err) w2)).
  { intros err. apply (tripFrame_of_callFrame env reqp req w w2); auto.
    apply callFrame_early; auto. apply extends_refl. }
  assert (Hblk : tripFrame env reqp req w (Blocks w2)).
  { apply (tripFrame_of_callFrame env reqp req w w2); auto.
    apply callFrame_blocks; auto. apply extends_refl. }
  destruct (handshakeCompletes env), (ctxErr (w_ctxs w2) (Ctx req));
    try destruct (selectPrefersCtx env); simpl;
    first [exact Hgo | apply Hret | exact Hblk].
Qed.

Lemma RoundTripOpt_world env reqp opt w :
  outcomeWorld (RoundTripOpt env reqp opt w)
  = match roundTripOpt env reqp opt w with
    | Returns _ _ w1 => applyActions (beforeReturn env) w1
    | o => outcomeWorld o
    end.
Proof.
  unfold RoundTripOpt. destruct (roundTripOpt env reqp opt w) as [rsp err w1 | w1 | w1];
    try reflexivity.
  cbv zeta. destruct err; [| reflexivity].
  destruct (w_reqs (applyActions (beforeReturn env) w1) !! reqp); [| reflexivity].
  destruct (ctxErr _ _); reflexivity.
Qed.

(** The world [RoundTripOpt] leaves, against the one it found. *)
Lemma RoundTripOpt_frame env reqp req opt w :
  w_reqs w !! reqp = Some req ->
  let w' := outcomeWorld (RoundTripOpt env reqp opt w) in
  w_reqs w' !! reqp = Some req /\
  (w_reqs w' = w_reqs w \/ w_reqs w' = w_reqs w ++ [sentRequest req]) /\
  extends (callEvent (sentRequest req)) w w'.
Proof.
  intros Hreq w'. subst w'. rewrite RoundTripOpt_world.
  destruct (roundTripOpt_frame env reqp req opt w Hreq) as [R H _ E _ _].
  destruct (roundTripOpt env reqp opt w) as [rsp err w1 | w1 | w1]; simpl in *; auto.
  destruct (applyActions_frame (beforeReturn env) w1) as (R2 & _ & _ & E2).
  rewrite R2. repeat split; auto.
  eapply extends_trans; [exact E |].
  eapply extends_weaken; [apply controlEvent_callEvent | exact E2].
Qed.

(** ** Zero-RTT requests *)

(** C10.  A call of [RoundTripOpt] never writes to the request the caller
    passed in: whatever the method and however the call ends, the request
    at the caller's pointer is the one that was there.  For [GET_0RTT] and
    [HEAD_0RTT] the request whose header is written is a copy that differs
    in the method only, which is [GET] and [HEAD]; the copy is the only cell
    the call adds to the heap of requests. *)
Theorem RoundTripOpt_keeps_caller_request :
  forall (env : roundTripEnv) (reqp : nat) (req : Request)
         (opt : roundTripOptions) (w : world),
    w_reqs w !! reqp = Some req ->
    let w' := outcomeWorld (RoundTripOpt env reqp opt w) in
    w_reqs w' !! reqp = Some req /\
    (w_reqs w' = w_reqs w \/ w_reqs w' = w_reqs w ++ [sentRequest req]) /\
    (forall str r gz,
        In (EvWriteRequestHeader str r gz) (w_trace w') ->
        In (EvWriteRequestHeader str r gz) (w_trace w) \/ r = sentRequest req) /\
    (Method req = MethodGet0RTT -> sentRequest req = withMethod "GET" req) /\
    (Method req = MethodHead0RTT -> sentRequest req = withMethod "HEAD" req).
Proof.
  intros env reqp req opt w Hreq w'.
  destruct (RoundTripOpt_frame env reqp req opt w Hreq) as (R & H & E).
  fold w' in R, H, E.
  split; [exact R |]. split; [exact H |]. split; [| split].
  - intros str r gz Hin. apply (extends_in _ _ _ _ E) in Hin. exact Hin.
  - intros Hm. unfold sentRequest. rewrite Hm. reflexivity.
  - intros Hm. unfold sentRequest. rewrite Hm. reflexivity.
Qed.

Lemma RoundTripOpt_keeps_caller_request_witness :
  w_reqs (outcomeWorld (RoundTripOpt noHandshakeEnv 0 sampleOptions zeroRTTWorld)) !! 0%nat
  = Some zeroRTTRequest /\
  sentRequest zeroRTTRequest = withMethod "GET" zeroRTTRequest.
Proof.
  destruct (RoundTripOpt_keeps_caller_request noHandshakeEnv 0 zeroRTTRequest
              sampleOptions zeroRTTWorld eq_refl) as (H & _ & _ & Hg & _).
  split; [exact H | apply Hg; reflexivity].
Defined.

(** ** Which error a failing call returns *)

(** C9, as stated, fails.  The request is on stream 0; the control-stream
    reader accepts a GOAWAY with id 0, which cancels the derived context
    (handle 1) with the goaway cause; then the caller cancels the request
    context; the request fails.  The goaway error is the cause recorded in
    the derived context and [roundTripOpt] returns it, but [RoundTripOpt]
    returns [context.Canceled] to the caller. *)
Lemma goaway_cause_but_caller_error :
  exists w1 w',
    roundTripOpt raceEnv 0 sampleOptions sampleWorld
    = Returns None (Some errGoaway) w1 /\
    RoundTripOpt raceEnv 0 sampleOptions sampleWorld
    = Returns None (Some ctxCanceled) w' /\
    ctxCause (w_ctxs w') 1 = Some errGoaway /\
    ctxErr (w_ctxs w') (Ctx sampleRequest) = Some ctxCanceled /\
    ctxCanceled <> errGoaway.
Proof.
  eexists _, _. split; [vm_compute; reflexivity |].
  split; [vm_compute; reflexivity |]. repeat split. discriminate.
Qed.

(** A GOAWAY that the reader of the control stream accepts after the check
    of line 376 and before the deferred [cancel(nil)] of line 327 is the
    cause recorded in the derived context (handle 1), and the caller's
    context is not done, but the error returned is the one of the stream:
    the check came first. *)
Example goaway_after_the_check :
  exists w',
    RoundTripOpt goawayAtReturnEnv 0 sampleOptions sampleWorld
    = Returns None (Some (errOther "stream reset")) w' /\
    ctxCause (w_ctxs w') 1 = Some errGoaway /\
    ctxErr (w_ctxs w') (Ctx sampleRequest) = None /\
    causeAtReturn goawayAtReturnEnv 0 sampleOptions sampleWorld = Some ctxCanceled.
Proof.
  eexists. split; [vm_compute; reflexivity |]. repeat split.
Qed.

(** What happens between the return statement and the deferred function
    changes neither the response nor the error. *)
Lemma requestOnStream_quietReturn env reqp req opt str w :
  resultOf (requestOnStream (quietReturn env) reqp req opt str w)
  = resultOf (requestOnStream env reqp req opt str w).
Proof.
  unfold requestOnStream.
  change (requestIO (quietReturn env)) with (requestIO env).
  change (whileRequest (quietReturn env)) with (whileRequest env).
  change (joinCancelWatcher (quietReturn env)) with (joinCancelWatcher env).
  change (replaceError (quietReturn env)) with (replaceError env).
  destruct (registerContext req str w) as [ctx w0].
  destruct (doRequest _ _ _ _ _ _ _) as [[rsp rerr] w1].
  destruct (re_err rerr); [| reflexivity].
  match goal with |- context [isGoaway ?c] => destruct (isGoaway c) end; reflexivity.
Qed.

(** The deferred [cancel(nil)] records no goaway cause: a goaway cause that
    is recorded after it was recorded before. *)
Lemma deferredCleanup_goaway_cause id cancel w h :
  ctxCause (w_ctxs (deferredCleanup id cancel w)) h = Some errGoaway ->
  ctxCause (w_ctxs w) h = Some errGoaway.
Proof.
  simpl. unfold cancelCause, cancelCtx.
  destruct (ctxErr (w_ctxs w) cancel); [auto |].
  unfold ctxCause. rewrite list_lookup_imap.
  destruct (w_ctxs w !! h) as [r |]; simpl; [| auto].
  destruct (Nat.eqb h cancel || isChildOf cancel r); [| auto].
  unfold markCanceled. destruct (ctx_err r); simpl; [auto | discriminate].
Qed.

(** The run of a call and its run with nothing happening after the return
    statement part at that statement only: they return the same from the
    same world [wc], the one in which the check of line 376 was made; and a
    goaway cause in the world that the second one leaves was in [wc]. *)
Lemma requestOnStream_return_point env reqp req opt str w :
  exists rsp err wc,
    requestOnStream env reqp req opt str w
    = Returns rsp err (returnDeferred env str (length (w_ctxs w)) wc) /\
    requestOnStream (quietReturn env) reqp req opt str w
    = Returns rsp err (deferredCleanup str (length (w_ctxs w)) wc) /\
    (ctxCause (w_ctxs (deferredCleanup str (length (w_ctxs w)) wc)) (length (w_ctxs w))
     = Some errGoaway ->
     ctxCause (w_ctxs wc) (length (w_ctxs w)) = Some errGoaway).
Proof.
  unfold requestOnStream, registerContext, withCancelCause.
  change (requestIO (quietReturn env)) with (requestIO env).
  change (whileRequest (quietReturn env)) with (whileRequest env).
  change (joinCancelWatcher (quietReturn env)) with (joinCancelWatcher env).
  change (replaceError (quietReturn env)) with (replaceError env).
  change (returnDeferred (quietReturn env)) with deferredCleanup.
  destruct (doRequest _ _ _ _ _ _ _) as [[rsp rerr] w1].
  destruct (re_err rerr).
  - match goal with |- context [isGoaway ?c] => destruct (isGoaway c) end;
      eexists _, _, _; (split; [reflexivity |]); (split; [reflexivity |]);
      apply deferredCleanup_goaway_cause.
  - eexists _, _, _. split; [reflexivity |]. split; [reflexivity |].
    apply deferredCleanup_goaway_cause.
Qed.

Lemma settingsAndStream_quietReturn env reqp req opt w :
  resultOf (settingsAndStream (quietReturn env) reqp req opt w)
  = resultOf (settingsAndStream env reqp req opt w).
Proof.
  unfold settingsAndStream.
  change (openStreamSync (quietReturn env)) with (openStreamSync env).
  change (settingsArrive (quietReturn env)) with (settingsArrive env).
  assert (Hopen : forall w1,
            resultOf (match openStreamSync env with
                      | Ok str => requestOnStream (quietReturn env) reqp req opt str w1
                      | Err err => Returns None (Some err) w1
                      end)
            = resultOf (match openStreamSync env with
                        | Ok str => requestOnStream env reqp req opt str w1
                        | Err err => Returns None (Some err) w1
                        end)).
  { intros w1. destruct (openStreamSync env); [| reflexivity].
    apply requestOnStream_quietReturn. }
  destruct (CheckSettings opt) as [check |]; [| apply Hopen].
  destruct (settingsArrive env) as [[settings | cause] |]; try reflexivity.
  destruct (check settings); [reflexivity | apply Hopen].
Qed.

Lemma roundTripOpt_quietReturn env reqp opt w :
  resultOf (roundTripOpt (quietReturn env) reqp opt w)
  = resultOf (roundTripOpt env reqp opt w).
Proof.
  unfold roundTripOpt.
  destruct (w_reqs w !! reqp) as [req |]; [| reflexivity].
  change (authorityOfRequest (quietReturn env)) with (authorityOfRequest env).
  destruct (negb _); [reflexivity |].
  change (dialOnce (quietReturn env)) with (dialOnce env).
  destruct (handshakeErr _); [reflexivity |].
  destruct (receivedGoaway _); [reflexivity |].
  unfold copyWithMethod.
  destruct (Method req =? MethodGet0RTT)%string;
    [apply settingsAndStream_quietReturn |].
  destruct (Method req =? MethodHead0RTT)%string;
    [apply settingsAndStream_quietReturn |].
  change (waitForHandshake (quietReturn env)) with (waitForHandshake env).
  destruct (waitForHandshake env req _) as [w1 | o];
    [apply settingsAndStream_quietReturn | reflexivity].
Qed.

(** C9, amended.  For a call that fails: if the caller's request context is
    done when [RoundTripOpt] looks at it, the error returned is the error of
    that context, whatever cause the derived context recorded.  Otherwise,
    if the goaway error is the cause that was recorded in the derived
    context by the time [roundTripOpt] evaluated its return statement
    ([causeAtReturn]), the error returned is the goaway error.  What the
    other goroutines do after that, before the deferred function has run,
    changes neither the response nor the error of [roundTripOpt]: a GOAWAY
    that is accepted then is the recorded cause of a call that returns the
    error of the request. *)
Theorem RoundTripOpt_error_classes :
  forall (env : roundTripEnv) (reqp : nat) (req : Request)
         (opt : roundTripOptions) (w w' : world)
         (rsp : option Response) (err : error),
    w_reqs w !! reqp = Some req ->
    RoundTripOpt env reqp opt w = Returns rsp (Some err) w' ->
    (forall cerr, ctxErr (w_ctxs w') (Ctx req) = Some cerr -> err = cerr) /\
    (ctxErr (w_ctxs w') (Ctx req) = None ->
     causeAtReturn env reqp opt w = Some errGoaway ->
     err = errGoaway) /\
    resultOf (roundTripOpt (quietReturn env) reqp opt w)
    = resultOf (roundTripOpt env reqp opt w).
Proof.
  intros env reqp req opt w w' rsp err Hreq Hrt.
  pose proof (roundTripOpt_quietReturn env reqp opt w) as Hq.
  split; [| split; [| exact Hq]].
  - unfold RoundTripOpt in Hrt.
    destruct (roundTripOpt_frame env reqp req opt w Hreq) as [R _ _ _ _ _].
    destruct (roundTripOpt env reqp opt w) as [rsp0 err0 w1 | w1 | w1];
      try discriminate.
    simpl in R. cbv zeta in Hrt.
    destruct (applyActions_frame (beforeReturn env) w1) as (R2 & _ & _ & _).
    rewrite R2, R in Hrt.
    destruct err0 as [e0 |]; [| inversion Hrt].
    destruct (ctxErr (w_ctxs (applyActions (beforeReturn env) w1)) (Ctx req))
      as [ce |] eqn:Ec; inversion Hrt; subst; clear Hrt; intros cerr Hc; congruence.
  - intros Hc Hcause. unfold causeAtReturn in Hcause.
    destruct (roundTripOpt_frame (quietReturn env) reqp req opt w Hreq)
      as [_ _ _ _ _ G].
    unfold RoundTripOpt in Hrt.
    destruct (roundTripOpt_frame env reqp req opt w Hreq) as [R _ _ _ _ _].
    destruct (roundTripOpt env reqp opt w) as [rsp0 err0 w1 | w1 | w1];
      try discriminate.
    simpl in R. cbv zeta in Hrt.
    destruct (applyActions_frame (beforeReturn env) w1) as (R2 & _ & _ & _).
    rewrite R2, R in Hrt.
    destruct err0 as [e0 |]; [| inversion Hrt].
    destruct (ctxErr (w_ctxs (applyActions (beforeReturn env) w1)) (Ctx req))
      as [ce |] eqn:Ec; inversion Hrt; subst; clear Hrt; [congruence |].
    destruct (roundTripOpt (quietReturn env) reqp opt w) as [rspq errq wq | wq | wq];
      try discriminate.
    simpl in Hq. inversion Hq; subst.
    apply (G rsp err wq eq_refl eq_refl). exact Hcause.
Qed.

Lemma RoundTripOpt_error_classes_witness :
  (forall cerr,
      ctxErr (w_ctxs (outcomeWorld (RoundTripOpt raceEnv 0 sampleOptions sampleWorld)))
        (Ctx sampleRequest) = Some cerr ->
      ctxCanceled = cerr) /\
  (forall rsp err w',
      RoundTripOpt goawayResetEnv 0 sampleOptions sampleWorld = Returns rsp (Some err) w' ->
      err = errGoaway).
Proof.
  split.
  - apply (RoundTripOpt_error_classes raceEnv 0%nat sampleRequest sampleOptions
             sampleWorld _ None ctxCanceled).
    + reflexivity.
    + vm_compute. reflexivity.
  - intros rsp err w' E.
    destruct (RoundTripOpt_error_classes goawayResetEnv 0%nat sampleRequest sampleOptions
                sampleWorld w' rsp err eq_refl E) as (_ & H & _).
    apply H.
    + vm_compute in E. inversion E. reflexivity.
    + reflexivity.
Defined.

(** ** The wait for the handshake *)

(** A call that reaches the switch on the method, in the world the dial
    has left (the world of the call when the connection is up already). *)
Lemma roundTripOpt_reaches_switch env reqp req opt w :
  w_reqs w !! reqp = Some req ->
  authorityOfRequest env req = hostname (w_client w) ->
  let wd := dialOnce env (Ctx req) w in
  handshakeErr (w_client wd) = None ->
  receivedGoaway (w_client wd) = false ->
  roundTripOpt env reqp opt w
  = if (Method req =? MethodGet0RTT)%string
    then settingsAndStream env (length (w_reqs wd)) (withMethod "GET" req) opt
           (setReqs (w_reqs wd ++ [withMethod "GET" req]) wd)
    else if (Method req =? MethodHead0RTT)%string
    then settingsAndStream env (length (w_reqs wd)) (withMethod "HEAD" req) opt
           (setReqs (w_reqs wd ++ [withMethod "HEAD" req]) wd)
    else match waitForHandshake env req wd with
         | inl w1 => settingsAndStream env reqp req opt w1
         | inr o => o
         end.
Proof.
  intros Hreq Hauth wd Hhs Hga. unfold roundTripOpt. rewrite Hreq.
  apply String.eqb_eq in Hauth. rewrite Hauth. simpl.
  fold wd. rewrite Hhs, Hga. reflexivity.
Qed.

(** When [roundTripOpt] returns the error of the caller's context, so does
    [RoundTripOpt]. *)
Lemma RoundTripOpt_returns_ctx_error env reqp req opt w w1 err :
  w_reqs w !! reqp = Some req ->
  roundTripOpt env reqp opt w = Returns None (Some err) w1 ->
  ctxErr (w_ctxs w1) (Ctx req) = Some err ->
  RoundTripOpt env reqp opt w
  = Returns None (Some err) (applyActions (beforeReturn env) w1).
Proof.
  intros Hreq Hrt Hc. unfold RoundTripOpt.
  destruct (roundTripOpt_frame env reqp req opt w Hreq) as [R _ _ _ _ _].
  rewrite Hrt in *. simpl in R.
  destruct (applyActions_frame (beforeReturn env) w1) as (R2 & _ & K2 & _).
  cbv zeta. rewrite R2, R. destruct (K2 _ _ Hc) as [-> _]. reflexivity.
Qed.

(** C4.  A call that reaches the switch on the method: the request is for
    the client's authority, the dial (of this call or of an earlier one) has
    succeeded, and no GOAWAY was received; [wd] is the world the dial has
    left.  For [GET_0RTT] and [HEAD_0RTT] the call goes on with the copy at
    once: it does not wait for the handshake, and when no settings check is
    asked for and the stream opens, the header of the copy is written even
    if the handshake never completes.  For any other method the call waits:
    it blocks as long as neither the handshake completes nor the caller's
    context is done; when the context is done (and the handshake is not, or
    the select takes that case) it returns the error of the context, having
    opened no stream and written no header; otherwise it goes on. *)
Theorem roundTripOpt_handshake_wait :
  forall (env : roundTripEnv) (reqp : nat) (req : Request)
         (opt : roundTripOptions) (w : world),
    w_reqs w !! reqp = Some req ->
    authorityOfRequest env req = hostname (w_client w) ->
    let wd := dialOnce env (Ctx req) w in
    handshakeErr (w_client wd) = None ->
    receivedGoaway (w_client wd) = false ->
    ((Method req = MethodGet0RTT \/ Method req = MethodHead0RTT) ->
     roundTripOpt env reqp opt w
     = settingsAndStream env (length (w_reqs wd)) (sentRequest req) opt
         (setReqs (w_reqs wd ++ [sentRequest req]) wd) /\
     (In EvWaitHandshake (w_trace (outcomeWorld (RoundTripOpt env reqp opt w))) ->
      In EvWaitHandshake (w_trace wd)) /\
     (forall str, CheckSettings opt = None -> openStreamSync env = Ok str ->
        In (EvWriteRequestHeader str (sentRequest req)
              (requestGzip (w_client w) (sentRequest req)))
           (w_trace (outcomeWorld (RoundTripOpt env reqp opt w))))) /\
    (Method req <> MethodGet0RTT -> Method req <> MethodHead0RTT ->
     let w1 := applyActions (whileHandshake env) (emit EvWaitHandshake wd) in
     let returnsCtxError err :=
       roundTripOpt env reqp opt w = Returns None (Some err) w1 /\
       RoundTripOpt env reqp opt w
       = Returns None (Some err) (applyActions (beforeReturn env) w1) /\
       (forall e, In e (w_trace (applyActions (beforeReturn env) w1)) ->
          In e (w_trace wd) \/ e = EvWaitHandshake \/ controlEvent e) in
     let goesOn := roundTripOpt env reqp opt w = settingsAndStream env reqp req opt w1 in
     match handshakeCompletes env, ctxErr (w_ctxs w1) (Ctx req) with
     | false, None => RoundTripOpt env reqp opt w = Blocks w1
     | false, Some err => returnsCtxError err
     | true, None => goesOn
     | true, Some err => if selectPrefersCtx env then returnsCtxError err else goesOn
     end).
Proof.
  intros env reqp req opt w Hreq Hauth wd Hhs Hga.
  pose proof (roundTripOpt_reaches_switch env reqp req opt w Hreq Hauth Hhs Hga)
    as Hsw.
  fold wd in Hsw.
  assert (Hopts : forall r, requestGzip (w_client wd) r = requestGzip (w_client w) r).
  { intros r. subst wd. unfold dialOnce, dial, requestGzip.
    destruct (dialed (w_client w)); [reflexivity |].
    destruct (dialResult env); [reflexivity |].
    match goal with |- context [if ?b then _ else _] => destruct b end;
      reflexivity. }
  split.
  - intros Hm.
    assert (Hrt : roundTripOpt env reqp opt w
                  = settingsAndStream env (length (w_reqs wd)) (sentRequest req) opt
                      (setReqs (w_reqs wd ++ [sentRequest req]) wd)).
    { rewrite Hsw. unfold sentRequest. destruct Hm as [Hm | Hm]; rewrite Hm; reflexivity. }
    set (w0 := setReqs (w_reqs wd ++ [sentRequest req]) wd) in *.
    pose proof (settingsAndStream_frame env (length (w_reqs wd)) (sentRequest req) opt w0)
      as [_ _ E _ _].
    assert (Hw : forall e, In e (w_trace (outcomeWorld (roundTripOpt env reqp opt w))) ->
                           In e (w_trace (outcomeWorld (RoundTripOpt env reqp opt w)))).
    { intros e. rewrite RoundTripOpt_world.
      destruct (roundTripOpt env reqp opt w) as [rsp err w2 | w2 | w2]; auto.
      destruct (applyActions_frame (beforeReturn env) w2) as (_ & _ & _ & E2).
      apply (extends_mono _ _ _ _ E2). }
    assert (Hx : extends (requestEvent (sentRequest req)) wd
                   (outcomeWorld (RoundTripOpt env reqp opt w))).
    { rewrite RoundTripOpt_world, Hrt.
      destruct (settingsAndStream env (length (w_reqs wd)) (sentRequest req) opt w0)
        as [rsp err w2 | w2 | w2]; simpl in *; try exact E.
      destruct (applyActions_frame (beforeReturn env) w2) as (_ & _ & _ & E2).
      eapply extends_trans; [exact E |].
      eapply extends_weaken; [apply controlEvent_requestEvent | exact E2]. }
    split; [exact Hrt |]. split.
    + intros Hin. destruct (extends_in _ _ _ _ Hx Hin) as [H | H]; [exact H | destruct H].
    + intros str Hc Ho. apply Hw. rewrite Hrt, <- Hopts.
      apply (settingsAndStream_sends env _ _ opt w0 str Hc Ho).
  - intros Hg Hh w1 returnsCtxError goesOn.
    apply String.eqb_neq in Hg, Hh. rewrite Hg, Hh in Hsw.
    unfold waitForHandshake in Hsw. fold w1 in Hsw.
    assert (Hret : forall err, ctxErr (w_ctxs w1) (Ctx req) = Some err ->
              roundTripOpt env reqp opt w = Returns None (Some err) w1 ->
              returnsCtxError err).
    { intros err Hc Hrt. subst returnsCtxError. cbv beta.
      split; [exact Hrt |].
      split; [exact (RoundTripOpt_returns_ctx_error _ _ _ _ _ _ _ Hreq Hrt Hc) |].
      intros e Hin.
      destruct (applyActions_frame (beforeReturn env) w1) as (_ & _ & _ & E2).
      destruct (extends_in _ _ _ _ E2 Hin) as [Hin1 | Hce]; [| auto].
      destruct (applyActions_frame (whileHandshake env) (emit EvWaitHandshake wd))
        as (_ & _ & _ & E1).
      fold w1 in E1. destruct (extends_in _ _ _ _ E1 Hin1) as [Hin0 | Hce]; [| auto].
      simpl in Hin0. apply in_app_or in Hin0.
      destruct Hin0 as [H | [H | []]]; auto. }
    destruct (handshakeCompletes env), (ctxErr (w_ctxs w1) (Ctx req)) as [err |] eqn:Ec.
    + destruct (selectPrefersCtx env); [now apply Hret | exact Hsw].
    + exact Hsw.
    + now apply Hret.
    + unfold RoundTripOpt. now rewrite Hsw.
Qed.

Lemma roundTripOpt_handshake_wait_witness :
  In (EvWriteRequestHeader 0 (sentRequest zeroRTTRequest)
        (requestGzip (w_client zeroRTTWorld) (sentRequest zeroRTTRequest)))
     (w_trace (outcomeWorld (RoundTripOpt noHandshakeEnv 0 sampleOptions zeroRTTWorld))) /\
  RoundTripOpt noHandshakeEnv 0 sampleOptions sampleWorld
  = Blocks (applyActions (whileHandshake noHandshakeEnv) (emit EvWaitHandshake sampleWorld)) /\
  roundTripOpt deadlineEnv 0 sampleOptions sampleWorld
  = Returns None (Some ctxDeadlineExceeded)
      (applyActions (whileHandshake deadlineEnv) (emit EvWaitHandshake sampleWorld)).
Proof.
  split; [| split].
  - destruct (roundTripOpt_handshake_wait noHandshakeEnv 0%nat zeroRTTRequest
                sampleOptions zeroRTTWorld eq_refl eq_refl eq_refl eq_refl)
      as [H _].
    destruct (H (or_introl eq_refl)) as (_ & _ & Hs).
    apply Hs; reflexivity.
  - destruct (roundTripOpt_handshake_wait noHandshakeEnv 0%nat sampleRequest
                sampleOptions sampleWorld eq_refl eq_refl eq_refl eq_refl)
      as [_ H].
    apply H; discriminate.
  - destruct (roundTripOpt_handshake_wait deadlineEnv 0%nat sampleRequest
                sampleOptions sampleWorld eq_refl eq_refl eq_refl eq_refl)
      as [_ H].
    apply H; discriminate.
Defined.

(** ** The automatic gzip negotiation *)

Lemma requestGzip_true c req :
  requestGzip c req = true <->
  DisableCompression (opts c) = false /\
  Method req <> "HEAD"%string /\
  Header_Get (ReqHeader req) "Accept-Encoding" = ""%string /\
  Header_Get (ReqHeader req) "Range" = ""%string.
Proof.
  unfold requestGzip. rewrite !andb_true_iff, !negb_true_iff.
  rewrite String.eqb_neq, !String.eqb_eq. tauto.
Qed.

(** A header the caller did not put in the map at all reads as empty. *)
Lemma Header_Get_absent (h : Header) key : h !! key = None -> Header_Get h key = ""%string.
Proof. unfold Header_Get. now intros ->. Qed.

Lemma doRequest_trace io reqp req str opt reqDone w :
  exists evs,
    w_trace (snd (doRequest io reqp req str opt reqDone w))
    = w_trace w ++ EvWriteRequestHeader str req (requestGzip (w_client w) req) :: evs /\
    forall s r g, ~ In (EvWriteRequestHeader s r g) evs.
Proof.
  unfold doRequest. destruct (writeRequestHeader io).
  - exists []. split; [reflexivity | intros s r g []].
  - destruct (receiveResponse _ _ _ _ _ _ _) as [rsp rerr]. simpl.
    destruct (Body req) as [body |]; [| destruct (DontCloseRequestStream opt)]; simpl.
    + eexists [_; _]. split; [now rewrite <- !app_assoc |].
      intros s r g [H | [H | []]]; discriminate.
    + eexists [_]. split; [now rewrite <- !app_assoc |].
      intros s r g [H | []]; discriminate.
    + eexists [_; _]. split; [now rewrite <- !app_assoc |].
      intros s r g [H | [H | []]]; discriminate.
Qed.

Lemma Header_Get_empty (h : Header) key :
  Header_Get h key = ""%string <-> noValue h key.
Proof.
  unfold Header_Get, noValue. destruct (h !! key) as [[| v vs] |]; split; auto.
  - intros ->. right. right. now exists vs.
  - intros [H | [H | [vs' H]]]; congruence.
Qed.

Lemma Header_Get_value (h : Header) key :
  Header_Get h key <> ""%string <-> hasValue h key.
Proof.
  unfold Header_Get, hasValue. destruct (h !! key) as [[| v vs] |]; split.
  - congruence.
  - intros (v & vs & H & _). discriminate.
  - intros Hv. now exists v, vs.
  - intros (v' & vs' & H & Hv). now inversion H; subst.
  - congruence.
  - intros (v & vs & H & _). discriminate.
Qed.

(** C5, as stated, fails.  The caller has set Accept-Encoding to an empty
    value: the header is in the request, but [Header.Get] returns the empty
    string for it, the flag is set and the automatic field is added.  The
    same happens for a header the caller has put into the map under the
    lower-case key. *)
Lemma automatic_gzip_despite_caller_header :
  ReqHeader emptyEncodingRequest !! "Accept-Encoding"%string = Some [""%string] /\
  (exists evs,
      w_trace (snd (doRequest sampleIO 0 emptyEncodingRequest 0 sampleOptions true
                      sampleWorld))
      = EvWriteRequestHeader 0 emptyEncodingRequest true :: evs) /\
  In acceptEncodingGzip
     (automaticFields (requestGzip sampleClient emptyEncodingRequest)) /\
  ReqHeader lowerCaseEncodingRequest !! "accept-encoding"%string
  = Some ["identity"%string] /\
  In acceptEncodingGzip
     (automaticFields (requestGzip sampleClient lowerCaseEncodingRequest)).
Proof.
  split; [reflexivity |]. split; [eexists; vm_compute; reflexivity |].
  split; [now left |]. split; [reflexivity | now left].
Qed.

(** C5, amended.  [doRequest] writes the header of the request once, and
    the flag it hands to [WriteRequestHeader], on which the automatic
    [accept-encoding: gzip] field is added, is set if and only if
    compression is not disabled in the options of the client, the method is
    not HEAD, and [Header.Get] finds no value for Accept-Encoding and none
    for Range: for each of the two, the header of the request has no entry
    under the canonical key, or an entry without values, or one whose first
    value is empty.  A HEAD request never gets the field, and neither does
    a [HEAD_0RTT] request, which is sent as HEAD.  What the header holds
    under other keys has no influence on the flag. *)
Theorem doRequest_automatic_gzip :
  forall (io : requestOracle) (reqp : nat) (req : Request) (str : StreamID)
         (opt : roundTripOptions) (reqDone : bool) (w : world),
    (exists gzip evs,
        w_trace (snd (doRequest io reqp req str opt reqDone w))
        = w_trace w ++ EvWriteRequestHeader str req gzip :: evs /\
        (forall s r g, ~ In (EvWriteRequestHeader s r g) evs) /\
        (gzip = true <->
         DisableCompression (opts (w_client w)) = false /\
         Method req <> "HEAD"%string /\
         noValue (ReqHeader req) "Accept-Encoding" /\
         noValue (ReqHeader req) "Range") /\
        (In acceptEncodingGzip (automaticFields gzip) <-> gzip = true) /\
        (Method req = "HEAD"%string -> ~ In acceptEncodingGzip (automaticFields gzip))) /\
    (Method req = MethodHead0RTT ->
     ~ In acceptEncodingGzip
         (automaticFields (requestGzip (w_client w) (sentRequest req)))) /\
    (forall key vs, key <> "Accept-Encoding"%string -> key <> "Range"%string ->
       requestGzip (w_client w) (withHeader (<[key := vs]> (ReqHeader req)) req)
       = requestGzip (w_client w) req).
Proof.
  intros io reqp req str opt reqDone w.
  assert (Hin : forall gzip, In acceptEncodingGzip (automaticFields gzip) <-> gzip = true).
  { intros gzip. unfold automaticFields. destruct gzip; simpl.
    - tauto.
    - split; [intros [] | discriminate]. }
  assert (Hg : requestGzip (w_client w) req = true <->
               DisableCompression (opts (w_client w)) = false /\
               Method req <> "HEAD"%string /\
               noValue (ReqHeader req) "Accept-Encoding" /\
               noValue (ReqHeader req) "Range").
  { rewrite requestGzip_true, !Header_Get_empty. reflexivity. }
  split; [| split].
  - destruct (doRequest_trace io reqp req str opt reqDone w) as (evs & Ht & Hn).
    exists (requestGzip (w_client w) req), evs.
    split; [exact Ht |]. split; [exact Hn |].
    split; [exact Hg |]. split; [apply Hin |].
    intros Hm. rewrite Hin, Hg. tauto.
  - intros Hm. rewrite Hin. unfold sentRequest. rewrite Hm. simpl.
    unfold requestGzip. simpl. rewrite andb_false_r. discriminate.
  - intros key vs H1 H2. unfold requestGzip, withHeader, Header_Get. simpl.
    now rewrite !lookup_insert_ne by congruence.
Qed.

Lemma doRequest_automatic_gzip_witness :
  ~ In acceptEncodingGzip
      (automaticFields
         (requestGzip (w_client sampleWorld)
            (sentRequest (mkRequest MethodHead0RTT "example.com" ∅ None 0 0%nat)))).
Proof.
  destruct (doRequest_automatic_gzip sampleIO 0%nat
              (mkRequest MethodHead0RTT "example.com" ∅ None 0 0%nat) 0
              sampleOptions true sampleWorld) as (_ & H & _).
  apply H. reflexivity.
Defined.

(** A plain GET gets the field; one with a Range header does not. *)
Example gzip_for_plain_get :
  requestGzip sampleClient sampleRequest = true /\
  requestGzip sampleClient
    (mkRequest "GET" "example.com" (<["Range"%string := ["bytes=0-9"%string]]> ∅)
       None 0 0%nat) = false.
Proof. split; reflexivity. Qed.

(** ** The content length of the response *)

(** A response [doRequest] returns is the one [responseFromHeaders] built,
    finished by lines 484-521. *)
Lemma doRequest_response io reqp req str opt reqDone w rsp rerr w' :
  doRequest io reqp req str opt reqDone w = (Some rsp, rerr, w') ->
  exists hfs res,
    decodeFull io = Ok hfs /\ responseFromHeaders io hfs = Ok res /\
    rsp = finishResponse reqp req (requestGzip (w_client w) req) str reqDone res.
Proof.
  unfold doRequest. destruct (writeRequestHeader io); [discriminate |].
  unfold receiveResponse.
  destruct (nextFrame io) as [[L | L | D O | G] | e]; try discriminate.
  destruct (L >? _); [discriminate |].
  destruct (readFull io); [discriminate |].
  destruct (decodeFull io) as [hfs | e]; [| discriminate].
  destruct (responseFromHeaders io hfs) as [res |] eqn:Er; [| discriminate].
  intros H. inversion H; subst. exists hfs, res. auto.
Qed.

Lemma contentLengthRules_exempt req res :
  exemptResponse req res -> contentLengthRules req res = ContentLength res.
Proof.
  unfold exemptResponse, contentLengthRules.
  intros [H | [H | [H | [Hm H]]]].
  - rewrite H. reflexivity.
  - replace (StatusCode res >=? 100) with true by lia.
    replace (StatusCode res <? 200) with true by lia.
    simpl. now rewrite andb_false_r.
  - rewrite H. simpl. now rewrite !andb_false_r.
  - rewrite Hm. simpl.
    replace (StatusCode res >=? 200) with true by lia.
    replace (StatusCode res <? 300) with true by lia.
    simpl. now rewrite !andb_false_r.
Qed.

Lemma contentLengthRules_not_exempt req res :
  ~ exemptResponse req res ->
  contentLengthRules req res
  = match RespHeader res !! "Content-Length"%string with
    | Some [clen] => default (-1) (ParseInt clen)
    | _ => -1
    end.
Proof.
  unfold exemptResponse, contentLengthRules. intros Hn.
  destruct (hasKey (RespHeader res) "Transfer-Encoding") eqn:E1; [tauto |].
  destruct ((StatusCode res >=? 100) && (StatusCode res <? 200)) eqn:E2;
    [exfalso; apply Hn; right; left; lia |].
  destruct (StatusCode res =? 204) eqn:E3; [exfalso; apply Hn; right; right; left; lia |].
  destruct ((Method req =? "CONNECT")%string && (StatusCode res >=? 200)
            && (StatusCode res <? 300)) eqn:E4.
  { exfalso. apply Hn. right; right; right.
    apply andb_true_iff in E4 as [E4 E5]. apply andb_true_iff in E4 as [E4 E6].
    apply String.eqb_eq in E4. split; [exact E4 | lia]. }
  simpl. destruct (RespHeader res !! "Content-Length"%string) as [[| clen [| ? ?]] |];
    reflexivity.
Qed.

(** C6, as stated, fails: a 204 response with the header [Content-Length: 5]
    comes back from [RoundTripOpt] with [ContentLength = 5], not -1. *)
Lemma no_content_response_keeps_length :
  exists rsp w',
    RoundTripOpt noContentEnv 0 sampleOptions sampleWorld = Returns (Some rsp) None w' /\
    StatusCode rsp = 204 /\
    RespHeader rsp !! "Content-Length"%string = Some ["5"%string] /\
    ContentLength rsp = 5 /\
    ContentLength rsp <> -1.
Proof.
  eexists _, _. split; [vm_compute; reflexivity |].
  repeat split. discriminate.
Qed.

(** C6, amended.  For a response that is exempt from the Content-Length
    rules (status 204 or 1xx, successful CONNECT, Transfer-Encoding header)
    the client does not compute [ContentLength] again: the response
    [doRequest] returns carries the [ContentLength] that
    [responseFromHeaders] set, whatever the Content-Length header holds, and
    -1 only when the body is unzipped on the fly.  For any other response
    [ContentLength] is the value of the single Content-Length header if it
    parses, and -1 if not or when the body is unzipped. *)
Theorem doRequest_content_length :
  forall (io : requestOracle) (reqp : nat) (req : Request) (str : StreamID)
         (opt : roundTripOptions) (reqDone : bool) (w w' : world)
         (rsp : Response) (rerr : requestError),
    doRequest io reqp req str opt reqDone w = (Some rsp, rerr, w') ->
    exists hfs res,
      decodeFull io = Ok hfs /\ responseFromHeaders io hfs = Ok res /\
      StatusCode rsp = StatusCode res /\
      let unzipped :=
        requestGzip (w_client w) req
        && (Header_Get (RespHeader res) "Content-Encoding" =? "gzip")%string in
      (exemptResponse req res ->
       ContentLength rsp = if unzipped then -1 else ContentLength res) /\
      (~ exemptResponse req res ->
       ContentLength rsp =
       if unzipped then -1
       else match RespHeader res !! "Content-Length"%string with
            | Some [clen] => default (-1) (ParseInt clen)
            | _ => -1
            end).
Proof.
  intros io reqp req str opt reqDone w w' rsp rerr H.
  apply doRequest_response in H as (hfs & res & Hd & Hr & ->).
  exists hfs, res. split; [exact Hd |]. split; [exact Hr |].
  unfold finishResponse.
  destruct (requestGzip (w_client w) req
            && (Header_Get (RespHeader res) "Content-Encoding" =? "gzip")%string);
    simpl.
  - repeat split; reflexivity.
  - split; [reflexivity |]. split.
    + apply contentLengthRules_exempt.
    + apply contentLengthRules_not_exempt.
Qed.

Lemma doRequest_content_length_witness :
  exists rsp,
    fst (fst (doRequest (requestIO noContentEnv) 0 sampleRequest 0 sampleOptions true
                sampleWorld)) = Some rsp /\
    ContentLength rsp = ContentLength noContentResponse.
Proof.
  destruct (doRequest (requestIO noContentEnv) 0 sampleRequest 0 sampleOptions true
              sampleWorld) as [[[rsp |] rerr] w'] eqn:E;
    [| vm_compute in E; discriminate].
  exists rsp. split; [reflexivity |].
  destruct (doRequest_content_length _ _ _ _ _ _ _ _ _ _ E)
    as (hfs & res & _ & Hr & _ & Hex & _).
  simpl in Hr. inversion Hr; subst res.
  apply Hex. right; right; left. reflexivity.
Defined.

Example ParseInt_samples :
  ParseInt "5" = Some 5 /\ ParseInt "-12" = Some (-12) /\ ParseInt "+7" = Some 7 /\
  ParseInt "" = None /\ ParseInt "-" = None /\ ParseInt "1_0" = None /\
  ParseInt " 5" = None /\
  ParseInt "9223372036854775807" = Some (2 ^ 63 - 1) /\
  ParseInt "9223372036854775808" = None /\
  ParseInt "-9223372036854775808" = Some (- 2 ^ 63).
Proof. repeat split. Qed.

(** ** Errors while the response is received *)

Lemma receiveResponse_opts io c c' reqp req gzip str reqDone :
  opts c = opts c' ->
  receiveResponse io c reqp req gzip str reqDone
  = receiveResponse io c' reqp req gzip str reqDone.
Proof.
  intros H. unfold receiveResponse, maxHeaderBytes. now rewrite H.
Qed.

Lemma doRequest_result io reqp req str opt reqDone w :
  writeRequestHeader io = None ->
  fst (doRequest io reqp req str opt reqDone w)
  = receiveResponse io (w_client w) reqp req (requestGzip (w_client w) req) str reqDone.
Proof.
  intros H. unfold doRequest. rewrite H.
  match goal with
  | |- context [receiveResponse io (w_client ?x)] =>
      replace (w_client x) with (w_client w)
        by (destruct (Body req); [| destruct (DontCloseRequestStream opt)]; reflexivity)
  end.
  destruct (receiveResponse _ _ _ _ _ _ _). reflexivity.
Qed.

(** The teardown of lines 362-380: a request whose response is not received
    fails; a stream-level code cancels the write side of the stream with
    that code, a connection-level code closes the connection with it. *)
Lemma requestOnStream_teardown env reqp req opt str w rsp rerr e :
  writeRequestHeader (requestIO env) = None ->
  receiveResponse (requestIO env) (w_client w) reqp req
    (requestGzip (w_client w) req) str (negb (DontCloseRequestStream opt)) = (rsp, rerr) ->
  re_err rerr = Some e ->
  let o := requestOnStream env reqp req opt str w in
  fails o /\
  (streamErr rerr <> 0 -> In (EvCancelWrite str (streamErr rerr)) (w_trace (outcomeWorld o))) /\
  (connErr rerr <> 0 ->
   In (EvConnClose (connErr rerr) (Some e)) (w_trace (outcomeWorld o))).
Proof.
  intros Hw Hr He. unfold requestOnStream, registerContext, withCancelCause.
  set (ctx := length (w_ctxs w)).
  set (w0 := emit (EvGo (goCancelWatcher (Ctx req) str)) _).
  pose proof (doRequest_result (requestIO env) reqp req str opt
                (negb (DontCloseRequestStream opt)) w0 Hw) as Hd.
  rewrite (receiveResponse_opts _ _ (w_client w)) in Hd by reflexivity.
  change (requestGzip (w_client w0) req) with (requestGzip (w_client w) req) in Hd.
  rewrite Hr in Hd.
  destruct (doRequest (requestIO env) reqp req str opt
              (negb (DontCloseRequestStream opt)) w0) as [[rsp' rerr'] w1].
  simpl in Hd. inversion Hd; subst rsp' rerr'. clear Hd.
  rewrite He.
  set (w2 := applyActions (whileRequest env) w1).
  set (w3 := joinCancelWatcher env (Ctx req) str w2).
  set (w4 := if streamErr rerr =? 0 then w3 else emit (EvCancelWrite str (streamErr rerr)) w3).
  set (w5 := if connErr rerr =? 0 then w4 else emit (EvConnClose (connErr rerr) (Some e)) w4).
  assert (H45 : forall ev, In ev (w_trace w4) -> In ev (w_trace w5)).
  { intros ev. subst w5. destruct (connErr rerr =? 0); [auto |].
    simpl. intros H. apply in_or_app. now left. }
  assert (H5 : forall ev, In ev (w_trace w5) ->
                          In ev (w_trace (returnDeferred env str ctx w5))).
  { intros ev. destruct (returnDeferred_frame env str ctx w5) as (_ & _ & _ & E).
    apply (extends_mono _ _ _ _ E). }
  assert (Hs : streamErr rerr <> 0 -> In (EvCancelWrite str (streamErr rerr)) (w_trace w5)).
  { intros Hne. apply H45. subst w4.
    destruct (streamErr rerr =? 0) eqn:E0; [lia |].
    simpl. apply in_or_app. right. now left. }
  assert (Hc : connErr rerr <> 0 -> In (EvConnClose (connErr rerr) (Some e)) (w_trace w5)).
  { intros Hne. subst w5. destruct (connErr rerr =? 0) eqn:E0; [lia |].
    simpl. apply in_or_app. right. now left. }
  destruct (isGoaway (ctxCause (w_ctxs w5) ctx)); cbv zeta; simpl outcomeWorld;
    (split; [eexists _, _; reflexivity | split; intros Hne; apply H5; auto]).
Qed.

(** C8.  The request is on its stream and its header was written.  If the
    first frame is not a HEADERS frame, [doRequest] reports a
    connection-level [ErrCodeFrameUnexpected]: the call fails and closes the
    connection with that code.  If it is a HEADERS frame longer than
    [maxHeaderBytes], [doRequest] reports a stream-level
    [ErrCodeFrameError]: the call fails and cancels the write side of the
    stream with that code.  If the header block is read but does not
    decode, [doRequest] reports a connection-level
    [ErrCodeGeneralProtocolError]: the call fails and closes the connection
    with that code. *)
Theorem response_header_errors :
  forall (env : roundTripEnv) (reqp : nat) (req : Request)
         (opt : roundTripOptions) (str : StreamID) (w : world),
    writeRequestHeader (requestIO env) = None ->
    let io := requestIO env in
    let reported :=
      snd (fst (doRequest io reqp req str opt (negb (DontCloseRequestStream opt)) w)) in
    let o := requestOnStream env reqp req opt str w in
    (forall f, nextFrame io = Ok f -> (forall L, f <> headersFrame L) ->
       reported = newConnError ErrCodeFrameUnexpected errExpectedHeaders /\
       fails o /\
       In (EvConnClose ErrCodeFrameUnexpected (Some errExpectedHeaders))
          (w_trace (outcomeWorld o))) /\
    (forall L, nextFrame io = Ok (headersFrame L) -> maxHeaderBytes (w_client w) < L ->
       reported = newStreamError ErrCodeFrameError
                    (errHeadersTooLarge L (maxHeaderBytes (w_client w))) /\
       fails o /\
       In (EvCancelWrite str ErrCodeFrameError) (w_trace (outcomeWorld o))) /\
    (forall L e, nextFrame io = Ok (headersFrame L) -> L <= maxHeaderBytes (w_client w) ->
       readFull io = None -> decodeFull io = Err e ->
       reported = newConnError ErrCodeGeneralProtocolError e /\
       fails o /\
       In (EvConnClose ErrCodeGeneralProtocolError (Some e)) (w_trace (outcomeWorld o))).
Proof.
  intros env reqp req opt str w Hw io reported o.
  assert (Hrep : reported = snd (receiveResponse io (w_client w) reqp req
                                   (requestGzip (w_client w) req) str
                                   (negb (DontCloseRequestStream opt)))).
  { subst reported. now rewrite doRequest_result. }
  assert (Hall : forall rerr e,
            snd (receiveResponse io (w_client w) reqp req (requestGzip (w_client w) req)
                   str (negb (DontCloseRequestStream opt))) = rerr ->
            re_err rerr = Some e ->
            reported = rerr /\ fails o /\
            (streamErr rerr <> 0 ->
             In (EvCancelWrite str (streamErr rerr)) (w_trace (outcomeWorld o))) /\
            (connErr rerr <> 0 ->
             In (EvConnClose (connErr rerr) (Some e)) (w_trace (outcomeWorld o)))).
  { intros rerr e Hr He. split; [congruence |].
    destruct (receiveResponse io (w_client w) reqp req (requestGzip (w_client w) req)
                str (negb (DontCloseRequestStream opt))) as [rsp rerr'] eqn:E.
    simpl in Hr. subst rerr'.
    exact (requestOnStream_teardown env reqp req opt str w rsp rerr e Hw E He). }
  split; [| split].
  - intros f Hf Hn.
    destruct (Hall (newConnError ErrCodeFrameUnexpected errExpectedHeaders)
                errExpectedHeaders) as (H1 & H2 & _ & H4); [| reflexivity |].
    + unfold receiveResponse. fold io. rewrite Hf.
      destruct f as [L | L | D O | G]; try reflexivity. now destruct (Hn L).
    + split; [exact H1 |]. split; [exact H2 |]. apply H4. discriminate.
  - intros L Hf Hlt.
    destruct (Hall (newStreamError ErrCodeFrameError
                      (errHeadersTooLarge L (maxHeaderBytes (w_client w))))
                (errHeadersTooLarge L (maxHeaderBytes (w_client w))))
      as (H1 & H2 & H3 & _); [| reflexivity |].
    + unfold receiveResponse. fold io. rewrite Hf.
      replace (L >? maxHeaderBytes (w_client w)) with true by lia. reflexivity.
    + split; [exact H1 |]. split; [exact H2 |]. apply H3. discriminate.
  - intros L e Hf Hle Hrf Hdec.
    destruct (Hall (newConnError ErrCodeGeneralProtocolError e) e)
      as (H1 & H2 & _ & H4); [| reflexivity |].
    + unfold receiveResponse. fold io. rewrite Hf, Hrf, Hdec.
      replace (L >? maxHeaderBytes (w_client w)) with false by lia. reflexivity.
    + split; [exact H1 |]. split; [exact H2 |]. apply H4. discriminate.
Qed.

Lemma response_header_errors_witness :
  In (EvConnClose ErrCodeFrameUnexpected (Some errExpectedHeaders))
     (w_trace (outcomeWorld
        (requestOnStream (envWithIO dataFirstIO) 0 sampleRequest sampleOptions 0 sampleWorld))) /\
  In (EvCancelWrite 0 ErrCodeFrameError)
     (w_trace (outcomeWorld
        (requestOnStream (envWithIO hugeHeadersIO) 0 sampleRequest sampleOptions 0 sampleWorld))) /\
  In (EvConnClose ErrCodeGeneralProtocolError (Some (errOther "decoding error")))
     (w_trace (outcomeWorld
        (requestOnStream (envWithIO badBlockIO) 0 sampleRequest sampleOptions 0 sampleWorld))).
Proof.
  split; [| split].
  - destruct (response_header_errors (envWithIO dataFirstIO) 0%nat sampleRequest
                sampleOptions 0 sampleWorld eq_refl) as (H & _ & _).
    apply (H (dataFrame 3)); [reflexivity | discriminate].
  - destruct (response_header_errors (envWithIO hugeHeadersIO) 0%nat sampleRequest
                sampleOptions 0 sampleWorld eq_refl) as (_ & H & _).
    apply (H (2 ^ 30)); [reflexivity | reflexivity].
  - destruct (response_header_errors (envWithIO badBlockIO) 0%nat sampleRequest
                sampleOptions 0 sampleWorld eq_refl) as (_ & _ & H).
    apply (H 10 (errOther "decoding error")); try reflexivity. discriminate.
Defined.

(** ** Sending the request body *)

Lemma bodyRead_bytes k s d e rest :
  bodyRead k s = (d, e, rest) -> sourceBytes s = d ++ sourceBytes rest.
Proof.
  unfold bodyRead, sourceBytes. destruct s as [| [d0 e0] s]; simpl.
  - intros H. inversion H. reflexivity.
  - destruct (length d0 <=? k)%nat; intros H; inversion H; subst; simpl.
    + reflexivity.
    + now rewrite app_assoc, take_drop.
Qed.

Lemma bodyRead_length k s d e rest :
  bodyRead k s = (d, e, rest) -> (length d <= k)%nat.
Proof.
  unfold bodyRead. destruct s as [| [d0 e0] s]; simpl.
  - intros H. inversion H. simpl. lia.
  - destruct (length d0 <=? k)%nat eqn:E; intros H; inversion H; subst.
    + now apply Nat.leb_le in E.
    + rewrite length_take. lia.
Qed.

(** A [Read] with a buffer that is not empty either finds the body at its
    end, or makes what is left of it smaller. *)
Lemma bodyRead_progress k s d e rest :
  bodyRead k s = (d, e, rest) -> (0 < k)%nat ->
  (s = [] /\ d = [] /\ e = Some ioEOF /\ rest = []) \/
  (sourceSize rest < sourceSize s)%nat.
Proof.
  unfold bodyRead, sourceSize, sourceBytes. destruct s as [| [d0 e0] s]; simpl.
  - intros H _. inversion H. now left.
  - destruct (length d0 <=? k)%nat eqn:E; intros H Hk; inversion H; subst; right; simpl.
    + rewrite length_app. lia.
    + apply Nat.leb_gt in E. rewrite !length_app, length_drop. lia.
Qed.

Lemma bodyRead_clean k s d e rest :
  bodyRead k s = (d, e, rest) -> cleanSource s ->
  cleanSource rest /\ (s <> [] -> e = None).
Proof.
  unfold bodyRead, cleanSource. destruct s as [| [d0 e0] s]; simpl.
  - intros H _. inversion H. split; [constructor | congruence].
  - intros H Hc. inversion Hc as [| ? ? H0 Hs]; subst. simpl in H0. subst e0.
    destruct (length d0 <=? k)%nat; inversion H; subst.
    + split; [exact Hs | reflexivity].
    + split; [constructor; [reflexivity | exact Hs] | reflexivity].
Qed.

Lemma Read_cancelingReader k st :
  Read (cancelingReader bodyReader) k st
  = let '(d, e, rest) := bodyRead k (source st) in
    (d, e, cancelingReader bodyReader,
     if isRealError e
     then CancelWrite ErrCodeRequestCanceled (setSource rest st)
     else setSource rest st).
Proof.
  simpl. destruct (bodyRead k (source st)) as [[d e] rest].
  destruct e as [[] |]; reflexivity.
Qed.

Lemma streamWrite_spec p st :
  let '(nw, ew, st') := streamWrite p st in
  (nw <= length p)%nat /\
  streamData st' = streamData st ++ take nw p /\
  source st' = source st /\
  cancelWrites st' = cancelWrites st /\
  bodyClosed st' = bodyClosed st /\
  (ew = None -> nw = length p) /\
  (forall x, ew = Some x -> exists msg, x = errOther msg).
Proof.
  unfold streamWrite. destruct (cancelWrites st) eqn:Ec.
  - destruct (streamBudget st) as [b |].
    + destruct (length p <=? b)%nat eqn:E; simpl.
      * rewrite firstn_all. repeat split; auto. discriminate.
      * apply Nat.leb_gt in E. repeat split; auto; [lia | discriminate |].
        intros x Hx. inversion Hx. eauto.
    + simpl. rewrite firstn_all. repeat split; auto. discriminate.
  - simpl. rewrite app_nil_r. repeat split; auto; [lia | discriminate |].
    intros x Hx. inversion Hx. eauto.
Qed.

Lemma streamWrite_accepts n p st :
  accepts n st -> Z.of_nat (length p) <= n ->
  exists st',
    streamWrite p st = (length p, None, st') /\
    accepts (n - Z.of_nat (length p)) st'.
Proof.
  unfold accepts, streamWrite. intros [Hc Hb] Hn. rewrite Hc.
  destruct (streamBudget st) as [b |]; simpl in Hb.
  - replace (length p <=? b)%nat with true by (symmetry; apply Nat.leb_le; lia).
    eexists. split; [reflexivity |]. simpl. split; [reflexivity | lia].
  - eexists. split; [reflexivity |]. simpl. auto.
Qed.

Lemma copyBuffer_S f k src written st d er src' st1 nw ew st2 :
  Read src k st = (d, er, src', st1) ->
  (if (0 <? length d)%nat then streamWrite d st1 else (0%nat, None, st1)) = (nw, ew, st2) ->
  copyBuffer (S f) k src written st
  = match ew with
    | Some err => Some (written + Z.of_nat nw, Some err, st2)
    | None =>
        if negb (length d =? nw)%nat
        then Some (written + Z.of_nat nw, Some (errOther "short write"), st2)
        else
          match er with
          | Some ioEOF => Some (written + Z.of_nat nw, None, st2)
          | Some err => Some (written + Z.of_nat nw, Some err, st2)
          | None => copyBuffer f k src' (written + Z.of_nat nw) st2
          end
    end.
Proof.
  intros H1 H2. cbn [copyBuffer]. rewrite H1, H2. reflexivity.
Qed.

Lemma writeStep_spec d st1 nw ew st2 :
  (if (0 <? length d)%nat then streamWrite d st1 else (0%nat, None, st1)) = (nw, ew, st2) ->
  (nw <= length d)%nat /\
  streamData st2 = streamData st1 ++ take nw d /\
  source st2 = source st1 /\
  cancelWrites st2 = cancelWrites st1 /\
  bodyClosed st2 = bodyClosed st1 /\
  (ew = None -> nw = length d) /\
  (forall x, ew = Some x -> exists msg, x = errOther msg).
Proof.
  destruct (0 <? length d)%nat eqn:E.
  - intros H. pose proof (streamWrite_spec d st1) as Hs. rewrite H in Hs. exact Hs.
  - intros H. inversion H; subst. apply Nat.ltb_ge in E.
    simpl. rewrite app_nil_r. repeat split; auto; try lia. discriminate.
Qed.

Lemma Read_limited k N st :
  (0 < k)%nat -> 0 < N ->
  exists k' d e rest,
    (0 < k')%nat /\ Z.of_nat k' <= N /\
    bodyRead k' (source st) = (d, e, rest) /\
    Read (limitedReader (cancelingReader bodyReader) N) k st
    = (d, e, limitedReader (cancelingReader bodyReader) (N - Z.of_nat (length d)),
       if isRealError e
       then CancelWrite ErrCodeRequestCanceled (setSource rest st)
       else setSource rest st).
Proof.
  intros Hk HN.
  set (k' := if Z.of_nat k >? N then Z.to_nat N else k).
  destruct (bodyRead k' (source st)) as [[d e] rest] eqn:Eb.
  exists k', d, e, rest.
  assert (Hk' : (0 < k')%nat /\ Z.of_nat k' <= N).
  { subst k'. destruct (Z.of_nat k >? N) eqn:E; lia. }
  split; [tauto |]. split; [tauto |]. split; [exact Eb |].
  cbn [Read]. replace (N <=? 0) with false by lia. fold k'.
  rewrite Eb. destruct e as [[] |]; reflexivity.
Qed.

Lemma eq_dec_none (e : option error) : e = None \/ e <> None.
Proof. destruct e; [right; discriminate | now left]. Qed.

Lemma consumed_refl st : consumed st st = 0.
Proof. unfold consumed. lia. Qed.

Lemma source_after_read e rest st :
  source (if isRealError e
          then CancelWrite ErrCodeRequestCanceled (setSource rest st)
          else setSource rest st) = rest.
Proof. destruct (isRealError e); reflexivity. Qed.

Lemma streamData_after_read e rest st :
  streamData (if isRealError e
              then CancelWrite ErrCodeRequestCanceled (setSource rest st)
              else setSource rest st) = streamData st.
Proof. destruct (isRealError e); reflexivity. Qed.

Lemma bodyClosed_after_read e rest st :
  bodyClosed (if isRealError e
              then CancelWrite ErrCodeRequestCanceled (setSource rest st)
              else setSource rest st) = bodyClosed st.
Proof. destruct (isRealError e); reflexivity. Qed.

Lemma length_sourceBytes_read k s d e rest :
  bodyRead k s = (d, e, rest) ->
  Z.of_nat (length (sourceBytes s))
  = Z.of_nat (length d) + Z.of_nat (length (sourceBytes rest)).
Proof.
  intros H. rewrite (bodyRead_bytes _ _ _ _ _ H), length_app. lia.
Qed.

Lemma bodyRead_size k s d e rest :
  bodyRead k s = (d, e, rest) -> (0 < k)%nat ->
  (sourceSize rest <= sourceSize s)%nat /\ (e = None -> (sourceSize rest < sourceSize s)%nat).
Proof.
  intros H Hk. destruct (bodyRead_progress _ _ _ _ _ H Hk) as [(-> & _ & -> & ->) | Hlt].
  - split; [lia | discriminate].
  - split; [lia | auto].
Qed.

Section SendRequestBody.

(** [bodyCopyBufferSize] is a constant of another file; [io.CopyBuffer]
    panics on a buffer that is empty. *)
Variable bodyCopyBufferSize : nat.
Hypothesis bufferNotEmpty : (0 < bodyCopyBufferSize)%nat.

(** The first copy of [sendRequestBody], through [io.LimitReader]. *)
Lemma copyBuffer_limited :
  forall fuel N written st,
    (sourceSize (source st) < fuel)%nat ->
    exists written' err st',
      copyBuffer fuel bodyCopyBufferSize
        (limitedReader (cancelingReader bodyReader) N) written st
      = Some (written', err, st') /\
      copied N written written' err st st'.
Proof.
  induction fuel as [| f IH]; intros N written st Hfuel; [lia |].
  destruct (Z.ltb_spec 0 N) as [HN | HN].
  - destruct (Read_limited bodyCopyBufferSize N st bufferNotEmpty HN)
      as (k' & d & e & rest & Hk' & HkN & Hb & Hr).
    set (st1 := if isRealError e
                then CancelWrite ErrCodeRequestCanceled (setSource rest st)
                else setSource rest st) in *.
    destruct (if (0 <? length d)%nat then streamWrite d st1 else (0%nat, None, st1))
      as [[nw ew] st2] eqn:Ew.
    rewrite (copyBuffer_S _ _ _ _ _ _ _ _ _ _ _ _ Hr Ew).
    pose proof Ew as Ew0.
    apply writeStep_spec in Ew as (Hnw & Hdata & Hsrc & Hcw & Hclo & Hfull & Hwerr).
    pose proof (bodyRead_length _ _ _ _ _ Hb) as Hlen.
    pose proof (length_sourceBytes_read _ _ _ _ _ Hb) as Hbytes.
    destruct (bodyRead_size _ _ _ _ _ Hb Hk') as [Hsz Hlt].
    assert (Hs2 : source st2 = rest).
    { rewrite Hsrc. subst st1. apply source_after_read. }
    assert (Hd1 : streamData st1 = streamData st)
      by (subst st1; apply streamData_after_read).
    assert (Hc1 : bodyClosed st1 = bodyClosed st)
      by (subst st1; apply bodyClosed_after_read).
    assert (Hcons : consumed st st2 = Z.of_nat (length d)).
    { unfold consumed. rewrite Hs2. lia. }
    assert (Hpre : take nw (sourceBytes (source st)) = take nw d).
    { rewrite (bodyRead_bytes _ _ _ _ _ Hb). now apply take_app_le. }
    assert (Hce : cleanSource (source st) ->
              cleanSource rest /\ (e = None \/ (e = Some ioEOF /\ rest = []))).
    { intros Hclean.
      destruct (bodyRead_clean _ _ _ _ _ Hb Hclean) as [Hcr Hne].
      split; [exact Hcr |].
      destruct (source st) as [| c s] eqn:Es.
      - right. simpl in Hb. now inversion Hb.
      - left. now apply Hne. }
    assert (Hcl : cleanSource (source st) -> accepts (Z.max N 0) st ->
              ew = None /\ accepts (Z.max (N - Z.of_nat (length d)) 0) st2 /\
              (e = None \/ (e = Some ioEOF /\ rest = []))).
    { intros Hclean Hacc.
      destruct (Hce Hclean) as [Hcr He].
      assert (Hst1 : st1 = setSource rest st).
      { subst st1. destruct He as [-> | [-> _]]; reflexivity. }
      assert (Hacc1 : accepts (Z.max N 0) st1) by (rewrite Hst1; exact Hacc).
      destruct (0 <? length d)%nat eqn:E0.
      - destruct (streamWrite_accepts _ d st1 Hacc1) as (st2' & Hw & Ha); [lia |].
        rewrite Hw in Ew0. injection Ew0 as Hn' He' Hs'.
        rewrite <- He', <- Hs'.
        split; [reflexivity |]. split; [| tauto].
        destruct Ha as [Ha1 Ha2]. split; [exact Ha1 |].
        destruct (streamBudget st2'); [lia | exact I].
      - injection Ew0 as Hn' He' Hs'. rewrite <- He', <- Hs'.
        apply Nat.ltb_ge in E0.
        split; [reflexivity |]. split; [| tauto].
        destruct Hacc1 as [Ha1 Ha2]. split; [exact Ha1 |].
        destruct (streamBudget st1); [lia | exact I]. }
    clear Ew0.
    assert (Hstop : forall err, (err = None -> nw = length d /\ isRealError e = false) ->
              (ew = None -> e = Some ioEOF -> err = None) ->
              e <> None ->
              (err = ew \/ (err = e /\ isRealError e = true) \/ err = None) ->
              copied N written (written + Z.of_nat nw) err st st2).
    { intros err Herr Hgood Hne Hfrom. constructor.
      - rewrite Hcons. lia.
      - rewrite Hcons. lia.
      - now rewrite Hs2.
      - replace (written + Z.of_nat nw - written) with (Z.of_nat nw) by lia.
        rewrite Nat2Z.id, Hpre, Hdata, Hd1. reflexivity.
      - congruence.
      - intros He. destruct (Herr He) as [Hn Hre]. split; [rewrite Hcons; lia |].
        rewrite Hcw. subst st1. now rewrite Hre.
      - intros Hclean. rewrite Hs2. now apply Hce.
      - intros Hclean Hacc. destruct (Hcl Hclean Hacc) as (H1 & _ & [H4 | [H4 H5]]);
          [contradiction |].
        split; [now apply Hgood | right; now rewrite Hs2].
      - intros x Hx Hclean. destruct Hfrom as [-> | [[-> Hre] | ->]].
        + now apply Hwerr.
        + destruct (Hce Hclean) as [_ [H | [H _]]]; rewrite H in Hre; discriminate.
        + discriminate. }
    destruct ew as [err |].
    { destruct (eq_dec_none e) as [He | He].
      - eexists _, _, _. split; [reflexivity |].
        subst e. constructor.
        + rewrite Hcons. lia.
        + rewrite Hcons. lia.
        + now rewrite Hs2.
        + replace (written + Z.of_nat nw - written) with (Z.of_nat nw) by lia.
          rewrite Nat2Z.id, Hpre, Hdata, Hd1. reflexivity.
        + congruence.
        + discriminate.
        + intros Hclean. rewrite Hs2. now apply Hce.
        + intros Hclean Hacc. destruct (Hcl Hclean Hacc) as (H1 & _). discriminate.
        + intros x Hx _. now apply Hwerr.
      - eexists _, _, _. split; [reflexivity |].
        apply Hstop; try discriminate; auto. }
    specialize (Hfull eq_refl). subst nw. rewrite Nat.eqb_refl. simpl negb. cbv iota.
    destruct e as [e |].
    + destruct e; (eexists _, _, _; split; [reflexivity |]; apply Hstop);
        try discriminate; auto;
        try (right; left; split; reflexivity).
    + destruct (IH (N - Z.of_nat (length d)) (written + Z.of_nat (length d)) st2)
        as (written' & err & st' & Hcopy & [Cw Cl Cs Cd Cc Co Ck Cn Ce]).
      { rewrite Hs2. specialize (Hlt eq_refl). lia. }
      exists written', err, st'. split; [exact Hcopy |].
      assert (Hc' : consumed st st' = Z.of_nat (length d) + consumed st2 st').
      { unfold consumed in *. rewrite Hs2. lia. }
      constructor.
      * rewrite Hc'. lia.
      * rewrite Hc'. lia.
      * rewrite Hs2 in Cs. lia.
      * rewrite Cd, Hdata, Hd1, Hs2, firstn_all, <- app_assoc. f_equal.
        rewrite (bodyRead_bytes _ _ _ _ _ Hb).
        replace (Z.to_nat (written' - written))
          with (length d + Z.to_nat (written' - (written + Z.of_nat (length d))))%nat by lia.
        now rewrite take_app_add.
      * congruence.
      * intros He. destruct (Co He) as [Ha Hb']. split; [rewrite Hc'; lia |].
        rewrite Hb', Hcw. reflexivity.
      * intros Hclean. apply Ck. rewrite Hs2. now apply Hce.
      * intros Hclean Hacc. destruct (Hcl Hclean Hacc) as (_ & H2 & _).
        destruct (Cn (eq_ind_r cleanSource (proj1 (Hce Hclean)) Hs2) H2) as [E1 E2].
        split; [exact E1 |]. destruct E2 as [E2 | E2]; [left | now right].
        rewrite Hc', E2. lia.
      * intros x Hx Hclean. apply (Ce x Hx). rewrite Hs2. now apply Hce.
  - assert (Hr : Read (limitedReader (cancelingReader bodyReader) N) bodyCopyBufferSize st
                 = ([], Some ioEOF, limitedReader (cancelingReader bodyReader) N, st)).
    { cbn [Read]. now replace (N <=? 0) with true by lia. }
    rewrite (copyBuffer_S _ _ _ _ _ _ _ _ _ 0%nat None st Hr eq_refl). simpl.
    eexists _, _, _. split; [reflexivity |].
    replace (written + Z.of_nat 0) with written by lia.
    constructor; rewrite ?consumed_refl, ?Z.sub_diag; try lia; auto;
      try discriminate.
    + simpl. now rewrite app_nil_r.
    + intros _ _. split; [reflexivity | left; lia].
Qed.

(** The second copy of [sendRequestBody], into [io.Discard]: it counts the
    bytes it takes from the body and writes nothing; on a clean body it
    takes all that is left and reports no error. *)
Lemma discardReadFrom_spec : forall fuel n st,
  (sourceSize (source st) < fuel)%nat ->
  exists n' err st',
    discardReadFrom fuel (cancelingReader bodyReader) n st = Some (n', err, st') /\
    n' - n = consumed st st' /\ 0 <= consumed st st' /\
    streamData st' = streamData st /\
    bodyClosed st' = bodyClosed st /\
    (err = None -> cancelWrites st' = cancelWrites st) /\
    (cleanSource (source st) -> err = None /\ sourceBytes (source st') = []).
Proof.
  induction fuel as [| f IH]; intros n st Hfuel; [lia |].
  cbn [discardReadFrom]. rewrite Read_cancelingReader.
  destruct (bodyRead discardBufferSize (source st)) as [[d e] rest] eqn:Hb.
  assert (HK : (0 < discardBufferSize)%nat) by (unfold discardBufferSize; lia).
  pose proof (length_sourceBytes_read _ _ _ _ _ Hb) as Hbytes.
  destruct (bodyRead_size _ _ _ _ _ Hb HK) as [Hsz Hlt].
  set (st1 := if isRealError e
              then CancelWrite ErrCodeRequestCanceled (setSource rest st)
              else setSource rest st).
  assert (Hs1 : source st1 = rest) by (subst st1; apply source_after_read).
  assert (Hd1 : streamData st1 = streamData st)
    by (subst st1; apply streamData_after_read).
  assert (Hc1 : bodyClosed st1 = bodyClosed st)
    by (subst st1; apply bodyClosed_after_read).
  assert (Hcons : consumed st st1 = Z.of_nat (length d)).
  { unfold consumed. rewrite Hs1. lia. }
  assert (Hcl : cleanSource (source st) ->
            cleanSource rest /\ (e = None \/ (e = Some ioEOF /\ rest = []))).
  { intros Hclean. destruct (bodyRead_clean _ _ _ _ _ Hb Hclean) as [Hcr Hne].
    split; [exact Hcr |].
    destruct (source st) as [| c s] eqn:Es.
    - right. simpl in Hb. now inversion Hb.
    - left. now apply Hne. }
  destruct e as [e |].
  - assert (Hstop : forall err : option error,
              (err = None -> isRealError (Some e) = false) ->
              (e = ioEOF -> err = None) ->
              n + Z.of_nat (length d) - n = consumed st st1 /\ 0 <= consumed st st1 /\
              streamData st1 = streamData st /\ bodyClosed st1 = bodyClosed st /\
              (err = None -> cancelWrites st1 = cancelWrites st) /\
              (cleanSource (source st) -> err = None /\ sourceBytes (source st1) = [])).
    { intros err Herr Heof. rewrite Hcons.
      split; [lia |]. split; [lia |]. split; [exact Hd1 |]. split; [exact Hc1 |].
      split.
      - intros He. subst st1. now rewrite (Herr He).
      - intros Hclean. destruct (Hcl Hclean) as [_ [H | [H ->]]]; [discriminate |].
        inversion H; subst e. split; [now apply Heof | now rewrite Hs1]. }
    destruct e; (eexists _, _, _; split; [reflexivity |]; apply Hstop);
      try discriminate; auto.
  - destruct (IH (n + Z.of_nat (length d)) st1) as (n' & err & st' & Hrun & H).
    { rewrite Hs1. specialize (Hlt eq_refl). lia. }
    destruct H as (Hn & Hpos & Hdata & Hclo & Hok & Hclean').
    exists n', err, st'. split; [exact Hrun |].
    assert (Hc' : consumed st st' = Z.of_nat (length d) + consumed st1 st').
    { unfold consumed in *. rewrite Hs1. lia. }
    rewrite Hc'. split; [lia |]. split; [lia |].
    split; [congruence |]. split; [congruence |]. split.
    + intros He. rewrite (Hok He). reflexivity.
    + intros Hclean. destruct (Hcl Hclean) as [Hcr _].
      apply Hclean'. now rewrite Hs1.
Qed.


Lemma readBound_enough s : (sourceSize s < readBound s)%nat.
Proof. unfold readBound, sourceSize, sourceBytes. lia. Qed.



End SendRequestBody.


(** The copy of the body of five bytes on a stream that takes them, with a
    declared length of 3 and of 5. *)
Example sendRequestBody_too_long :
  sendRequestBody 2 3 fiveBytes
  = Some (Some (errContentLength 3 5),
          mkBodyState [] true [Byte.x01; Byte.x02; Byte.x03] None [ErrCodeRequestCanceled]).
Proof. vm_compute. reflexivity. Qed.

Example sendRequestBody_as_declared :
  sendRequestBody 2 5 fiveBytes
  = Some (None,
          mkBodyState [] true [Byte.x01; Byte.x02; Byte.x03; Byte.x04; Byte.x05] None []).
Proof. vm_compute. reflexivity. Qed.


(** ** The registry stays in order

    The hypothesis of the property of the GOAWAY loop, that every
    registered request has a handle of its own, holds in every world the
    client builds: it holds for the empty registry of a new client, and the
    registration, the control-stream reader and the whole call keep it. *)

Lemma registryOK_empty c s r b t :
  runningCtx c = ∅ -> registryOK (mkWorld c s r b t).
Proof.
  intros H. split; simpl; rewrite H.
  - intros i j h Hi. now rewrite lookup_empty in Hi.
  - intros id h Hi. now rewrite lookup_empty in Hi.
Qed.

Lemma registryOK_same w w' :
  runningCtx (w_client w') = runningCtx (w_client w) ->
  (length (w_ctxs w) <= length (w_ctxs w'))%nat ->
  registryOK w -> registryOK w'.
Proof.
  intros Hr Hl [Hi Hb]. split; rewrite Hr; [exact Hi |].
  intros id h H. specialize (Hb id h H). lia.
Qed.

Lemma registerContext_OK req sid w :
  registryOK w ->
  registryOK (snd (registerContext req sid w)) /\
  runningCtx (w_client (snd (registerContext req sid w))) !! sid = Some (length (w_ctxs w)) /\
  fst (registerContext req sid w) = length (w_ctxs w).
Proof.
  intros [Hi Hb]. unfold registerContext, withCancelCause. simpl.
  split; [| split; [apply lookup_insert_eq | reflexivity]].
  split; simpl.
  - intros i j h. rewrite !lookup_insert. intros H1 H2.
    repeat case_decide; try congruence;
      try (assert (h = length (w_ctxs w)) by congruence;
           match goal with
           | H : runningCtx _ !! _ = Some _ |- _ => apply Hb in H
           end; lia).
    eapply Hi; eauto.
  - intros i h. rewrite lookup_insert, length_app. simpl. intros H.
    case_decide.
    + assert (h = length (w_ctxs w)) by congruence. lia.
    + apply Hb in H. lia.
Qed.

Lemma controlStep_registry lastID r w :
  runningCtx (w_client (stepWorld (controlStep lastID r w))) = runningCtx (w_client w).
Proof.
  destruct r as [[L | L | D O | G] | e]; simpl; try reflexivity.
  destruct (goawayInvalid (w_client w) lastID G); simpl; [reflexivity |].
  now rewrite w_client_cancelFrom.
Qed.

Lemma applyActions_registry acts : forall w,
  runningCtx (w_client (applyActions acts w)) = runningCtx (w_client w).
Proof.
  induction acts as [| a acts IH]; intros w; [reflexivity |].
  unfold applyActions in *. simpl. rewrite IH.
  destruct a as [h e | r]; simpl; [reflexivity |].
  destruct (w_ctrlStopped w); [reflexivity |].
  pose proof (controlStep_registry 0 r w) as H.
  destruct (controlStep 0 r w); exact H.
Qed.

(** The reader of the control stream works on a registry that is in order,
    whatever else has happened before. *)
Lemma applyActions_registryOK acts w :
  registryOK w -> registryOK (applyActions acts w).
Proof.
  apply registryOK_same; [apply applyActions_registry |].
  destruct (applyActions_frame acts w) as (_ & L & _). simpl in L. lia.
Qed.

Lemma registryOK_delete id w m :
  runningCtx (w_client w) = delete id m ->
  registryInjective m ->
  (forall i h, m !! i = Some h -> (h < length (w_ctxs w))%nat) ->
  registryOK w.
Proof.
  intros Hr Hi Hb. split; rewrite Hr.
  - intros i j h H1 H2. apply lookup_delete_Some in H1 as [_ H1].
    apply lookup_delete_Some in H2 as [_ H2]. eapply Hi; eauto.
  - intros i h H. apply lookup_delete_Some in H as [_ H]. eauto.
Qed.

Lemma requestOnStream_registryOK env reqp req opt str w :
  registryOK w -> registryOK (outcomeWorld (requestOnStream env reqp req opt str w)).
Proof.
  intros Hok.
  destruct (registerContext_OK req str w Hok) as ([Hi Hb] & _ & Hctx).
  unfold requestOnStream.
  destruct (registerContext req str w) as [ctx w0] eqn:Er. simpl in Hi, Hb, Hctx.
  set (w0' := emit (EvGo (goCancelWatcher (Ctx req) str)) _).
  destruct (doRequest (requestIO env) reqp req str opt
              (negb (DontCloseRequestStream opt)) w0') as [[rsp rerr] w1] eqn:Hd.
  apply doRequest_spec in Hd. destruct Hd as (C1 & S1 & _).
  pose proof (applyActions_registry (whileRequest env) w1) as R2.
  destruct (applyActions_frame (whileRequest env) w1) as (_ & L2 & _).
  set (w2 := applyActions (whileRequest env) w1) in *.
  assert (Hfin : forall w5, w_client w5 = w_client w2 -> w_ctxs w5 = w_ctxs w2 ->
            registryOK (returnDeferred env str ctx w5)).
  { intros w5 H5 H5'. unfold returnDeferred.
    pose proof (applyActions_registry (beforeCleanup env) w5) as R6.
    destruct (applyActions_frame (beforeCleanup env) w5) as (_ & L6 & _).
    set (w6 := applyActions (beforeCleanup env) w5) in *.
    apply (registryOK_delete str _ (runningCtx (w_client w0))).
    - simpl. now rewrite R6, H5, R2, C1.
    - exact Hi.
    - intros i h H. apply Hb in H.
      destruct (deferredCleanup_frame str ctx w6) as (_ & L & _).
      rewrite L, L6, H5', L2, S1. exact H. }
  destruct (re_err rerr).
  - destruct (joinCancelWatcher_frame env (Ctx req) str w2 req) as (_ & C3 & K3 & _).
    set (w3 := joinCancelWatcher env (Ctx req) str w2) in *.
    destruct (isGoaway _); simpl; apply Hfin;
      destruct (connErr rerr =? 0), (streamErr rerr =? 0); simpl; assumption.
  - simpl. apply Hfin; destruct (DontCloseRequestStream opt); try reflexivity;
      apply (joinCancelWatcher_frame env (Ctx req) str w2 req).
Qed.

Lemma settingsAndStream_registryOK env reqp req opt w :
  registryOK w -> registryOK (outcomeWorld (settingsAndStream env reqp req opt w)).
Proof.
  intros Hok. unfold settingsAndStream.
  assert (Hopen : forall w1, registryOK w1 ->
            registryOK (outcomeWorld
              (let w2 := emit (EvOpenStream (openStreamSync env)) w1 in
               match openStreamSync env with
               | Ok str => requestOnStream env reqp req opt str w2
               | Err err => Returns None (Some err) w2
               end))).
  { intros w1 H1. cbv zeta. destruct (openStreamSync env) as [str | err].
    - apply requestOnStream_registryOK. exact H1.
    - exact H1. }
  destruct (CheckSettings opt) as [check |]; [| now apply Hopen].
  destruct (settingsArrive env) as [[settings | cause] |]; try exact Hok.
  destruct (check settings); [exact Hok | now apply Hopen].
Qed.

(** A call leaves the registry in order. *)
Lemma RoundTripOpt_registryOK env reqp opt w :
  registryOK w -> registryOK (outcomeWorld (RoundTripOpt env reqp opt w)).
Proof.
  intros Hok. rewrite RoundTripOpt_world.
  assert (Hrt : registryOK (outcomeWorld (roundTripOpt env reqp opt w))).
  { unfold roundTripOpt. destruct (w_reqs w !! reqp) as [req |]; [| exact Hok].
    destruct (negb _); [exact Hok |].
    assert (H1 : registryOK (dialOnce env (Ctx req) w)).
    { apply (registryOK_same w); [| | exact Hok];
        unfold dialOnce, dial; destruct (dialed (w_client w)); try reflexivity;
        destruct (dialResult env); simpl; try reflexivity;
        destruct (StreamHijacker (opts (w_client w))); reflexivity. }
    set (w1 := dialOnce env (Ctx req) w) in *.
    destruct (handshakeErr (w_client w1)); [exact H1 |].
    destruct (receivedGoaway (w_client w1)); [exact H1 |].
    destruct (Method req =? MethodGet0RTT)%string;
      [apply settingsAndStream_registryOK; exact H1 |].
    destruct (Method req =? MethodHead0RTT)%string;
      [apply settingsAndStream_registryOK; exact H1 |].
    unfold waitForHandshake.
    assert (H2 : registryOK (applyActions (whileHandshake env) (emit EvWaitHandshake w1)))
      by (apply applyActions_registryOK; exact H1).
    destruct (handshakeCompletes env), (ctxErr _ _);
      try destruct (selectPrefersCtx env); simpl;
      first [exact H2 | apply settingsAndStream_registryOK; exact H2]. }
  destruct (roundTripOpt env reqp opt w); try exact Hrt.
  now apply applyActions_registryOK.
Qed.

(** ** Goroutines of a request *)

(** The length handed to [sendRequestBody] is the declared one when that is
    positive, and -1 (unknown) otherwise. *)
Lemma bodyContentLength_declared req :
  (0 < ReqContentLength req -> bodyContentLength req = ReqContentLength req) /\
  (ReqContentLength req <= 0 -> bodyContentLength req = -1).
Proof.
  unfold bodyContentLength. split; intros H.
  - now replace (ReqContentLength req >? 0) with true by lia.
  - now replace (ReqContentLength req >? 0) with false by lia.
Qed.

(** A request with a body whose header was written starts the goroutine
    that sends the body, with that length. *)
Lemma doRequest_starts_body_sender io reqp req str opt reqDone w body :
  writeRequestHeader io = None -> Body req = Some body ->
  In (EvGo (goSendRequestBody str body (bodyContentLength req)
              (negb (DontCloseRequestStream opt))))
     (w_trace (snd (doRequest io reqp req str opt reqDone w))).
Proof.
  intros Hw Hb. unfold doRequest. rewrite Hw, Hb.
  destruct (receiveResponse _ _ _ _ _ _ _). simpl.
  apply in_or_app. left. apply in_or_app. right. now left.
Qed.

(** The goroutine that watches the derived context cancels both sides of
    the stream when the goaway error is the cause, and does nothing when the
    context was canceled for another reason, as by the deferred
    [cancel(nil)]. *)
Lemma goawayWatcher_cancels ctx str w :
  (ctxCause (w_ctxs w) ctx = Some errGoaway ->
   w_trace (goawayWatcher ctx str w)
   = w_trace w ++ [EvCancelWrite str ErrCodeRequestCanceled;
                   EvCancelRead str ErrCodeRequestCanceled]) /\
  (ctxCause (w_ctxs w) ctx <> Some errGoaway -> goawayWatcher ctx str w = w).
Proof.
  unfold goawayWatcher. split; intros H.
  - rewrite H. simpl. now rewrite <- app_assoc.
  - destruct (isGoaway (ctxCause (w_ctxs w) ctx)) eqn:E; [| reflexivity].
    apply isGoaway_true in E. contradiction.
Qed.

Example maxHeaderBytes_default :
  maxHeaderBytes sampleClient = 10485760 /\
  maxHeaderBytes (mkClient "example.com:443" (mkOpts false false 4096 [] false)
                    true None false ∅) = 4096.
Proof. split; reflexivity. Qed.

(** ** More on the control-stream loop *)

(** After the first GOAWAY the loop accepted, the flag is set in the world
    the rest of the stream is read in. *)
Lemma accepted_first lastID rs : forall w first rest,
  acceptedGoaways lastID rs w = first :: rest ->
  exists post w1,
    rest = acceptedGoaways lastID post w1 /\ receivedGoaway (w_client w1) = true.
Proof.
  induction rs as [| r rs IH]; intros w first rest; simpl; [discriminate |].
  destruct (controlStep lastID r w) as [w' | w' why] eqn:E; [| discriminate].
  destruct r as [[L | L | D O | G] | e]; simpl; try (apply IH).
  intros H. inversion H; subst. exists rs, w'. split; [reflexivity |].
  eapply controlStep_sets_flag; eauto.
Qed.

Lemma accepted_zero rs w :
  receivedGoaway (w_client w) = true ->
  Forall (fun id => id = 0) (acceptedGoaways 0 rs w).
Proof.
  intros Hf.
  pose proof (accepted_valid rs 0 w) as Hv.
  pose proof (accepted_below_lastID rs 0 w Hf) as Hb.
  rewrite Forall_forall in *. intros x Hx.
  specialize (Hv x Hx). specialize (Hb x Hx). simpl in *. lia.
Qed.

(** X1.  [lastID] is declared at line 172 and never assigned, so the guard
    of line 182 compares every GOAWAY after the first with 0: once a GOAWAY
    was received, the loop accepts id 0 only.  Every id accepted after the
    first one is 0, and a GOAWAY with another id, a smaller one too, makes
    the loop close the connection with [ErrCodeIDError] and return. *)
Theorem readControlStream_later_goaway_zero :
  forall (rs : list (res frame)) (w : world),
    (receivedGoaway (w_client w) = true ->
     Forall (fun id => id = 0) (acceptedGoaways 0 rs w)) /\
    (forall first rest,
        acceptedGoaways 0 rs w = first :: rest -> Forall (fun id => id = 0) rest) /\
    (forall pre ID post w1,
        rs = pre ++ Ok (goawayFrame ID) :: post ->
        controlPrefix 0 pre w = Some w1 ->
        receivedGoaway (w_client w1) = true ->
        ID <> 0 ->
        readControlStream rs w
        = (emit (EvConnClose ErrCodeIDError None) w1, ExitIDError, post)).
Proof.
  intros rs w. split; [apply accepted_zero |]. split.
  - intros first rest H.
    apply accepted_first in H as (post & w1 & -> & Hf).
    now apply accepted_zero.
  - intros pre ID post w1 -> Hpre Hf Hne.
    unfold readControlStream. rewrite (controlLoop_app _ _ _ _ _ _ Hpre). simpl.
    rewrite goawayInvalid_true; [reflexivity |].
    destruct (Z.lt_trichotomy ID 0) as [H | [H | H]]; [now left | contradiction |].
    right; right. split; [exact Hf | exact H].
Qed.

Lemma readControlStream_later_goaway_zero_witness :
  acceptedGoaways 0 [Ok (goawayFrame 8); Ok (goawayFrame 0); Ok (goawayFrame 0)] sampleWorld
  = [8; 0; 0] /\
  readControlStream [Ok (goawayFrame 8); Ok (goawayFrame 4)] sampleWorld
  = (emit (EvConnClose ErrCodeIDError None)
       (setClient (storeReceivedGoaway true sampleClient) sampleWorld),
     ExitIDError, []).
Proof.
  destruct (readControlStream_later_goaway_zero
              [Ok (goawayFrame 8); Ok (goawayFrame 4)] sampleWorld) as (_ & _ & H).
  split; [reflexivity |].
  apply (H [Ok (goawayFrame 8)] 4 []
           (setClient (storeReceivedGoaway true sampleClient) sampleWorld));
    try reflexivity.
  discriminate.
Defined.

Lemma cancelEvents_goawayOrLog G l : Forall goawayOrLog (cancelEvents G l).
Proof.
  apply Forall_forall. intros e He. apply list_elem_of_In in He.
  unfold cancelEvents in He. apply in_flat_map in He as [x [_ He]].
  destruct (fst x >=? G); [| destruct He].
  destruct He as [<- | []]. exact I.
Qed.

(** An iteration of the loop that goes on to the next one. *)
Lemma controlStep_continue lastID r w w' :
  controlStep lastID r w = Continue w' ->
  clientFixed (w_client w) (w_client w') /\
  runningCtx (w_client w') = runningCtx (w_client w) /\
  w_reqs w' = w_reqs w /\
  (receivedGoaway (w_client w) = true -> receivedGoaway (w_client w') = true) /\
  extends goawayOrLog w w'.
Proof.
  destruct r as [[L | L | D O | G] | e]; simpl; try discriminate;
    try (intros H; inversion H; subst; simpl;
         repeat split; auto; apply extends_emit; exact I).
  destruct (goawayInvalid (w_client w) lastID G); [discriminate |].
  intros H. inversion H; subst. rewrite w_client_cancelFrom, w_reqs_cancelFrom. simpl.
  repeat split; auto.
  exists (cancelEvents G (map_to_list (runningCtx (w_client w)))).
  split; [now rewrite w_trace_cancelFrom | apply cancelEvents_goawayOrLog].
Qed.

(** An iteration of the loop that returns. *)
Lemma controlStep_stop lastID r w w' why :
  controlStep lastID r w = Stop w' why ->
  w' = emit (match why with
             | ExitIDError => EvConnClose ErrCodeIDError None
             | ExitParseError _ => EvLog "Error reading control stream"
             end) w.
Proof.
  destruct r as [[L | L | D O | G] | e]; simpl; try discriminate.
  - destruct (goawayInvalid (w_client w) lastID G); [| discriminate].
    intros H. inversion H; subst. reflexivity.
  - intros H. inversion H; subst. reflexivity.
Qed.

Lemma controlLoop_frame lastID rs : forall w,
  let '(w', why, rest) := controlLoop lastID rs w in
  clientFixed (w_client w) (w_client w') /\
  runningCtx (w_client w') = runningCtx (w_client w) /\
  w_reqs w' = w_reqs w /\
  (receivedGoaway (w_client w) = true -> receivedGoaway (w_client w') = true) /\
  (exists pre, rs = pre ++ rest) /\
  exists evs,
    Forall goawayOrLog evs /\
    w_trace w' = w_trace w ++ evs ++
                 [match why with
                  | ExitIDError => EvConnClose ErrCodeIDError None
                  | ExitParseError _ => EvLog "Error reading control stream"
                  end].
Proof.
  induction rs as [| r rs IH]; intros w; simpl.
  - repeat split; auto. { now exists []. }
    exists []. split; [constructor | reflexivity].
  - destruct (controlStep lastID r w) as [w1 | w1 why1] eqn:E.
    + apply controlStep_continue in E as ((H1 & H2 & H3 & H4) & R1 & Q1 & F1 & [ev1 [T1 A1]]).
      specialize (IH w1).
      destruct (controlLoop lastID rs w1) as [[w' why] rest].
      destruct IH as ((K1 & K2 & K3 & K4) & R2 & Q2 & F2 & [pre Hpre] & [ev2 [A2 T2]]).
      split; [repeat split; congruence |].
      split; [congruence |]. split; [congruence |]. split; [auto |].
      split; [exists (r :: pre); now rewrite Hpre |].
      exists (ev1 ++ ev2). split; [apply Forall_app; now split |].
      now rewrite T2, T1, <- !app_assoc.
    + apply controlStep_stop in E. subst w1. simpl.
      repeat split; auto. { now exists [r]. }
      exists []. split; [constructor | reflexivity].
Qed.

(** X2.  What [readControlStream] does and what it leaves alone, for every
    stream of parse results.  It returns.  Until then it only logs and calls
    [cancel(errGoaway)]; its last action is to close the connection with
    [ErrCodeIDError] if it stops on a GOAWAY it refuses, and to log the
    error if it stops because parsing failed: a parse error never closes the
    connection.  It does not touch the registry, the fields of the client
    that the dial set, or the requests, it never clears the flag that a
    GOAWAY was received, and what it leaves unread is the end of the stream. *)
Theorem readControlStream_effects :
  forall (rs : list (res frame)) (w : world),
    let '(w', why, rest) := readControlStream rs w in
    clientFixed (w_client w) (w_client w') /\
    runningCtx (w_client w') = runningCtx (w_client w) /\
    w_reqs w' = w_reqs w /\
    (receivedGoaway (w_client w) = true -> receivedGoaway (w_client w') = true) /\
    (exists pre, rs = pre ++ rest) /\
    exists evs,
      Forall goawayOrLog evs /\
      w_trace w' = w_trace w ++ evs ++
                   [match why with
                    | ExitIDError => EvConnClose ErrCodeIDError None
                    | ExitParseError _ => EvLog "Error reading control stream"
                    end].
Proof.
  intros rs w. unfold readControlStream. apply controlLoop_frame.
Qed.

(** ** A GOAWAY and the goroutine that watches the context of a request *)

(** A [cancel(errGoaway)] leaves a context that is not done as it is, or
    records the goaway error as its cause. *)
Lemma cancelCtx_goaway_cause h' h s :
  ctxErr s h = None ->
  ctxErr (cancelCtx h' ctxCanceled errGoaway s) h = None \/
  ctxCause (cancelCtx h' ctxCanceled errGoaway s) h = Some errGoaway.
Proof.
  intros Hn. unfold cancelCtx. destruct (ctxErr s h'); [now left |].
  unfold ctxErr, ctxCause in *. rewrite list_lookup_imap.
  destruct (s !! h) as [r |]; simpl; [| now left].
  destruct (Nat.eqb h h' || isChildOf h' r); [| now left].
  right. unfold markCanceled. rewrite Hn. reflexivity.
Qed.

Lemma cancelFrom_goaway_cause G l : forall w h,
  ctxErr (w_ctxs w) h = None \/ ctxCause (w_ctxs w) h = Some errGoaway ->
  ctxErr (w_ctxs (foldl (cancelFrom G) w l)) h = None \/
  ctxCause (w_ctxs (foldl (cancelFrom G) w l)) h = Some errGoaway.
Proof.
  induction l as [| e l IH]; intros w h H; simpl; [exact H |].
  apply IH. unfold cancelFrom. destruct (fst e >=? G); [| exact H]. simpl.
  destruct H as [H | H].
  - now apply cancelCtx_goaway_cause.
  - destruct (ctxErr (w_ctxs w) h) as [x |] eqn:Ex.
    + right. unfold cancelCause.
      erewrite ctxCause_cancelCtx_keeps; [exact H | exact Ex].
    + now apply cancelCtx_goaway_cause.
Qed.

(** An accepted GOAWAY records the goaway error as the cause of the
    context of a registered request it covers, if that was not done. *)
Lemma controlStep_goaway_cause lastID G sid h w w' :
  controlStep lastID (Ok (goawayFrame G)) w = Continue w' ->
  runningCtx (w_client w) !! sid = Some h ->
  (h < length (w_ctxs w))%nat ->
  G <= sid ->
  ctxErr (w_ctxs w) h = None ->
  ctxErr (w_ctxs w') h <> None /\ ctxCause (w_ctxs w') h = Some errGoaway.
Proof.
  intros Hstep Hreg Hlt HG Hn.
  apply controlStep_goaway in Hstep as [_ ->].
  set (w0 := setClient (storeReceivedGoaway true (w_client w)) w).
  set (l := map_to_list (runningCtx (w_client w))).
  assert (Hin : In (sid, h) l).
  { subst l. now apply list_elem_of_In, elem_of_map_to_list. }
  pose proof (ctxErr_cancelFrom_done G l w0 sid h Hin HG Hlt) as Hd.
  split; [exact Hd |].
  destruct (cancelFrom_goaway_cause G l w0 h (or_introl Hn)) as [H | H]; [| exact H].
  contradiction.
Qed.

(** X3.  From the GOAWAY to the stream.  The loop accepts a GOAWAY with id
    [G] while a request is registered on a stream with an id of [G] or more.
    If the context of the request was not done, it is done now with the
    goaway error as its cause, so the goroutine of lines 334-340 cancels
    both sides of the stream with [ErrCodeRequestCanceled].  If it was done
    already (the caller had canceled, or the call had returned), its cause
    stays what it was, and unless that was the goaway error the goroutine
    leaves the stream alone: the first cancellation wins. *)
Theorem goaway_reaches_stream :
  forall (lastID G sid : StreamID) (h : nat) (str : StreamID) (w w' : world),
    controlStep lastID (Ok (goawayFrame G)) w = Continue w' ->
    runningCtx (w_client w) !! sid = Some h ->
    (h < length (w_ctxs w))%nat ->
    G <= sid ->
    (ctxErr (w_ctxs w) h = None ->
     ctxCause (w_ctxs w') h = Some errGoaway /\
     w_trace (goawayWatcher h str w')
     = w_trace w' ++ [EvCancelWrite str ErrCodeRequestCanceled;
                      EvCancelRead str ErrCodeRequestCanceled]) /\
    (forall x, ctxErr (w_ctxs w) h = Some x ->
       ctxCause (w_ctxs w') h = ctxCause (w_ctxs w) h /\
       (ctxCause (w_ctxs w) h <> Some errGoaway -> goawayWatcher h str w' = w')).
Proof.
  intros lastID G sid h str w w' Hstep Hreg Hlt HG.
  split.
  - intros Hn.
    destruct (controlStep_goaway_cause _ _ _ _ _ _ Hstep Hreg Hlt HG Hn) as [_ Hc].
    split; [exact Hc |].
    destruct (goawayWatcher_cancels h str w') as [Hw _]. now apply Hw.
  - intros x Hx.
    destruct (controlStep_frame lastID (Ok (goawayFrame G)) w) as (_ & _ & K & _).
    rewrite Hstep in K. simpl in K. destruct (K h x Hx) as [_ Hk].
    split; [exact Hk |].
    intros Hne. destruct (goawayWatcher_cancels h str w') as [_ Hw].
    apply Hw. now rewrite Hk.
Qed.

Lemma goaway_reaches_stream_witness :
  exists w',
    controlStep 0 (Ok (goawayFrame 4)) busyWorld = Continue w' /\
    ctxCause (w_ctxs w') 3 = Some errGoaway /\
    w_trace (goawayWatcher 3 8 w')
    = w_trace w' ++ [EvCancelWrite 8 ErrCodeRequestCanceled;
                     EvCancelRead 8 ErrCodeRequestCanceled].
Proof.
  destruct (controlStep 0 (Ok (goawayFrame 4)) busyWorld) as [w' | w' why] eqn:E;
    [| vm_compute in E; discriminate].
  exists w'. split; [reflexivity |].
  destruct (goaway_reaches_stream 0 4 8 3%nat 8 busyWorld w' E) as [H _].
  - reflexivity.
  - simpl. lia.
  - lia.
  - apply H. reflexivity.
Defined.

(** ** [newClient] *)

(** With no [quic.Config] from the caller [newClient] cannot fail.  It dials
    with a copy of the default configuration: the first supported version,
    QUIC datagrams as the options ask for HTTP datagrams, and no
    bidirectional stream from the server. *)
Lemma newClient_default_config :
  forall (E : newClientEnv) (hostname : string) (tlsConf : option tlsConfig)
         (opts : roundTripperOpts),
    exists cs,
      newClient E hostname tlsConf opts None = (Ok cs, None) /\
      cs_config cs
      = mkQuicConfig [supportedVersion0 E] (EnableDatagram opts) (-1) (10 * 1000000000).
Proof.
  intros E hostname tlsConf opts. unfold newClient. simpl.
  destruct (EnableDatagram opts); simpl; eexists; split; reflexivity.
Qed.

(** The three ways [newClient] can go on a configuration of the caller. *)
Lemma newClient_cases E hostname tlsConf opts c :
  let r := fst (newClient E hostname tlsConf opts (Some c)) in
  let noDatagrams := EnableDatagram opts = true /\ EnableDatagrams c = false in
  (noDatagrams /\ r = Err errDatagramsDisabled) \/
  (~ noDatagrams /\ (1 < length (Versions c))%nat /\ r = Err errSingleVersion) \/
  (~ noDatagrams /\ (length (Versions c) <= 1)%nat /\ exists cs, r = Ok cs).
Proof.
  cbv zeta. unfold newClient.
  destruct (EnableDatagram opts && negb (EnableDatagrams c)) eqn:Ed.
  - left. apply andb_true_iff in Ed as [H1 H2]. apply negb_true_iff in H2. auto.
  - right.
    assert (Hn : ~ (EnableDatagram opts = true /\ EnableDatagrams c = false)).
    { intros [H1 H2]. rewrite H1, H2 in Ed. discriminate. }
    destruct (Versions c) as [| v [| v' vs]] eqn:Ev; simpl.
    + right. split; [exact Hn |]. split; [lia |]. eexists. reflexivity.
    + rewrite Ev. right. split; [exact Hn |]. split; [lia |]. eexists. reflexivity.
    + rewrite Ev. left. split; [exact Hn |]. split; [lia | reflexivity].
Qed.

(** X4.  When [newClient] fails.  It fails if and only if the caller passed
    a configuration that has QUIC datagrams disabled while the options
    enable HTTP datagrams, or that lists more than one version.  The check
    of the datagrams comes first. *)
Theorem newClient_errors :
  forall (E : newClientEnv) (hostname : string) (tlsConf : option tlsConfig)
         (opts : roundTripperOpts) (conf : option quicConfig),
    let noDatagrams c := EnableDatagram opts = true /\ EnableDatagrams c = false in
    ((exists e, fst (newClient E hostname tlsConf opts conf) = Err e) <->
     exists c, conf = Some c /\ (noDatagrams c \/ (1 < length (Versions c))%nat)) /\
    (forall c, conf = Some c -> noDatagrams c ->
       fst (newClient E hostname tlsConf opts conf) = Err errDatagramsDisabled) /\
    (forall c, conf = Some c -> ~ noDatagrams c -> (1 < length (Versions c))%nat ->
       fst (newClient E hostname tlsConf opts conf) = Err errSingleVersion).
Proof.
  intros E hostname tlsConf opts conf noDatagrams. subst noDatagrams. cbv beta.
  destruct conf as [c |].
  - pose proof (newClient_cases E hostname tlsConf opts c) as H. cbv zeta in H.
    split; [split |]; [| | split].
    + intros [e He]. exists c. split; [reflexivity |].
      destruct H as [[H _] | [(_ & H & _) | (_ & _ & cs & H)]]; auto. congruence.
    + intros (c' & Hc & Hbad). inversion Hc; subst c'.
      destruct H as [[_ H] | [(_ & _ & H) | (Hn & Hl & _)]]; eauto.
      destruct Hbad; [contradiction | lia].
    + intros c' Hc Hd. inversion Hc; subst c'.
      destruct H as [[_ H] | [(Hn & _) | (Hn & _)]]; [exact H | |]; contradiction.
    + intros c' Hc Hn Hl. inversion Hc; subst c'.
      destruct H as [[H _] | [(_ & _ & H) | (_ & H & _)]]; [contradiction | exact H | lia].
  - destruct (newClient_default_config E hostname tlsConf opts) as (cs & -> & _). simpl.
    split; [split |].
    + intros [e He]. discriminate.
    + intros (c & Hc & _). discriminate.
    + split; intros c Hc; discriminate.
Qed.

Lemma newClient_errors_witness :
  fst (newClient sampleNewClientEnv "example.com" None (mkOpts false true 0 [] false)
         (Some oneVersionConfig))
  = Err errDatagramsDisabled /\
  fst (newClient sampleNewClientEnv "example.com" None sampleOpts (Some twoVersionsConfig))
  = Err errSingleVersion.
Proof.
  split.
  - destruct (newClient_errors sampleNewClientEnv "example.com" None
                (mkOpts false true 0 [] false) (Some oneVersionConfig)) as (_ & H & _).
    apply (H oneVersionConfig); [reflexivity | split; reflexivity].
  - destruct (newClient_errors sampleNewClientEnv "example.com" None
                sampleOpts (Some twoVersionsConfig)) as (_ & _ & H).
    apply (H twoVersionsConfig); [reflexivity | | simpl; lia].
    intros [H1 _]. discriminate.
Defined.

(** X5.  What a client that [newClient] returns dials with.  The
    configuration lists one version, and the only protocol the TLS
    configuration offers is the ALPN token of that version, whatever the
    caller had put there. The limit of incoming bidirectional streams is not
    0, which QUIC would replace by its default: a 0 of the caller has become
    -1, another value is kept.  QUIC datagrams are enabled when the options
    enable HTTP datagrams.  A server name of the caller is kept; without one
    the name is the host of [hostname], or [hostname] as a whole when it
    does not split into host and port.  The client itself is new: it has the
    authority of [hostname], has not dialed, and has no request registered. *)
Theorem newClient_setup :
  forall (E : newClientEnv) (hostname : string) (tlsConf : option tlsConfig)
         (opts : roundTripperOpts) (conf : option quicConfig) (cs : clientSetup),
    fst (newClient E hostname tlsConf opts conf) = Ok cs ->
    (exists v,
        Versions (cs_config cs) = [v] /\
        NextProtos (cs_tlsConf cs) = [versionToALPN E v] /\
        (forall c, conf = Some c -> Versions c <> [] -> Versions c = [v]) /\
        ((conf = None \/ exists c, conf = Some c /\ Versions c = []) ->
         v = supportedVersion0 E)) /\
    MaxIncomingStreams (cs_config cs) <> 0 /\
    (forall c, conf = Some c -> MaxIncomingStreams c <> 0 ->
       MaxIncomingStreams (cs_config cs) = MaxIncomingStreams c) /\
    (forall c, conf = Some c -> MaxIncomingStreams c = 0 ->
       MaxIncomingStreams (cs_config cs) = -1) /\
    (EnableDatagram opts = true -> EnableDatagrams (cs_config cs) = true) /\
    (forall t, tlsConf = Some t -> ServerName t <> ""%string ->
       ServerName (cs_tlsConf cs) = ServerName t) /\
    ((tlsConf = None \/ exists t, tlsConf = Some t /\ ServerName t = ""%string) ->
     ServerName (cs_tlsConf cs)
     = match splitHostPort E hostname with
       | Ok (sni, _) => sni
       | Err _ => hostname
       end) /\
    cs_client cs = mkClient (authorityAddr E "https" hostname) opts false None false ∅.
Proof.
  intros E hostname tlsConf opts conf cs. unfold newClient.
  set (start := match conf with
                | Some c => (c, true)
                | None => (setEnableDatagrams (EnableDatagram opts) defaultQuicConfig, false)
                end).
  destruct start as [cur shared] eqn:Es.
  assert (Hcur : (conf = None /\ cur = setEnableDatagrams (EnableDatagram opts) defaultQuicConfig)
                 \/ conf = Some cur).
  { subst start. destruct conf; inversion Es; auto. }
  clear Es.
  destruct (EnableDatagram opts && negb (EnableDatagrams cur)) eqn:Ed; [discriminate |].
  assert (Hdg : EnableDatagram opts = true -> EnableDatagrams cur = true).
  { intros H. rewrite H in Ed. simpl in Ed. now apply negb_false_iff in Ed. }
  set (sni := match splitHostPort E hostname with
              | Ok (sni, _) => sni
              | Err _ => hostname
              end).
  set (tls0 := match tlsConf with
               | Some t => t
               | None => mkTlsConfig "" []
               end).
  assert (Htls : forall tls, tls = (if (ServerName tls0 =? "")%string
                                    then mkTlsConfig sni (NextProtos tls0) else tls0) ->
            (forall t, tlsConf = Some t -> ServerName t <> ""%string ->
               ServerName tls = ServerName t) /\
            ((tlsConf = None \/ exists t, tlsConf = Some t /\ ServerName t = ""%string) ->
             ServerName tls = sni)).
  { intros tls ->. split.
    - intros t Ht Hne. subst tls0. rewrite Ht.
      apply String.eqb_neq in Hne. now rewrite Hne.
    - intros [Ht | (t & Ht & He)]; subst tls0; rewrite Ht; [reflexivity |].
      rewrite He. reflexivity. }
  destruct (Htls _ eq_refl) as [Hs1 Hs2]. clear Htls.
  assert (Hmax : forall c : quicConfig,
            let c' := if MaxIncomingStreams c =? 0 then setMaxIncomingStreams (-1) c else c in
            Versions c' = Versions c /\ EnableDatagrams c' = EnableDatagrams c /\
            MaxIncomingStreams c' <> 0 /\
            (MaxIncomingStreams c <> 0 -> MaxIncomingStreams c' = MaxIncomingStreams c) /\
            (MaxIncomingStreams c = 0 -> MaxIncomingStreams c' = -1)).
  { intros c. cbv zeta. destruct (MaxIncomingStreams c =? 0) eqn:E0; simpl.
    - repeat split; auto; lia.
    - apply Z.eqb_neq in E0. repeat split; auto; lia. }
  destruct (length (Versions cur) =? 0)%nat eqn:El.
  - (* no version given: the clone gets the first supported one *)
    apply Nat.eqb_eq in El. apply length_zero_iff_nil in El.
    simpl. intros H. inversion H; subst cs; clear H. simpl.
    destruct (Hmax (setVersions [supportedVersion0 E] cur)) as (M1 & M2 & M3 & M4 & M5).
    simpl in *.
    split.
    { exists (supportedVersion0 E). rewrite M1. repeat split; auto.
      intros c Hc Hne. destruct Hcur as [[Hcur _] | Hcur]; congruence. }
    split; [exact M3 |].
    split. { intros c Hc. destruct Hcur as [[Hcur _] | Hcur]; [congruence |].
             assert (c = cur) by congruence. subst c. exact M4. }
    split. { intros c Hc. destruct Hcur as [[Hcur _] | Hcur]; [congruence |].
             assert (c = cur) by congruence. subst c. exact M5. }
    split; [intros Hd; rewrite M2; auto |].
    repeat split; auto.
  - apply Nat.eqb_neq in El.
    assert (Hsome : conf = Some cur).
    { destruct Hcur as [[_ ->] | Hcur]; [| exact Hcur]. simpl in El. congruence. }
    destruct (Versions cur) as [| v [| v' vs]] eqn:Ev; try discriminate.
    intros H. inversion H; subst cs; clear H. simpl.
    destruct (Hmax cur) as (M1 & M2 & M3 & M4 & M5).
    split.
    { exists v. rewrite M1. repeat split; auto.
      - intros c Hc _. congruence.
      - intros [Hc | (c & Hc & He)]; congruence. }
    split; [exact M3 |].
    split. { intros c Hc. assert (c = cur) by congruence. subst c. exact M4. }
    split. { intros c Hc. assert (c = cur) by congruence. subst c. exact M5. }
    split; [intros Hd; rewrite M2; auto |].
    repeat split; auto.
Qed.

Lemma newClient_setup_witness :
  exists cs,
    fst (newClient sampleNewClientEnv "example.com"
           (Some (mkTlsConfig "" ["http/1.1"%string])) sampleOpts (Some oneVersionConfig))
    = Ok cs /\
    NextProtos (cs_tlsConf cs) = ["h3"%string] /\
    ServerName (cs_tlsConf cs) = "example.com"%string /\
    MaxIncomingStreams (cs_config cs) = -1.
Proof.
  destruct (fst (newClient sampleNewClientEnv "example.com"
                   (Some (mkTlsConfig "" ["http/1.1"%string])) sampleOpts
                   (Some oneVersionConfig))) as [cs | e] eqn:E;
    [| vm_compute in E; discriminate].
  exists cs. split; [reflexivity |].
  destruct (newClient_setup _ _ _ _ _ _ E)
    as ((v & Hv & Hp & Hv1 & _) & _ & _ & Hm & _ & _ & Hsni & _).
  assert (v = 1) as ->.
  { specialize (Hv1 oneVersionConfig eq_refl). simpl in Hv1.
    assert (H : [1] = [v]) by (apply Hv1; discriminate). now inversion H. }
  split; [exact Hp |]. split.
  - rewrite Hsni; [reflexivity |]. right. eexists. split; reflexivity.
  - apply (Hm oneVersionConfig); reflexivity.
Defined.

(** X6.  What [newClient] does to the [quic.Config] of the caller.  It
    writes to it in one case only: the configuration passes the check of the
    datagrams, lists exactly one version, and has 0 as its limit of incoming
    streams; line 100 then sets the limit to -1 in the caller's object,
    since [conf] was not bound to a clone.  In every other case, when
    [newClient] fails too, the object is left as it was. *)
Theorem newClient_caller_config :
  forall (E : newClientEnv) (hostname : string) (tlsConf : option tlsConfig)
         (opts : roundTripperOpts) (c : quicConfig),
    let after := snd (newClient E hostname tlsConf opts (Some c)) in
    let written :=
      (EnableDatagram opts = true -> EnableDatagrams c = true) /\
      (exists v, Versions c = [v]) /\ MaxIncomingStreams c = 0 in
    (written -> after = Some (setMaxIncomingStreams (-1) c)) /\
    (~ written -> after = Some c).
Proof.
  intros E hostname tlsConf opts c. cbv zeta. unfold newClient.
  destruct (EnableDatagram opts && negb (EnableDatagrams c)) eqn:Ed.
  - apply andb_true_iff in Ed as [H1 H2]. apply negb_true_iff in H2.
    split; [| reflexivity].
    intros (Hd & _). rewrite (Hd H1) in H2. discriminate.
  - assert (Hd : EnableDatagram opts = true -> EnableDatagrams c = true).
    { intros H. rewrite H in Ed. simpl in Ed. now apply negb_false_iff in Ed. }
    destruct (Versions c) as [| v [| v' vs]] eqn:Ev; simpl; rewrite ?Ev.
    + split; [| reflexivity]. intros (_ & [v Hv] & _). discriminate.
    + destruct (MaxIncomingStreams c =? 0) eqn:E0.
      * split; [reflexivity |]. intros Hn. exfalso. apply Hn.
        split; [exact Hd |]. split; [now exists v | lia].
      * split; [| reflexivity]. intros (_ & _ & H). lia.
    + split; [| reflexivity]. intros (_ & [v0 Hv] & _). discriminate.
Qed.

Lemma newClient_caller_config_witness :
  snd (newClient sampleNewClientEnv "example.com" None sampleOpts (Some oneVersionConfig))
  = Some (mkQuicConfig [1] false (-1) 0) /\
  snd (newClient sampleNewClientEnv "example.com" None sampleOpts (Some twoVersionsConfig))
  = Some twoVersionsConfig.
Proof.
  split.
  - apply (newClient_caller_config sampleNewClientEnv "example.com" None sampleOpts
             oneVersionConfig).
    split; [discriminate |]. split; [now exists 1 | reflexivity].
  - apply (newClient_caller_config sampleNewClientEnv "example.com" None sampleOpts
             twoVersionsConfig).
    intros (_ & [v Hv] & _). discriminate.
Defined.

(** ** What a call does to the client and to the streams *)

Lemma clientFixed_refl c : clientFixed c c.
Proof. repeat split. Qed.

Lemma clientFixed_trans c1 c2 c3 :
  clientFixed c1 c2 -> clientFixed c2 c3 -> clientFixed c1 c3.
Proof.
  intros (A1 & A2 & A3 & A4) (B1 & B2 & B3 & B4). repeat split; congruence.
Qed.

Lemma controlEvent_streamEvent str e : controlEvent e -> streamEvent str e.
Proof.
  destruct e; simpl; try tauto; intros _; repeat split; try discriminate.
Qed.

Lemma streamEvent_afterDialEvent env str e :
  openStreamSync env = Ok str -> streamEvent str e -> afterDialEvent env e.
Proof.
  intros Ho (H1 & _ & H3). split; [exact H1 |].
  intros s Hs. now rewrite (H3 s Hs).
Qed.

Lemma controlEvent_afterDialEvent env e : controlEvent e -> afterDialEvent env e.
Proof.
  destruct e; simpl; try tauto; intros _; split; try reflexivity; discriminate.
Qed.

Lemma applyActions_clientFixed acts : forall w,
  clientFixed (w_client w) (w_client (applyActions acts w)).
Proof.
  induction acts as [| a acts IH]; intros w; [apply clientFixed_refl |].
  unfold applyActions in *. simpl.
  eapply clientFixed_trans; [| apply IH].
  destruct a as [h e | r]; simpl; [apply clientFixed_refl |].
  destruct (w_ctrlStopped w); [apply clientFixed_refl |].
  destruct (controlStep 0 r w) as [w' | w' why] eqn:E.
  - now apply controlStep_continue in E.
  - apply controlStep_stop in E. subst w'. apply clientFixed_refl.
Qed.

(** The events of [doRequest] are about its stream. *)
Lemma doRequest_events io reqp req str opt reqDone w :
  extends (streamEvent str) w (snd (doRequest io reqp req str opt reqDone w)).
Proof.
  assert (Hs : forall e, isDialEvent e = false -> e <> EvWaitHandshake ->
                         streamOf e = Some str -> streamEvent str e).
  { intros e H1 H2 H3. repeat split; auto. intros s Hs. congruence. }
  unfold doRequest. destruct (writeRequestHeader io).
  - simpl. apply extends_emit. apply Hs; [reflexivity | discriminate | reflexivity].
  - destruct (receiveResponse _ _ _ _ _ _ _) as [rsp rerr]. simpl.
    destruct (Body req) as [body |]; [| destruct (DontCloseRequestStream opt)].
    + eexists [_; _; _]. split; [simpl; now rewrite <- !app_assoc |].
      repeat constructor; apply Hs; try reflexivity; discriminate.
    + eexists [_; _]. split; [simpl; now rewrite <- !app_assoc |].
      repeat constructor; apply Hs; try reflexivity; discriminate.
    + eexists [_; _; _]. split; [simpl; now rewrite <- !app_assoc |].
      repeat constructor; apply Hs; try reflexivity; discriminate.
Qed.

(** The request on its stream: the events are about that stream, the fields
    of the client that the dial set stay, and the entry of the stream is
    gone from the registry when the call returns. *)
Lemma requestOnStream_effects env reqp req opt str w :
  let w' := outcomeWorld (requestOnStream env reqp req opt str w) in
  clientFixed (w_client w) (w_client w') /\
  runningCtx (w_client w') = delete str (runningCtx (w_client w)) /\
  extends (streamEvent str) w w'.
Proof.
  unfold requestOnStream, registerContext, withCancelCause.
  set (ctx := length (w_ctxs w)).
  set (w0 := emit (EvGo (goCancelWatcher (Ctx req) str)) _).
  assert (F0 : clientFixed (w_client w) (w_client w0) /\
               runningCtx (w_client w0) = <[str := ctx]> (runningCtx (w_client w)) /\
               extends (streamEvent str) w w0).
  { subst w0. simpl. split; [repeat split |]. split; [reflexivity |].
    exists [EvGo (goGoawayWatcher ctx str); EvGo (goCancelWatcher (Ctx req) str)].
    split; [simpl; now rewrite <- app_assoc |].
    repeat constructor; try discriminate; intros s Hs; now inversion Hs. }
  destruct F0 as (K0 & R0 & E0).
  pose proof (doRequest_events (requestIO env) reqp req str opt
                (negb (DontCloseRequestStream opt)) w0) as E1.
  destruct (doRequest (requestIO env) reqp req str opt
              (negb (DontCloseRequestStream opt)) w0) as [[rsp rerr] w1] eqn:Hd.
  apply doRequest_spec in Hd. destruct Hd as (C1 & _).
  simpl in E1.
  pose proof (applyActions_registry (whileRequest env) w1) as R2.
  pose proof (applyActions_clientFixed (whileRequest env) w1) as K2.
  destruct (applyActions_frame (whileRequest env) w1) as (_ & _ & _ & E2).
  set (w2 := applyActions (whileRequest env) w1) in *.
  assert (E02 : extends (streamEvent str) w w2).
  { eapply extends_trans; [exact E0 |]. eapply extends_trans; [exact E1 |].
    eapply extends_weaken; [apply controlEvent_streamEvent | exact E2]. }
  assert (Hfin : forall w5, w_client w5 = w_client w2 ->
            extends (streamEvent str) w2 w5 ->
            clientFixed (w_client w) (w_client (returnDeferred env str ctx w5)) /\
            runningCtx (w_client (returnDeferred env str ctx w5))
            = delete str (runningCtx (w_client w)) /\
            extends (streamEvent str) w (returnDeferred env str ctx w5)).
  { intros w5 H5 E5. unfold returnDeferred.
    pose proof (applyActions_registry (beforeCleanup env) w5) as R6.
    pose proof (applyActions_clientFixed (beforeCleanup env) w5) as K6.
    destruct (applyActions_frame (beforeCleanup env) w5) as (_ & _ & _ & E6).
    set (w6 := applyActions (beforeCleanup env) w5) in *.
    split; [| split].
    - eapply clientFixed_trans; [exact K0 |]. rewrite <- C1.
      eapply clientFixed_trans; [exact K2 |]. rewrite <- H5.
      eapply clientFixed_trans; [exact K6 |]. repeat split.
    - simpl. rewrite R6, H5, R2, C1, R0. apply delete_insert_eq.
    - eapply extends_trans; [exact E02 |]. eapply extends_trans; [exact E5 |].
      eapply extends_trans;
        [eapply extends_weaken; [apply controlEvent_streamEvent | exact E6] |].
      exists [EvCancel ctx None]. split; [reflexivity |].
      repeat constructor; try discriminate. }
  assert (Hjoin : w_client (joinCancelWatcher env (Ctx req) str w2) = w_client w2 /\
                  extends (streamEvent str) w2 (joinCancelWatcher env (Ctx req) str w2)).
  { unfold joinCancelWatcher.
    destruct (ctxErr (w_ctxs w2) (Ctx req)); [destruct (watcherSawCancel env) |];
      (split; [reflexivity |]); try apply extends_refl.
    eexists [_; _]. split; [simpl; now rewrite <- app_assoc |].
    repeat constructor; try discriminate; intros s Hs; now inversion Hs. }
  destruct Hjoin as [J1 J2].
  destruct (re_err rerr) as [e |].
  - set (w3 := joinCancelWatcher env (Ctx req) str w2) in *.
    set (w4 := if streamErr rerr =? 0 then w3 else _).
    set (w5 := if connErr rerr =? 0 then w4 else _).
    assert (F5 : w_client w5 = w_client w2 /\ extends (streamEvent str) w2 w5).
    { subst w5 w4. destruct (connErr rerr =? 0), (streamErr rerr =? 0); simpl;
        (split; [exact J1 |]);
        repeat (first [exact J2 | eapply extends_trans;
                                  [| apply extends_emit; repeat split; try discriminate;
                                     intros s Hs; now inversion Hs]]). }
    destruct F5 as [C5 E5].
    destruct (isGoaway _); simpl; now apply Hfin.
  - simpl. apply Hfin; destruct (DontCloseRequestStream opt);
      first [exact J1 | exact J2 | reflexivity | apply extends_refl].
Qed.

(** The same for the steps of lines 303-318. *)
Lemma settingsAndStream_effects env reqp req opt w :
  let w' := outcomeWorld (settingsAndStream env reqp req opt w) in
  clientFixed (w_client w) (w_client w') /\
  (runningCtx (w_client w') = runningCtx (w_client w) \/
   exists str, openStreamSync env = Ok str /\
               runningCtx (w_client w') = delete str (runningCtx (w_client w))) /\
  extends (afterDialEvent env) w w'.
Proof.
  unfold settingsAndStream.
  assert (Hev : forall e, isDialEvent e = false -> streamOf e = None ->
                          afterDialEvent env e).
  { intros e H1 H2. split; [exact H1 |]. intros s Hs. congruence. }
  assert (Hearly : forall w1 : world, w_client w1 = w_client w ->
            extends (afterDialEvent env) w w1 ->
            clientFixed (w_client w) (w_client w1) /\
            (runningCtx (w_client w1) = runningCtx (w_client w) \/
             exists str, openStreamSync env = Ok str /\
                         runningCtx (w_client w1) = delete str (runningCtx (w_client w))) /\
            extends (afterDialEvent env) w w1).
  { intros w1 H1 E1. rewrite H1. split; [apply clientFixed_refl |]. split; [now left | exact E1]. }
  assert (Hopen : forall w1 : world, w_client w1 = w_client w ->
            extends (afterDialEvent env) w w1 ->
            let o := (let w2 := emit (EvOpenStream (openStreamSync env)) w1 in
                      match openStreamSync env with
                      | Ok str => requestOnStream env reqp req opt str w2
                      | Err err => Returns None (Some err) w2
                      end) in
            clientFixed (w_client w) (w_client (outcomeWorld o)) /\
            (runningCtx (w_client (outcomeWorld o)) = runningCtx (w_client w) \/
             exists str, openStreamSync env = Ok str /\
                         runningCtx (w_client (outcomeWorld o))
                         = delete str (runningCtx (w_client w))) /\
            extends (afterDialEvent env) w (outcomeWorld o)).
  { intros w1 H1 E1. cbv zeta.
    assert (E2 : extends (afterDialEvent env) w (emit (EvOpenStream (openStreamSync env)) w1)).
    { eapply extends_trans; [exact E1 |]. apply extends_emit. now apply Hev. }
    destruct (openStreamSync env) as [str | err] eqn:Eo.
    - destruct (requestOnStream_effects env reqp req opt str (emit (EvOpenStream (Ok str)) w1))
        as (K & R & E).
      simpl in K, R. rewrite H1 in K, R.
      split; [exact K |]. split; [right; now exists str |].
      eapply extends_trans; [exact E2 |].
      eapply extends_weaken; [| exact E].
      intros e. now apply streamEvent_afterDialEvent.
    - apply Hearly; [exact H1 | exact E2]. }
  destruct (CheckSettings opt) as [check |].
  - assert (E1 : extends (afterDialEvent env) w (emit EvWaitSettings w))
      by (apply extends_emit; now apply Hev).
    destruct (settingsArrive env) as [[settings | cause] |]; simpl.
    + destruct (check settings).
      * apply (Hearly (emit EvWaitSettings w)); [reflexivity | exact E1].
      * apply (Hopen (emit EvWaitSettings w)); [reflexivity | exact E1].
    + apply (Hearly (emit EvWaitSettings w)); [reflexivity | exact E1].
    + apply (Hearly (emit EvWaitSettings w)); [reflexivity | exact E1].
  - apply (Hopen w); [reflexivity | apply extends_refl].
Qed.

(** What [dialOnce] does. *)
Lemma dialOnce_effects env ctx w :
  let w' := dialOnce env ctx w in
  w_trace w' = w_trace w ++ (if dialed (w_client w) then []
                             else dialEvents env ctx (w_client w)) /\
  hostname (w_client w') = hostname (w_client w) /\
  opts (w_client w') = opts (w_client w) /\
  dialed (w_client w') = true /\
  handshakeErr (w_client w')
  = (if dialed (w_client w) then handshakeErr (w_client w) else dialResult env) /\
  receivedGoaway (w_client w') = receivedGoaway (w_client w) /\
  runningCtx (w_client w') = runningCtx (w_client w).
Proof.
  unfold dialOnce, dial, dialEvents. destruct (dialed (w_client w)) eqn:Ed.
  - rewrite app_nil_r. repeat split; auto.
  - destruct (dialResult env); simpl; [repeat split |].
    destruct (StreamHijacker (opts (w_client w))); simpl;
      rewrite <- ?app_assoc; repeat split.
Qed.

Lemma filter_dialEvents env ctx c :
  List.filter isDialEvent (dialEvents env ctx c) = dialEvents env ctx c.
Proof.
  unfold dialEvents. destruct (dialResult env); [reflexivity |].
  destruct (StreamHijacker (opts c)); reflexivity.
Qed.

Lemma filter_afterDial env evs :
  Forall (afterDialEvent env) evs -> List.filter isDialEvent evs = [].
Proof.
  induction evs as [| e evs IH]; intros H; [reflexivity |].
  inversion H as [| ? ? [He _] Hr]; subst. simpl. rewrite He. now apply IH.
Qed.

Lemma extends_filter env w w' :
  extends (afterDialEvent env) w w' ->
  List.filter isDialEvent (w_trace w') = List.filter isDialEvent (w_trace w).
Proof.
  intros [evs [-> F]]. rewrite List.filter_app, (filter_afterDial env evs F).
  apply app_nil_r.
Qed.

(** The call after its dial. *)
Lemma roundTripOpt_effects env reqp opt w :
  let wd := dialedWorld env reqp w in
  let w' := outcomeWorld (roundTripOpt env reqp opt w) in
  clientFixed (w_client wd) (w_client w') /\
  (runningCtx (w_client w') = runningCtx (w_client w) \/
   exists str, openStreamSync env = Ok str /\
               runningCtx (w_client w') = delete str (runningCtx (w_client w))) /\
  extends (afterDialEvent env) wd w'.
Proof.
  unfold dialedWorld, roundTripOpt.
  assert (Hsame : forall w0 : world,
            clientFixed (w_client w0) (w_client w0) /\
            (runningCtx (w_client w0) = runningCtx (w_client w0) \/
             exists str, openStreamSync env = Ok str /\
                         runningCtx (w_client w0) = delete str (runningCtx (w_client w0))) /\
            extends (afterDialEvent env) w0 w0).
  { intros w0. split; [apply clientFixed_refl |]. split; [now left | apply extends_refl]. }
  destruct (w_reqs w !! reqp) as [req |]; [| apply Hsame].
  destruct (authorityOfRequest env req =? hostname (w_client w))%string; [| apply Hsame].
  simpl negb. cbv iota.
  destruct (dialOnce_effects env (Ctx req) w) as (_ & _ & _ & _ & _ & _ & Rd).
  set (wd := dialOnce env (Ctx req) w) in *.
  rewrite <- Rd.
  destruct (handshakeErr (w_client wd)); [apply Hsame |].
  destruct (receivedGoaway (w_client wd)); [apply Hsame |].
  assert (Hcopy : forall m,
            let o := (let '(reqp0, req0, w0) := copyWithMethod m req wd in
                      settingsAndStream env reqp0 req0 opt w0) in
            clientFixed (w_client wd) (w_client (outcomeWorld o)) /\
            (runningCtx (w_client (outcomeWorld o)) = runningCtx (w_client wd) \/
             exists str, openStreamSync env = Ok str /\
                         runningCtx (w_client (outcomeWorld o))
                         = delete str (runningCtx (w_client wd))) /\
            extends (afterDialEvent env) wd (outcomeWorld o)).
  { intros m. unfold copyWithMethod. cbv zeta.
    destruct (settingsAndStream_effects env (length (w_reqs wd)) (withMethod m req) opt
                (setReqs (w_reqs wd ++ [withMethod m req]) wd)) as (K & R & E).
    simpl in K, R. split; [exact K |]. split; [exact R |].
    destruct E as [evs [T F]]. exists evs. split; [exact T | exact F]. }
  destruct (Method req =? MethodGet0RTT)%string; [apply Hcopy |].
  destruct (Method req =? MethodHead0RTT)%string; [apply Hcopy |].
  unfold waitForHandshake.
  pose proof (applyActions_clientFixed (whileHandshake env) (emit EvWaitHandshake wd)) as K2.
  pose proof (applyActions_registry (whileHandshake env) (emit EvWaitHandshake wd)) as R2.
  destruct (applyActions_frame (whileHandshake env) (emit EvWaitHandshake wd))
    as (_ & _ & _ & E2).
  set (w2 := applyActions (whileHandshake env) (emit EvWaitHandshake wd)) in *.
  simpl in K2, R2.
  assert (E02 : extends (afterDialEvent env) wd w2).
  { apply (extends_trans _ _ (emit EvWaitHandshake wd)).
    - apply extends_emit. split; [reflexivity | discriminate].
    - eapply extends_weaken; [apply controlEvent_afterDialEvent | exact E2]. }
  assert (Hstay : clientFixed (w_client wd) (w_client w2) /\
                  (runningCtx (w_client w2) = runningCtx (w_client wd) \/
                   exists str, openStreamSync env = Ok str /\
                               runningCtx (w_client w2) = delete str (runningCtx (w_client wd))) /\
                  extends (afterDialEvent env) wd w2).
  { split; [exact K2 |]. split; [now left | exact E02]. }
  assert (Hgo : let o := settingsAndStream env reqp req opt w2 in
                clientFixed (w_client wd) (w_client (outcomeWorld o)) /\
                (runningCtx (w_client (outcomeWorld o)) = runningCtx (w_client wd) \/
                 exists str, openStreamSync env = Ok str /\
                             runningCtx (w_client (outcomeWorld o))
                             = delete str (runningCtx (w_client wd))) /\
                extends (afterDialEvent env) wd (outcomeWorld o)).
  { cbv zeta. destruct (settingsAndStream_effects env reqp req opt w2) as (K & R & E).
    split; [eapply clientFixed_trans; eauto |].
    split; [rewrite <- R2; exact R | eapply extends_trans; eauto]. }
  destruct (handshakeCompletes env), (ctxErr (w_ctxs w2) (Ctx req));
    try destruct (selectPrefersCtx env); simpl;
    first [exact Hgo | exact Hstay].
Qed.

(** The same for [RoundTripOpt]. *)
Lemma RoundTripOpt_effects env reqp opt w :
  let wd := dialedWorld env reqp w in
  let w' := outcomeWorld (RoundTripOpt env reqp opt w) in
  clientFixed (w_client wd) (w_client w') /\
  (runningCtx (w_client w') = runningCtx (w_client w) \/
   exists str, openStreamSync env = Ok str /\
               runningCtx (w_client w') = delete str (runningCtx (w_client w))) /\
  extends (afterDialEvent env) wd w'.
Proof.
  cbv zeta. rewrite RoundTripOpt_world.
  destruct (roundTripOpt_effects env reqp opt w) as (K & R & E).
  destruct (roundTripOpt env reqp opt w) as [rsp err w1 | w1 | w1]; simpl in *; auto.
  pose proof (applyActions_clientFixed (beforeReturn env) w1) as K2.
  pose proof (applyActions_registry (beforeReturn env) w1) as R2.
  destruct (applyActions_frame (beforeReturn env) w1) as (_ & _ & _ & E2).
  split; [eapply clientFixed_trans; eauto |].
  split; [rewrite R2; exact R |].
  eapply extends_trans; [exact E |].
  eapply extends_weaken; [apply controlEvent_afterDialEvent | exact E2].
Qed.

(** ** The dial *)

(** X7.  The dial of a call.  [RoundTripOpt] dials exactly when the client
    has not dialed yet and the request is for its authority; the call of the
    dialer is then followed, if it succeeded, by the start of the goroutines
    of the connection: [setupConn], the handler of bidirectional streams if
    a [StreamHijacker] is set and only then, and the handler of
    unidirectional streams.  Nothing else in the call dials or starts one of
    them.  The result of the dial is recorded in [handshakeErr]; a call on a
    client that has dialed leaves it as it is. *)
Theorem RoundTripOpt_dials_once :
  forall (env : roundTripEnv) (reqp : nat) (req : Request)
         (opt : roundTripOptions) (w : world),
    w_reqs w !! reqp = Some req ->
    let w' := outcomeWorld (RoundTripOpt env reqp opt w) in
    let mine := (authorityOfRequest env req =? hostname (w_client w))%string in
    let dials := mine && negb (dialed (w_client w)) in
    List.filter isDialEvent (w_trace w')
    = List.filter isDialEvent (w_trace w)
      ++ (if dials then dialEvents env (Ctx req) (w_client w) else []) /\
    dialed (w_client w') = dialed (w_client w) || mine /\
    handshakeErr (w_client w')
    = (if dials then dialResult env else handshakeErr (w_client w)) /\
    hostname (w_client w') = hostname (w_client w) /\
    opts (w_client w') = opts (w_client w).
Proof.
  intros env reqp req opt w Hreq. cbv zeta.
  destruct (RoundTripOpt_effects env reqp opt w) as ((K1 & K2 & K3 & K4) & _ & E).
  unfold dialedWorld in *. rewrite Hreq in *.
  rewrite (extends_filter _ _ _ E), K1, K2, K3, K4. clear E K1 K2 K3 K4.
  destruct (authorityOfRequest env req =? hostname (w_client w))%string; simpl.
  - destruct (dialOnce_effects env (Ctx req) w) as (T & H & O & D & Eh & _).
    rewrite T, H, O, D, Eh, List.filter_app, orb_true_r.
    destruct (dialed (w_client w)); cbn [negb andb].
    + repeat split; auto.
    + rewrite filter_dialEvents. repeat split; auto.
  - rewrite app_nil_r, orb_false_r. repeat split; auto.
Qed.

Lemma RoundTripOpt_dials_once_witness :
  List.filter isDialEvent
    (w_trace (outcomeWorld (RoundTripOpt sampleEnv 0 sampleOptions
                              freshWorld)))
  = [EvDial 0; EvGo goSetupConn; EvGo goHandleUnidirectionalStreams].
Proof.
  destruct (RoundTripOpt_dials_once sampleEnv 0%nat sampleRequest sampleOptions
              freshWorld eq_refl) as (H & _).
  exact H.
Defined.





(** ** A request for another client *)

(** X9.  A request whose authority is not the one of the client is refused
    before anything else happens: [roundTripOpt] returns the error that
    names the authority of the client and the host of the request, and
    leaves the world as it was; it does not dial.  [RoundTripOpt] returns
    that error, or the error of the request context if that is done. *)
Theorem RoundTripOpt_wrong_client :
  forall (env : roundTripEnv) (reqp : nat) (req : Request)
         (opt : roundTripOptions) (w : world),
    w_reqs w !! reqp = Some req ->
    authorityOfRequest env req <> hostname (w_client w) ->
    let w' := applyActions (beforeReturn env) w in
    let err := errWrongClient (hostname (w_client w)) (Host req) in
    roundTripOpt env reqp opt w = Returns None (Some err) w /\
    RoundTripOpt env reqp opt w
    = Returns None (Some (default err (ctxErr (w_ctxs w') (Ctx req)))) w' /\
    dialed (w_client w') = dialed (w_client w) /\
    List.filter isDialEvent (w_trace w') = List.filter isDialEvent (w_trace w).
Proof.
  intros env reqp req opt w Hreq Hauth w' err.
  assert (Hrt : roundTripOpt env reqp opt w = Returns None (Some err) w).
  { unfold roundTripOpt. rewrite Hreq.
    apply String.eqb_neq in Hauth. rewrite Hauth. reflexivity. }
  destruct (applyActions_frame (beforeReturn env) w) as (HR & _ & _ & HE).
  pose proof (applyActions_clientFixed (beforeReturn env) w) as (_ & _ & HD & _).
  fold w' in HR, HE, HD.
  split; [exact Hrt |]. split; [| split; [exact HD |]].
  - unfold RoundTripOpt. rewrite Hrt. fold w'. rewrite HR, Hreq.
    destruct (ctxErr (w_ctxs w') (Ctx req)); reflexivity.
  - apply (extends_filter env).
    eapply extends_weaken; [apply controlEvent_afterDialEvent | exact HE].
Qed.

Lemma RoundTripOpt_wrong_client_witness :
  RoundTripOpt sampleEnv 0 sampleOptions
    (setClient (mkClient "example.org:443" sampleOpts false None false ∅) sampleWorld)
  = Returns None (Some (errWrongClient "example.org:443" "example.com"))
      (setClient (mkClient "example.org:443" sampleOpts false None false ∅) sampleWorld).
Proof.
  apply (RoundTripOpt_wrong_client sampleEnv 0%nat sampleRequest sampleOptions
           (setClient (mkClient "example.org:443" sampleOpts false None false ∅)
              sampleWorld)).
  - reflexivity.
  - discriminate.
Defined.

(** ** The stream and the registry of a call *)

Lemma dialEvents_no_stream env ctx c e :
  In e (dialEvents env ctx c) -> streamOf e = None.
Proof.
  unfold dialEvents. destruct (dialResult env).
  - intros [<- | []]. reflexivity.
  - destruct (StreamHijacker (opts c)); simpl; intros H;
      repeat (destruct H as [<- | H]; [reflexivity |]); destruct H.
Qed.

(** X10.  A call works on its own stream.  Whatever [RoundTripOpt] does to a
    request stream (write the header, close or cancel a side, read a frame,
    start a goroutine on it) it does to the stream that [OpenStreamSync]
    gave to this call; a call that got no stream touches none. *)
Theorem RoundTripOpt_own_stream :
  forall (env : roundTripEnv) (reqp : nat) (opt : roundTripOptions) (w : world)
         (e : event) (s : StreamID),
    In e (w_trace (outcomeWorld (RoundTripOpt env reqp opt w))) ->
    streamOf e = Some s ->
    In e (w_trace w) \/ openStreamSync env = Ok s.
Proof.
  intros env reqp opt w e s Hin Hs.
  destruct (RoundTripOpt_effects env reqp opt w) as (_ & _ & E).
  destruct (extends_in _ _ _ _ E Hin) as [Hd | [_ Ha]]; [| right; now apply Ha].
  left. unfold dialedWorld in Hd.
  destruct (w_reqs w !! reqp) as [req |]; [| exact Hd].
  destruct (_ =? _)%string; [| exact Hd].
  destruct (dialOnce_effects env (Ctx req) w) as (T & _). rewrite T in Hd.
  apply in_app_or in Hd as [Hd | Hd]; [exact Hd |].
  destruct (dialed (w_client w)); [destruct Hd |].
  apply dialEvents_no_stream in Hd. congruence.
Qed.

Lemma RoundTripOpt_own_stream_witness :
  In (EvParseFrame 0) (w_trace sampleWorld) \/ openStreamSync sampleEnv = Ok 0.
Proof.
  apply (RoundTripOpt_own_stream sampleEnv 0%nat sampleOptions sampleWorld
           (EvParseFrame 0) 0).
  - vm_compute. tauto.
  - reflexivity.
Defined.

(** X11.  The registry after a call.  When [RoundTripOpt] returns, the
    registry is the one the call found, without the entry of the stream the
    call used: the deferred function of lines 326-331 removes the entry in
    every way out of the call, so no entry outlives its request.  A call
    that opened no stream leaves the registry as it was. *)
Theorem RoundTripOpt_unregisters :
  forall (env : roundTripEnv) (reqp : nat) (opt : roundTripOptions) (w : world),
    let w' := outcomeWorld (RoundTripOpt env reqp opt w) in
    (runningCtx (w_client w') = runningCtx (w_client w) \/
     exists str, openStreamSync env = Ok str /\
                 runningCtx (w_client w') = delete str (runningCtx (w_client w))) /\
    (forall str, openStreamSync env = Ok str -> runningCtx (w_client w') !! str = None \/
                 runningCtx (w_client w') = runningCtx (w_client w)) /\
    (forall id h, runningCtx (w_client w') !! id = Some h ->
                  runningCtx (w_client w) !! id = Some h).
Proof.
  intros env reqp opt w w'.
  destruct (RoundTripOpt_effects env reqp opt w) as (_ & R & _). fold w' in R.
  split; [exact R |]. split.
  - intros str Ho. destruct R as [R | (str' & Ho' & R)]; [now right |].
    left. rewrite R. assert (str' = str) by congruence. subst. apply lookup_delete_eq.
  - intros id h. destruct R as [-> | (str & _ & ->)]; [auto |].
    intros H. now apply lookup_delete_Some in H.
Qed.

Lemma RoundTripOpt_unregisters_witness :
  runningCtx (w_client (outcomeWorld (RoundTripOpt sampleEnv 0 sampleOptions busyWorld)))
    !! 0 = None \/
  runningCtx (w_client (outcomeWorld (RoundTripOpt sampleEnv 0 sampleOptions busyWorld)))
  = runningCtx (w_client busyWorld).
Proof.
  destruct (RoundTripOpt_unregisters sampleEnv 0%nat sampleOptions busyWorld) as (_ & H & _).
  apply H. reflexivity.
Defined.

(** ** The settings check *)

(** X12.  With [CheckSettings] set, the call waits for the SETTINGS of the
    server before it opens a stream, and opens one only if the check accepts
    them.  If the check returns an error, or if the connection ends before
    the SETTINGS arrive, the call returns that error (the cause of the end
    of the connection); it has opened no stream and registered nothing.
    Without SETTINGS and with the connection up, it waits. *)
Theorem settingsAndStream_check :
  forall (env : roundTripEnv) (reqp : nat) (req : Request) (opt : roundTripOptions)
         (w : world) (check : Settings -> option error),
    CheckSettings opt = Some check ->
    let o := settingsAndStream env reqp req opt w in
    let w1 := emit EvWaitSettings w in
    (forall r, In (EvOpenStream r) (w_trace (outcomeWorld o)) ->
       In (EvOpenStream r) (w_trace w) \/
       exists settings, settingsArrive env = Some (Ok settings) /\ check settings = None) /\
    (forall settings e, settingsArrive env = Some (Ok settings) ->
       check settings = Some e -> o = Returns None (Some e) w1) /\
    (forall cause, settingsArrive env = Some (Err cause) ->
       o = Returns None (Some cause) w1) /\
    (settingsArrive env = None -> o = Blocks w1).
Proof.
  intros env reqp req opt w check Hc o w1. subst o w1.
  unfold settingsAndStream. rewrite Hc.
  destruct (settingsArrive env) as [[settings | cause] |].
  - destruct (check settings) as [e |] eqn:Ec.
    + split; [| split; [| split]]; try discriminate.
      * intros r [H | H]%in_app_or; [now left |].
        destruct H as [H | []]. discriminate.
      * intros s e' Hs He. inversion Hs; subst s. congruence.
    + split; [| split; [| split]]; try discriminate.
      * intros r _. right. now exists settings.
      * intros s e' Hs He. inversion Hs; subst s. congruence.
  - split; [| split; [| split]]; try discriminate.
    + intros r [H | H]%in_app_or; [now left |].
      destruct H as [H | []]. discriminate.
    + intros c Hcause. inversion Hcause; subst. reflexivity.
  - split; [| split; [| split]]; try discriminate.
    + intros r [H | H]%in_app_or; [now left |].
      destruct H as [H | []]. discriminate.
    + reflexivity.
Qed.

Lemma settingsAndStream_check_witness :
  settingsAndStream sampleEnv 0 sampleRequest
    (mkRoundTripOptions (Some (fun _ => None)) false) sampleWorld
  = Blocks (emit EvWaitSettings sampleWorld).
Proof.
  apply (settingsAndStream_check sampleEnv 0%nat sampleRequest
           (mkRoundTripOptions (Some (fun _ => None)) false) sampleWorld (fun _ => None));
    reflexivity.
Defined.

(** ** [Close] and [HandshakeComplete] *)

(** X13.  [Close] and the dial.  After the first call for a request of the
    client's authority, [Close] closes the connection, with [ErrCodeNoError]
    and an empty reason, if the dial of that call succeeded, and returns
    what closing returned.  If the dial failed there is no connection:
    [Close] does nothing and returns nil, and [HandshakeComplete] reports
    false.  On a client that has not dialed both do the same. *)
Theorem Close_after_dial :
  forall (env : roundTripEnv) (reqp : nat) (req : Request) (opt : roundTripOptions)
         (w : world) (closeResult : option error) (handshakeDone : bool),
    w_reqs w !! reqp = Some req ->
    authorityOfRequest env req = hostname (w_client w) ->
    dialed (w_client w) = false ->
    let w' := outcomeWorld (RoundTripOpt env reqp opt w) in
    Close closeResult w = (None, w) /\
    HandshakeComplete handshakeDone (w_client w) = false /\
    Close closeResult w'
    = match dialResult env with
      | Some _ => (None, w')
      | None => (closeResult, emit (EvConnClose ErrCodeNoError None) w')
      end /\
    HandshakeComplete handshakeDone (w_client w')
    = match dialResult env with
      | Some _ => false
      | None => handshakeDone
      end.
Proof.
  intros env reqp req opt w closeResult handshakeDone Hreq Hauth Hd w'.
  destruct (RoundTripOpt_effects env reqp opt w) as ((_ & _ & K3 & K4) & _ & _).
  fold w' in K3, K4. unfold dialedWorld in K3, K4. rewrite Hreq in K3, K4.
  apply String.eqb_eq in Hauth. rewrite Hauth in K3, K4.
  destruct (dialOnce_effects env (Ctx req) w) as (_ & _ & _ & D & Eh & _).
  rewrite D in K3. rewrite Eh, Hd in K4.
  unfold Close, HandshakeComplete, connStored. rewrite Hd, K3, K4. simpl.
  destruct (dialResult env); repeat split.
Qed.

Lemma Close_after_dial_witness :
  Close None (outcomeWorld (RoundTripOpt sampleEnv 0 sampleOptions freshWorld))
  = (None, emit (EvConnClose ErrCodeNoError None)
             (outcomeWorld (RoundTripOpt sampleEnv 0 sampleOptions freshWorld))).
Proof.
  destruct (Close_after_dial sampleEnv 0%nat sampleRequest sampleOptions freshWorld
              None true eq_refl eq_refl eq_refl) as (_ & _ & H & _).
  exact H.
Defined.

(** ** What a call returns *)

(** The result of [doRequest] does not depend on the world beyond the
    options of the client. *)
Lemma doRequest_fst_opts io reqp req str opt reqDone w1 w2 :
  opts (w_client w1) = opts (w_client w2) ->
  fst (doRequest io reqp req str opt reqDone w1)
  = fst (doRequest io reqp req str opt reqDone w2).
Proof.
  intros Ho. unfold doRequest, requestGzip. rewrite Ho.
  destruct (writeRequestHeader io); [reflexivity |].
  match goal with
  | |- fst (let '(_, _) := receiveResponse io ?c1 reqp req ?g str reqDone in _)
       = fst (let '(_, _) := receiveResponse io ?c2 reqp req ?g str reqDone in _) =>
      rewrite (receiveResponse_opts io c1 c2 reqp req g str reqDone)
  end.
  - destruct (receiveResponse _ _ _ _ _ _ _). reflexivity.
  - destruct (Body req); [| destruct (DontCloseRequestStream opt)]; simpl; exact Ho.
Qed.

(** [doRequest] returns a response or an error, never both and never
    neither; an error comes with one code, for the stream or for the
    connection. *)
Lemma doRequest_rsp_or_err io reqp req str opt reqDone w :
  let '(rsp, rerr) := fst (doRequest io reqp req str opt reqDone w) in
  (exists e, re_err rerr = Some e /\ rsp = None /\
             ((streamErr rerr <> 0 /\ connErr rerr = 0) \/
              (streamErr rerr = 0 /\ connErr rerr <> 0))) \/
  (exists r, rsp = Some r /\ rerr = noRequestError).
Proof.
  unfold doRequest. destruct (writeRequestHeader io) as [e |]; simpl.
  - left. exists e. repeat split. left. split; [discriminate | reflexivity].
  - destruct (receiveResponse _ _ _ _ _ _ _) as [rsp rerr] eqn:Er. simpl.
    unfold receiveResponse in Er.
    destruct (nextFrame io) as [[L | L | D O | G] | e];
      try (inversion Er; subst; left; eexists; repeat split;
           first [left; split; [discriminate | reflexivity]
                 | right; split; [reflexivity | discriminate]]; fail).
    destruct (L >? _);
      [inversion Er; subst; left; eexists; repeat split; left;
       split; [discriminate | reflexivity] |].
    destruct (readFull io);
      [inversion Er; subst; left; eexists; repeat split; left;
       split; [discriminate | reflexivity] |].
    destruct (decodeFull io) as [hfs | e];
      [| inversion Er; subst; left; eexists; repeat split; right;
         split; [reflexivity | discriminate]].
    destruct (responseFromHeaders io hfs) as [res | e];
      inversion Er; subst.
    + right. eexists. split; reflexivity.
    + left. eexists. repeat split. left. split; [discriminate | reflexivity].
Qed.

(** What [requestOnStream] returns, from what [doRequest] returns. *)
Lemma requestOnStream_result env reqp req opt str w :
  let '(rsp, rerr) :=
    fst (doRequest (requestIO env) reqp req str opt (negb (DontCloseRequestStream opt)) w) in
  exists rsp' err w',
    requestOnStream env reqp req opt str w = Returns rsp' err w' /\
    match re_err rerr with
    | Some _ => rsp' = None /\ err <> None
    | None => rsp' = rsp /\ err = None
    end.
Proof.
  unfold requestOnStream, registerContext, withCancelCause.
  set (w0 := emit (EvGo (goCancelWatcher (Ctx req) str)) _).
  rewrite (doRequest_fst_opts (requestIO env) reqp req str opt
             (negb (DontCloseRequestStream opt)) w w0) by reflexivity.
  destruct (doRequest (requestIO env) reqp req str opt
              (negb (DontCloseRequestStream opt)) w0) as [[rsp rerr] w1].
  simpl. destruct (re_err rerr) as [e |].
  - destruct (isGoaway _); eexists _, _, _; (split; [reflexivity |]);
      split; try reflexivity; discriminate.
  - eexists _, _, _. split; [reflexivity |]. split; reflexivity.
Qed.

Lemma settingsAndStream_result env reqp req opt w rsp err w' :
  settingsAndStream env reqp req opt w = Returns rsp err w' ->
  (rsp = None /\ err <> None) \/
  (err = None /\ exists r str w0,
     rsp = Some r /\ openStreamSync env = Ok str /\
     opts (w_client w0) = opts (w_client w) /\
     fst (doRequest (requestIO env) reqp req str opt (negb (DontCloseRequestStream opt)) w0)
     = (Some r, noRequestError)).
Proof.
  unfold settingsAndStream.
  assert (Hopen : forall w1 : world, opts (w_client w1) = opts (w_client w) ->
            (let w2 := emit (EvOpenStream (openStreamSync env)) w1 in
             match openStreamSync env with
             | Ok str => requestOnStream env reqp req opt str w2
             | Err err => Returns None (Some err) w2
             end) = Returns rsp err w' ->
            (rsp = None /\ err <> None) \/
            (err = None /\ exists r str w0,
               rsp = Some r /\ openStreamSync env = Ok str /\
               opts (w_client w0) = opts (w_client w) /\
               fst (doRequest (requestIO env) reqp req str opt
                      (negb (DontCloseRequestStream opt)) w0)
               = (Some r, noRequestError))).
  { intros w1 Ho. cbv zeta. destruct (openStreamSync env) as [str | e] eqn:Eo.
    - set (w2 := emit (EvOpenStream (Ok str)) w1).
      pose proof (requestOnStream_result env reqp req opt str w2) as H.
      pose proof (doRequest_rsp_or_err (requestIO env) reqp req str opt
                    (negb (DontCloseRequestStream opt)) w2) as H2.
      destruct (fst (doRequest (requestIO env) reqp req str opt
                       (negb (DontCloseRequestStream opt)) w2)) as [rsp0 rerr] eqn:Ed.
      destruct H as (rsp' & err' & w'' & -> & H).
      intros Hret. inversion Hret; subst rsp' err' w''.
      destruct H2 as [(e & He & _) | (r & -> & ->)].
      + rewrite He in H. left. exact H.
      + simpl in H. destruct H as [-> ->]. right. split; [reflexivity |].
        exists r, str, w2. repeat split; auto.
    - intros H. inversion H; subst. left. split; [reflexivity | discriminate]. }
  destruct (CheckSettings opt) as [check |]; [| apply Hopen; reflexivity].
  destruct (settingsArrive env) as [[settings | cause] |]; try discriminate.
  - destruct (check settings).
    + intros H. inversion H; subst. left. split; [reflexivity | discriminate].
    + apply Hopen. reflexivity.
  - intros H. inversion H; subst. left. split; [reflexivity | discriminate].
Qed.

(** What [roundTripOpt] returns: an error and no response, or the response
    that [doRequest] built for the request it sent, which is at the pointer
    [p] of the heap. *)
Lemma roundTripOpt_result env reqp req opt w rsp err w' :
  w_reqs w !! reqp = Some req ->
  roundTripOpt env reqp opt w = Returns rsp err w' ->
  (rsp = None /\ err <> None) \/
  (err = None /\ exists r str w0 p,
     rsp = Some r /\ openStreamSync env = Ok str /\
     opts (w_client w0) = opts (w_client w) /\
     fst (doRequest (requestIO env) p (sentRequest req) str opt
            (negb (DontCloseRequestStream opt)) w0) = (Some r, noRequestError) /\
     w_reqs w' !! p = Some (sentRequest req) /\
     (sentRequest req = req -> p = reqp)).
Proof.
  intros Hreq. unfold roundTripOpt. rewrite Hreq.
  destruct (negb _); [intros H; inversion H; subst; left; split; [reflexivity | discriminate] |].
  destruct (dialOnce_effects env (Ctx req) w) as (_ & _ & Od & _).
  destruct (dialOnce_frame env (Ctx req) w req) as (Rd & _).
  set (wd := dialOnce env (Ctx req) w) in *.
  destruct (handshakeErr (w_client wd));
    [intros H; inversion H; subst; left; split; [reflexivity | discriminate] |].
  destruct (receivedGoaway (w_client wd));
    [intros H; inversion H; subst; left; split; [reflexivity | discriminate] |].
  assert (Hcopy : forall m, sentRequest req = withMethod m req ->
            Method req <> m ->
            (let '(reqp0, req0, w0) := copyWithMethod m req wd in
             settingsAndStream env reqp0 req0 opt w0) = Returns rsp err w' ->
            (rsp = None /\ err <> None) \/
            (err = None /\ exists r str w0 p,
               rsp = Some r /\ openStreamSync env = Ok str /\
               opts (w_client w0) = opts (w_client w) /\
               fst (doRequest (requestIO env) p (sentRequest req) str opt
                      (negb (DontCloseRequestStream opt)) w0) = (Some r, noRequestError) /\
               w_reqs w' !! p = Some (sentRequest req) /\
               (sentRequest req = req -> p = reqp))).
  { intros m Hs Hm. unfold copyWithMethod. intros H.
    pose proof (settingsAndStream_frame env (length (w_reqs wd)) (withMethod m req) opt
                  (setReqs (w_reqs wd ++ [withMethod m req]) wd)) as [R _ _ _ _].
    rewrite H in R. simpl in R.
    apply settingsAndStream_result in H as [H | (He & r & str & w0 & Hr & Ho & Ho' & Hd)];
      [now left | right].
    split; [exact He |]. exists r, str, w0, (length (w_reqs wd)).
    rewrite Hs. simpl in Ho'. repeat split; auto; try congruence.
    - rewrite R, lookup_app_r by lia. now rewrite Nat.sub_diag.
    - intros Heq. exfalso. apply Hm. rewrite <- Heq. reflexivity. }
  destruct (Method req =? MethodGet0RTT)%string eqn:Eg.
  { apply String.eqb_eq in Eg. apply Hcopy.
    - unfold sentRequest. now rewrite Eg.
    - rewrite Eg. discriminate. }
  destruct (Method req =? MethodHead0RTT)%string eqn:Eh.
  { apply String.eqb_eq in Eh. apply Hcopy.
    - unfold sentRequest. now rewrite Eh.
    - rewrite Eh. discriminate. }
  assert (Hs : sentRequest req = req) by (unfold sentRequest; now rewrite Eg, Eh).
  unfold waitForHandshake.
  pose proof (applyActions_clientFixed (whileHandshake env) (emit EvWaitHandshake wd))
    as (_ & O2 & _).
  destruct (applyActions_frame (whileHandshake env) (emit EvWaitHandshake wd))
    as (R2 & _).
  set (w2 := applyActions (whileHandshake env) (emit EvWaitHandshake wd)) in *.
  simpl in O2, R2.
  assert (Hgo : settingsAndStream env reqp req opt w2 = Returns rsp err w' ->
            (rsp = None /\ err <> None) \/
            (err = None /\ exists r str w0 p,
               rsp = Some r /\ openStreamSync env = Ok str /\
               opts (w_client w0) = opts (w_client w) /\
               fst (doRequest (requestIO env) p (sentRequest req) str opt
                      (negb (DontCloseRequestStream opt)) w0) = (Some r, noRequestError) /\
               w_reqs w' !! p = Some (sentRequest req) /\
               (sentRequest req = req -> p = reqp))).
  { intros H.
    pose proof (settingsAndStream_frame env reqp req opt w2) as [R _ _ _ _].
    rewrite H in R. simpl in R.
    apply settingsAndStream_result in H as [H | (He & r & str & w0 & Hr & Ho & Ho' & Hd)];
      [now left | right].
    split; [exact He |]. exists r, str, w0, reqp.
    rewrite Hs. repeat split; auto; congruence. }
  assert (Hret : forall e, Returns None (Some e) w2 = Returns rsp err w' ->
            (rsp = None /\ err <> None) \/
            (err = None /\ exists r str w0 p,
               rsp = Some r /\ openStreamSync env = Ok str /\
               opts (w_client w0) = opts (w_client w) /\
               fst (doRequest (requestIO env) p (sentRequest req) str opt
                      (negb (DontCloseRequestStream opt)) w0) = (Some r, noRequestError) /\
               w_reqs w' !! p = Some (sentRequest req) /\
               (sentRequest req = req -> p = reqp))).
  { intros e H. inversion H; subst. left. split; [reflexivity | discriminate]. }
  destruct (handshakeCompletes env), (ctxErr (w_ctxs w2) (Ctx req));
    try destruct (selectPrefersCtx env); simpl;
    first [exact Hgo | apply Hret | discriminate].
Qed.

(** X14.  A call returns a response or an error, never both and never
    neither. *)
Theorem RoundTripOpt_response_xor_error :
  forall (env : roundTripEnv) (reqp : nat) (opt : roundTripOptions) (w w' : world)
         (rsp : option Response) (err : option error),
    RoundTripOpt env reqp opt w = Returns rsp err w' ->
    (rsp = None <-> err <> None).
Proof.
  intros env reqp opt w w' rsp err H.
  unfold RoundTripOpt in H.
  destruct (roundTripOpt env reqp opt w) as [rsp0 err0 w1 | w1 | w1] eqn:Ert;
    try discriminate.
  assert (H0 : (rsp0 = None /\ err0 <> None) \/ (err0 = None /\ exists r, rsp0 = Some r)).
  { destruct (w_reqs w !! reqp) as [req |] eqn:Hreq.
    - destruct (roundTripOpt_result env reqp req opt w _ _ _ Hreq Ert)
        as [H0 | (He & r & _ & _ & _ & Hr & _)]; [now left | right; eauto].
    - unfold roundTripOpt in Ert. rewrite Hreq in Ert. discriminate. }
  cbv zeta in H.
  destruct H0 as [[-> Hne] | [-> [r ->]]].
  - destruct err0 as [e0 |]; [| congruence].
    destruct (match w_reqs _ !! reqp with
              | Some req => _
              | None => None
              end); inversion H; subst; split; auto; discriminate.
  - inversion H; subst. split; [discriminate | congruence].
Qed.

Lemma RoundTripOpt_response_xor_error_witness :
  exists rsp w',
    RoundTripOpt sampleEnv 0 sampleOptions sampleWorld = Returns rsp None w' /\
    rsp <> None.
Proof.
  destruct (RoundTripOpt sampleEnv 0 sampleOptions sampleWorld) as [rsp err w' | w' | w'] eqn:E;
    try (vm_compute in E; discriminate).
  assert (He : err = None) by (vm_compute in E; congruence).
  subst err. exists rsp, w'. split; [reflexivity |].
  intros Hr. apply (RoundTripOpt_response_xor_error _ _ _ _ _ _ _ E) in Hr.
  now apply Hr.
Defined.

(** X15.  The request of the response.  The [Request] field of a response
    points to the request that was sent: the request of the caller, or, for
    [GET_0RTT] and [HEAD_0RTT], the copy whose method is [GET] or [HEAD].
    The TLS state of the connection is set. *)
Theorem RoundTripOpt_response_request :
  forall (env : roundTripEnv) (reqp : nat) (req : Request) (opt : roundTripOptions)
         (w w' : world) (rsp : Response) (err : option error),
    w_reqs w !! reqp = Some req ->
    RoundTripOpt env reqp opt w = Returns (Some rsp) err w' ->
    exists p,
      RespRequest rsp = Some p /\
      w_reqs w' !! p = Some (sentRequest req) /\
      (sentRequest req = req -> p = reqp) /\
      HasTLS rsp = true.
Proof.
  intros env reqp req opt w w' rsp err Hreq H.
  pose proof (RoundTripOpt_frame env reqp req opt w Hreq) as (Rq & Hheap & _).
  unfold RoundTripOpt in H.
  destruct (roundTripOpt env reqp opt w) as [rsp0 err0 w1 | w1 | w1] eqn:Ert;
    try discriminate.
  assert (Hrsp : rsp0 = Some rsp /\ w' = applyActions (beforeReturn env) w1).
  { cbv zeta in H. destruct err0; [destruct (match w_reqs _ !! reqp with
                                             | Some _ => _
                                             | None => None
                                             end) |]; inversion H; auto. }
  destruct Hrsp as [-> Hw'].
  assert (Hw : outcomeWorld (RoundTripOpt env reqp opt w) = w').
  { rewrite RoundTripOpt_world, Ert. now rewrite Hw'. }
  rewrite Hw in Rq, Hheap.
  destruct (roundTripOpt_result env reqp req opt w _ _ _ Hreq Ert)
    as [[H0 _] | (_ & r & str & w0 & p & Hr & _ & _ & Hd & Hp & Hsame)]; [discriminate |].
  inversion Hr; subst r. clear Hr.
  destruct (doRequest (requestIO env) p (sentRequest req) str opt
              (negb (DontCloseRequestStream opt)) w0) as [[rsp1 rerr1] w2] eqn:Ed.
  simpl in Hd. inversion Hd; subst rsp1 rerr1.
  apply doRequest_response in Ed as (hfs & res & _ & _ & ->).
  exists p.
  destruct (applyActions_frame (beforeReturn env) w1) as (R2 & _).
  simpl in R2.
  split; [| split; [| split; [exact Hsame |]]].
  - unfold finishResponse. destruct (_ && _); reflexivity.
  - rewrite Hw', R2. exact Hp.
  - unfold finishResponse. destruct (_ && _); reflexivity.
Qed.

Lemma RoundTripOpt_response_request_witness :
  exists rsp w',
    RoundTripOpt sampleEnv 0 sampleOptions zeroRTTWorld = Returns (Some rsp) None w' /\
    RespRequest rsp = Some 1%nat /\
    w_reqs w' !! 1%nat = Some (withMethod "GET" zeroRTTRequest).
Proof.
  destruct (RoundTripOpt sampleEnv 0 sampleOptions zeroRTTWorld)
    as [[rsp |] [err |] w' | w' | w'] eqn:E;
    try (vm_compute in E; discriminate).
  exists rsp, w'. split; [reflexivity |].
  destruct (RoundTripOpt_response_request sampleEnv 0%nat zeroRTTRequest sampleOptions
              zeroRTTWorld w' rsp None eq_refl E) as (p & Hp & Hq & _).
  assert (p = 1%nat) as ->.
  { vm_compute in E. inversion E; subst rsp. simpl in Hp. congruence. }
  split; [exact Hp | exact Hq].
Defined.

(** ** The other ways a request fails on its stream *)

(** The teardown of lines 362-380, for any error of [doRequest]. *)
Lemma requestOnStream_teardown_any env reqp req opt str w rsp rerr e :
  fst (doRequest (requestIO env) reqp req str opt (negb (DontCloseRequestStream opt)) w)
  = (rsp, rerr) ->
  re_err rerr = Some e ->
  let o := requestOnStream env reqp req opt str w in
  fails o /\
  (streamErr rerr <> 0 -> In (EvCancelWrite str (streamErr rerr)) (w_trace (outcomeWorld o))) /\
  (connErr rerr <> 0 ->
   In (EvConnClose (connErr rerr) (Some e)) (w_trace (outcomeWorld o))).
Proof.
  intros Hr He. unfold requestOnStream, registerContext, withCancelCause.
  set (ctx := length (w_ctxs w)).
  set (w0 := emit (EvGo (goCancelWatcher (Ctx req) str)) _).
  rewrite (doRequest_fst_opts (requestIO env) reqp req str opt
             (negb (DontCloseRequestStream opt)) w w0) in Hr by reflexivity.
  destruct (doRequest (requestIO env) reqp req str opt
              (negb (DontCloseRequestStream opt)) w0) as [[rsp' rerr'] w1].
  simpl in Hr. inversion Hr; subst rsp' rerr'. clear Hr.
  rewrite He.
  set (w2 := applyActions (whileRequest env) w1).
  set (w3 := joinCancelWatcher env (Ctx req) str w2).
  set (w4 := if streamErr rerr =? 0 then w3 else emit (EvCancelWrite str (streamErr rerr)) w3).
  set (w5 := if connErr rerr =? 0 then w4 else emit (EvConnClose (connErr rerr) (Some e)) w4).
  assert (H45 : forall ev, In ev (w_trace w4) -> In ev (w_trace w5)).
  { intros ev. subst w5. destruct (connErr rerr =? 0); [auto |].
    simpl. intros H. apply in_or_app. now left. }
  assert (H5 : forall ev, In ev (w_trace w5) ->
                          In ev (w_trace (returnDeferred env str ctx w5))).
  { intros ev. destruct (returnDeferred_frame env str ctx w5) as (_ & _ & _ & E).
    apply (extends_mono _ _ _ _ E). }
  assert (Hs : streamErr rerr <> 0 -> In (EvCancelWrite str (streamErr rerr)) (w_trace w5)).
  { intros Hne. apply H45. subst w4.
    destruct (streamErr rerr =? 0) eqn:E0; [lia |].
    simpl. apply in_or_app. right. now left. }
  assert (Hc : connErr rerr <> 0 -> In (EvConnClose (connErr rerr) (Some e)) (w_trace w5)).
  { intros Hne. subst w5. destruct (connErr rerr =? 0) eqn:E0; [lia |].
    simpl. apply in_or_app. right. now left. }
  destruct (isGoaway (ctxCause (w_ctxs w5) ctx)); cbv zeta; simpl outcomeWorld;
    (split; [eexists _, _; reflexivity | split; intros Hne; apply H5; auto]).
Qed.

(** X16.  The failures of a request that end the stream and leave the
    connection. If the header of the request cannot be written, [doRequest]
    reports a stream-level [ErrCodeInternalError] and does nothing more: it
    does not close the stream, send the body or read the response.  If the
    first frame cannot be parsed it reports [ErrCodeFrameError]; if the
    header block cannot be read in full, [ErrCodeRequestIncomplete]; if the
    fields do not make a response, [ErrCodeMessageError].  In each case the
    call fails and cancels the write side of the stream with that code. *)
Theorem request_stream_errors :
  forall (env : roundTripEnv) (reqp : nat) (req : Request)
         (opt : roundTripOptions) (str : StreamID) (w : world),
    let io := requestIO env in
    let done := negb (DontCloseRequestStream opt) in
    let reported := snd (fst (doRequest io reqp req str opt done w)) in
    let o := requestOnStream env reqp req opt str w in
    let canceledWith code :=
      fails o /\ In (EvCancelWrite str code) (w_trace (outcomeWorld o)) in
    (forall e, writeRequestHeader io = Some e ->
       reported = newStreamError ErrCodeInternalError e /\
       snd (doRequest io reqp req str opt done w)
       = emit (EvWriteRequestHeader str req (requestGzip (w_client w) req)) w /\
       canceledWith ErrCodeInternalError) /\
    (writeRequestHeader io = None ->
     (forall e, nextFrame io = Err e ->
        reported = newStreamError ErrCodeFrameError e /\
        canceledWith ErrCodeFrameError) /\
     (forall L e, nextFrame io = Ok (headersFrame L) -> L <= maxHeaderBytes (w_client w) ->
        readFull io = Some e ->
        reported = newStreamError ErrCodeRequestIncomplete e /\
        canceledWith ErrCodeRequestIncomplete) /\
     (forall L hfs e, nextFrame io = Ok (headersFrame L) -> L <= maxHeaderBytes (w_client w) ->
        readFull io = None -> decodeFull io = Ok hfs ->
        responseFromHeaders io hfs = Err e ->
        reported = newStreamError ErrCodeMessageError e /\
        canceledWith ErrCodeMessageError)).
Proof.
  intros env reqp req opt str w io done reported o canceledWith.
  assert (Hall : forall code e, reported = newStreamError code e -> code <> 0 ->
                                canceledWith code).
  { intros code e Hr Hne. subst canceledWith reported. cbv beta.
    destruct (fst (doRequest io reqp req str opt done w)) as [rsp rerr] eqn:E.
    simpl in Hr. subst rerr.
    destruct (requestOnStream_teardown_any env reqp req opt str w rsp _ e E eq_refl)
      as (H1 & H2 & _).
    split; [exact H1 |]. now apply H2. }
  split.
  - intros e Hw.
    assert (Hd : doRequest io reqp req str opt done w
                 = (None, newStreamError ErrCodeInternalError e,
                    emit (EvWriteRequestHeader str req (requestGzip (w_client w) req)) w)).
    { unfold doRequest. now rewrite Hw. }
    assert (Hr : reported = newStreamError ErrCodeInternalError e).
    { subst reported. now rewrite Hd. }
    split; [exact Hr |]. split; [now rewrite Hd |].
    apply (Hall _ e Hr). discriminate.
  - intros Hw.
    assert (Hrep : reported = snd (receiveResponse io (w_client w) reqp req
                                     (requestGzip (w_client w) req) str done)).
    { subst reported. now rewrite doRequest_result. }
    split; [| split].
    + intros e Hf.
      assert (Hr : reported = newStreamError ErrCodeFrameError e).
      { rewrite Hrep. unfold receiveResponse. now rewrite Hf. }
      split; [exact Hr |]. apply (Hall _ e Hr). discriminate.
    + intros L e Hf Hle Hrf.
      assert (Hr : reported = newStreamError ErrCodeRequestIncomplete e).
      { rewrite Hrep. unfold receiveResponse. rewrite Hf, Hrf.
        now replace (L >? maxHeaderBytes (w_client w)) with false by lia. }
      split; [exact Hr |]. apply (Hall _ e Hr). discriminate.
    + intros L hfs e Hf Hle Hrf Hdec Hres.
      assert (Hr : reported = newStreamError ErrCodeMessageError e).
      { rewrite Hrep. unfold receiveResponse. rewrite Hf, Hrf, Hdec, Hres.
        now replace (L >? maxHeaderBytes (w_client w)) with false by lia. }
      split; [exact Hr |]. apply (Hall _ e Hr). discriminate.
Qed.

Lemma request_stream_errors_witness :
  In (EvCancelWrite 0 ErrCodeInternalError)
     (w_trace (outcomeWorld
        (requestOnStream (envWithIO brokenWriterIO) 0 sampleRequest sampleOptions 0
           sampleWorld))) /\
  In (EvCancelWrite 0 ErrCodeRequestIncomplete)
     (w_trace (outcomeWorld
        (requestOnStream (envWithIO shortBlockIO) 0 sampleRequest sampleOptions 0
           sampleWorld))).
Proof.
  split.
  - destruct (request_stream_errors (envWithIO brokenWriterIO) 0%nat sampleRequest
                sampleOptions 0 sampleWorld) as (H & _).
    destruct (H (errOther "stream closed") eq_refl) as (_ & _ & _ & Hin). exact Hin.
  - destruct (request_stream_errors (envWithIO shortBlockIO) 0%nat sampleRequest
                sampleOptions 0 sampleWorld) as (_ & H).
    destruct (H eq_refl) as (_ & H2 & _).
    destruct (H2 10 (errOther "unexpected EOF") eq_refl) as (_ & _ & Hin);
      [discriminate | reflexivity | exact Hin].
Defined.

(** ** The response that is returned *)

(** X17.  A response that has arrived is returned.  When the header of the
    request is written and the HEADERS frame of the response is read and
    decoded into a response, the call returns that response, finished by
    lines 484-521, with a nil error: whatever happened meanwhile, a GOAWAY
    that canceled the request or a caller that canceled it, is not looked at
    on this way out. *)
Theorem response_is_returned :
  forall (env : roundTripEnv) (reqp : nat) (req : Request) (opt : roundTripOptions)
         (str : StreamID) (w : world) (L : Z) (hfs : list HeaderField) (res : Response),
    writeRequestHeader (requestIO env) = None ->
    nextFrame (requestIO env) = Ok (headersFrame L) ->
    L <= maxHeaderBytes (w_client w) ->
    readFull (requestIO env) = None ->
    decodeFull (requestIO env) = Ok hfs ->
    responseFromHeaders (requestIO env) hfs = Ok res ->
    exists w',
      requestOnStream env reqp req opt str w
      = Returns (Some (finishResponse reqp req (requestGzip (w_client w) req) str
                         (negb (DontCloseRequestStream opt)) res)) None w'.
Proof.
  intros env reqp req opt str w L hfs res Hw Hf Hle Hrf Hdec Hres.
  pose proof (requestOnStream_result env reqp req opt str w) as H.
  assert (Hd : fst (doRequest (requestIO env) reqp req str opt
                      (negb (DontCloseRequestStream opt)) w)
               = (Some (finishResponse reqp req (requestGzip (w_client w) req) str
                          (negb (DontCloseRequestStream opt)) res), noRequestError)).
  { rewrite doRequest_result by exact Hw.
    unfold receiveResponse. rewrite Hf, Hrf, Hdec, Hres.
    now replace (L >? maxHeaderBytes (w_client w)) with false by lia. }
  rewrite Hd in H. destruct H as (rsp' & err & w' & Hrt & Hr). simpl in Hr.
  destruct Hr as [-> ->]. now exists w'.
Qed.

Lemma response_is_returned_witness :
  exists rsp w',
    requestOnStream goawayMeanwhileEnv 0 sampleRequest sampleOptions 0 sampleWorld
    = Returns (Some rsp) None w' /\
    ctxCause (w_ctxs w') 1 = Some errGoaway.
Proof.
  destruct (response_is_returned goawayMeanwhileEnv 0%nat sampleRequest sampleOptions 0
              sampleWorld 10 [] sampleResponse eq_refl eq_refl) as (w' & H);
    try reflexivity.
  { discriminate. }
  eexists _, w'. split; [exact H |].
  vm_compute in H. inversion H. reflexivity.
Defined.

(** ** Unzipping the response *)

(** X18.  When the client itself asked for gzip and the response says
    [Content-Encoding: gzip], the body of the response is unzipped on the
    fly: the body reads through a gzip reader, [Uncompressed] is set,
    [ContentLength] is -1, and the headers Content-Encoding and
    Content-Length are gone; the other headers are those of the server. The
    stream below the gzip reader is still limited by the length the server
    declared for the compressed body. *)
Theorem doRequest_unzips :
  forall (io : requestOracle) (reqp : nat) (req : Request) (str : StreamID)
         (opt : roundTripOptions) (reqDone : bool) (w w' : world)
         (rsp : Response) (rerr : requestError),
    doRequest io reqp req str opt reqDone w = (Some rsp, rerr, w') ->
    requestGzip (w_client w) req = true ->
    exists hfs res,
      decodeFull io = Ok hfs /\ responseFromHeaders io hfs = Ok res /\
      (Header_Get (RespHeader res) "Content-Encoding" = "gzip"%string ->
       Uncompressed rsp = true /\
       ContentLength rsp = -1 /\
       RespBody rsp = gzipReader (hijackableBody (responseStream str res) reqDone) /\
       RespHeader rsp !! "Content-Encoding"%string = None /\
       RespHeader rsp !! "Content-Length"%string = None /\
       (forall key, key <> "Content-Encoding"%string -> key <> "Content-Length"%string ->
          RespHeader rsp !! key = RespHeader res !! key)) /\
      (Header_Get (RespHeader res) "Content-Encoding" <> "gzip"%string ->
       Uncompressed rsp = Uncompressed res /\
       RespBody rsp = hijackableBody (responseStream str res) reqDone /\
       RespHeader rsp = RespHeader res).
Proof.
  intros io reqp req str opt reqDone w w' rsp rerr H Hg.
  apply doRequest_response in H as (hfs & res & Hd & Hr & ->).
  exists hfs, res. split; [exact Hd |]. split; [exact Hr |].
  unfold finishResponse. rewrite Hg. simpl. split.
  - intros He. rewrite He. simpl. repeat split.
    + rewrite lookup_delete_ne by discriminate. apply lookup_delete_eq.
    + apply lookup_delete_eq.
    + intros key H1 H2. now rewrite !lookup_delete_ne by congruence.
  - intros Hne. apply String.eqb_neq in Hne. rewrite Hne. repeat split.
Qed.

Lemma doRequest_unzips_witness :
  exists rsp,
    fst (fst (doRequest gzipIO 0 sampleRequest 0 sampleOptions true sampleWorld)) = Some rsp /\
    Uncompressed rsp = true /\ ContentLength rsp = -1 /\
    RespHeader rsp !! "Content-Length"%string = None.
Proof.
  destruct (doRequest gzipIO 0 sampleRequest 0 sampleOptions true sampleWorld)
    as [[[rsp |] rerr] w'] eqn:E; [| vm_compute in E; discriminate].
  exists rsp. split; [reflexivity |].
  destruct (doRequest_unzips _ _ _ _ _ _ _ _ _ _ E eq_refl) as (hfs & res & _ & Hr & Hz & _).
  simpl in Hr. inversion Hr; subst res.
  destruct (Hz eq_refl) as (H1 & H2 & _ & _ & H5 & _). auto.
Defined.

(** X19.  The client unzips only what it asked for itself.  When the
    header of the request has, under the canonical key, an Accept-Encoding
    entry (be it gzip) or a Range entry whose first value is not empty,
    which is when [Header.Get] finds a value, when the request is a HEAD, or
    when compression is disabled in the options, the response is passed on
    as the server sent it, also if it says [Content-Encoding: gzip]: the
    headers are untouched and the body is not unzipped. *)
Theorem doRequest_keeps_encoding :
  forall (io : requestOracle) (reqp : nat) (req : Request) (str : StreamID)
         (opt : roundTripOptions) (reqDone : bool) (w w' : world)
         (rsp : Response) (rerr : requestError),
    doRequest io reqp req str opt reqDone w = (Some rsp, rerr, w') ->
    (hasValue (ReqHeader req) "Accept-Encoding" \/
     hasValue (ReqHeader req) "Range" \/
     Method req = "HEAD"%string \/
     DisableCompression (opts (w_client w)) = true) ->
    exists hfs res,
      decodeFull io = Ok hfs /\ responseFromHeaders io hfs = Ok res /\
      RespHeader rsp = RespHeader res /\
      Uncompressed rsp = Uncompressed res /\
      RespBody rsp = hijackableBody (responseStream str res) reqDone.
Proof.
  intros io reqp req str opt reqDone w w' rsp rerr H Hcaller.
  apply doRequest_response in H as (hfs & res & Hd & Hr & ->).
  exists hfs, res. split; [exact Hd |]. split; [exact Hr |].
  assert (Hg : requestGzip (w_client w) req = false).
  { destruct (requestGzip (w_client w) req) eqn:E; [| reflexivity].
    apply requestGzip_true in E as (E1 & E2 & E3 & E4).
    destruct Hcaller as [Hc | [Hc | [Hc | Hc]]]; try congruence;
      apply Header_Get_value in Hc; congruence. }
  unfold finishResponse. rewrite Hg. repeat split.
Qed.

Lemma doRequest_keeps_encoding_witness :
  exists rsp,
    fst (fst (doRequest gzipIO 0
                (mkRequest "GET" "example.com"
                   (<["Accept-Encoding"%string := ["gzip"%string]]> ∅) None 0 0%nat)
                0 sampleOptions true sampleWorld)) = Some rsp /\
    RespHeader rsp = RespHeader gzipResponse /\
    Uncompressed rsp = false.
Proof.
  destruct (doRequest gzipIO 0
              (mkRequest "GET" "example.com"
                 (<["Accept-Encoding"%string := ["gzip"%string]]> ∅) None 0 0%nat)
              0 sampleOptions true sampleWorld)
    as [[[rsp |] rerr] w'] eqn:E; [| vm_compute in E; discriminate].
  exists rsp. split; [reflexivity |].
  destruct (doRequest_keeps_encoding _ _ _ _ _ _ _ _ _ _ E) as (hfs & res & _ & Hr & H1 & H2 & _).
  { left. exists "gzip"%string, []. split; [reflexivity | discriminate]. }
  simpl in Hr. inversion Hr; subst res. split; [exact H1 | exact H2].
Defined.

(** ** The limit on the header of the response *)

(** X20.  The limit is [MaxHeaderBytes] of the options when that is
    positive, and 10485760 bytes (10 MiB) when it is zero or negative.  A
    HEADERS frame is refused with a stream-level [ErrCodeFrameError] if and
    only if it is longer than the limit; a frame of exactly the limit is
    read. *)
Theorem doRequest_header_limit :
  forall (io : requestOracle) (reqp : nat) (req : Request) (str : StreamID)
         (opt : roundTripOptions) (reqDone : bool) (w : world) (L : Z),
    writeRequestHeader io = None ->
    nextFrame io = Ok (headersFrame L) ->
    let limit :=
      if MaxHeaderBytes (opts (w_client w)) <=? 0 then 10485760
      else MaxHeaderBytes (opts (w_client w)) in
    let reported := snd (fst (doRequest io reqp req str opt reqDone w)) in
    0 < limit /\
    (limit < L <-> streamErr reported = ErrCodeFrameError) /\
    (limit < L ->
     reported = newStreamError ErrCodeFrameError (errHeadersTooLarge L limit)).
Proof.
  intros io reqp req str opt reqDone w L Hw Hf limit reported.
  assert (Hlim : maxHeaderBytes (w_client w) = limit) by reflexivity.
  assert (Hpos : 0 < limit).
  { subst limit. destruct (MaxHeaderBytes (opts (w_client w)) <=? 0) eqn:E; lia. }
  assert (Hrep : reported = snd (receiveResponse io (w_client w) reqp req
                                   (requestGzip (w_client w) req) str reqDone)).
  { subst reported. now rewrite doRequest_result. }
  split; [exact Hpos |].
  unfold receiveResponse in Hrep. rewrite Hf, Hlim in Hrep.
  destruct (L >? limit) eqn:E.
  - simpl in Hrep. split; [split; [intros _; now rewrite Hrep | lia] |].
    intros _. exact Hrep.
  - split; [| lia]. split; [lia |].
    rewrite Hrep. destruct (readFull io); [discriminate |].
    destruct (decodeFull io) as [hfs | e]; [| discriminate].
    destruct (responseFromHeaders io hfs); discriminate.
Qed.

Lemma doRequest_header_limit_witness :
  snd (fst (doRequest (mkRequestOracle None (Ok (headersFrame 10485761)) None (Ok [])
                         (fun _ => Ok sampleResponse))
              0 sampleRequest 0 sampleOptions true sampleWorld))
  = newStreamError ErrCodeFrameError (errHeadersTooLarge 10485761 10485760).
Proof.
  destruct (doRequest_header_limit
              (mkRequestOracle None (Ok (headersFrame 10485761)) None (Ok [])
                 (fun _ => Ok sampleResponse))
              0%nat sampleRequest 0 sampleOptions true sampleWorld 10485761
              eq_refl eq_refl) as (_ & _ & H).
  apply H. reflexivity.
Defined.

(** ** A body of unknown length *)

(** A write on a stream that is open and takes everything. *)
Lemma writeStep_open d st1 :
  cancelWrites st1 = [] -> streamBudget st1 = None ->
  exists st2,
    (if (0 <? length d)%nat then streamWrite d st1 else (0%nat, None, st1))
    = (length d, None, st2) /\
    cancelWrites st2 = [] /\ streamBudget st2 = None /\ source st2 = source st1.
Proof.
  intros Hc Hb. destruct (0 <? length d)%nat eqn:E.
  - unfold streamWrite. rewrite Hc, Hb. eexists. split; [reflexivity |]. auto.
  - apply Nat.ltb_ge in E. exists st1.
    replace (length d) with 0%nat by lia. auto.
Qed.

Section SendBodyOfUnknownLength.

Variable bodyCopyBufferSize : nat.
Hypothesis bufferNotEmpty : (0 < bodyCopyBufferSize)%nat.

(** The copy of line 408, without [io.LimitReader]. *)
Lemma copyBuffer_unlimited :
  forall fuel written st,
    (sourceSize (source st) < fuel)%nat ->
    exists written' err st',
      copyBuffer fuel bodyCopyBufferSize (cancelingReader bodyReader) written st
      = Some (written', err, st') /\
      streamed written written' err st st'.
Proof.
  induction fuel as [| f IH]; intros written st Hfuel; [lia |].
  destruct (bodyRead bodyCopyBufferSize (source st)) as [[d e] rest] eqn:Hb.
  set (st1 := if isRealError e
              then CancelWrite ErrCodeRequestCanceled (setSource rest st)
              else setSource rest st).
  assert (Hr : Read (cancelingReader bodyReader) bodyCopyBufferSize st
               = (d, e, cancelingReader bodyReader, st1)).
  { rewrite Read_cancelingReader, Hb. reflexivity. }
  destruct (if (0 <? length d)%nat then streamWrite d st1 else (0%nat, None, st1))
    as [[nw ew] st2] eqn:Ew.
  rewrite (copyBuffer_S _ _ _ _ _ _ _ _ _ _ _ _ Hr Ew).
  pose proof Ew as Ew0.
  apply writeStep_spec in Ew as (Hnw & Hdata & Hsrc & Hcw & Hclo & Hfull & Hwerr).
  pose proof (length_sourceBytes_read _ _ _ _ _ Hb) as Hbytes.
  destruct (bodyRead_size _ _ _ _ _ Hb bufferNotEmpty) as [Hsz Hlt].
  assert (Hs2 : source st2 = rest).
  { rewrite Hsrc. subst st1. apply source_after_read. }
  assert (Hd1 : streamData st1 = streamData st)
    by (subst st1; apply streamData_after_read).
  assert (Hc1 : bodyClosed st1 = bodyClosed st)
    by (subst st1; apply bodyClosed_after_read).
  assert (Hcons : consumed st st2 = Z.of_nat (length d)).
  { unfold consumed. rewrite Hs2. lia. }
  assert (Hpre : take nw (sourceBytes (source st)) = take nw d).
  { rewrite (bodyRead_bytes _ _ _ _ _ Hb). now apply take_app_le. }
  assert (Hce : cleanSource (source st) ->
            cleanSource rest /\ (e = None \/ (e = Some ioEOF /\ rest = []))).
  { intros Hclean.
    destruct (bodyRead_clean _ _ _ _ _ Hb Hclean) as [Hcr Hne].
    split; [exact Hcr |].
    destruct (source st) as [| c s] eqn:Es.
    - right. simpl in Hb. now inversion Hb.
    - left. now apply Hne. }
  assert (Hcl : cleanSource (source st) ->
            accepts (Z.of_nat (length (sourceBytes (source st)))) st ->
            ew = None /\ accepts (Z.of_nat (length (sourceBytes rest))) st2 /\
            (e = None \/ (e = Some ioEOF /\ rest = []))).
  { intros Hclean Hacc.
    destruct (Hce Hclean) as [Hcr He].
    assert (Hst1 : st1 = setSource rest st).
    { subst st1. destruct He as [-> | [-> _]]; reflexivity. }
    assert (Hacc1 : accepts (Z.of_nat (length (sourceBytes (source st)))) st1)
      by (rewrite Hst1; exact Hacc).
    destruct (0 <? length d)%nat eqn:E0.
    - destruct (streamWrite_accepts _ d st1 Hacc1) as (st2' & Hw & Ha); [lia |].
      rewrite Hw in Ew0. injection Ew0 as Hn' He' Hs'.
      rewrite <- He', <- Hs'.
      split; [reflexivity |]. split; [| tauto].
      replace (Z.of_nat (length (sourceBytes rest)))
        with (Z.of_nat (length (sourceBytes (source st))) - Z.of_nat (length d)) by lia.
      exact Ha.
    - injection Ew0 as Hn' He' Hs'. rewrite <- He', <- Hs'.
      apply Nat.ltb_ge in E0.
      split; [reflexivity |]. split; [| tauto].
      destruct Hacc1 as [Ha1 Ha2]. split; [exact Ha1 |].
      destruct (streamBudget st1); [lia | exact I]. }
  clear Ew0.
  assert (Hstop : forall err, (err = None -> nw = length d /\ isRealError e = false) ->
            (ew = None -> e = Some ioEOF -> err = None) ->
            e <> None ->
            (err = ew \/ (err = e /\ isRealError e = true) \/ err = None) ->
            streamed written (written + Z.of_nat nw) err st st2).
  { intros err Herr Hgood Hne Hfrom. constructor.
    - rewrite Hcons. lia.
    - replace (written + Z.of_nat nw - written) with (Z.of_nat nw) by lia.
      rewrite Nat2Z.id, Hpre, Hdata, Hd1. reflexivity.
    - congruence.
    - intros He. destruct (Herr He) as [Hn Hre]. split; [rewrite Hcons; lia |].
      rewrite Hcw. subst st1. now rewrite Hre.
    - intros Hclean Hacc. destruct (Hcl Hclean Hacc) as (H1 & _ & [H4 | [H4 H5]]);
        [contradiction |].
      split; [now apply Hgood | now rewrite Hs2].
    - intros x Hx Hclean. destruct Hfrom as [-> | [[-> Hre] | ->]].
      + now apply Hwerr.
      + destruct (Hce Hclean) as [_ [H | [H _]]]; rewrite H in Hre; discriminate.
      + discriminate. }
  destruct ew as [err |].
  { destruct (eq_dec_none e) as [He | He].
    - eexists _, _, _. split; [reflexivity |].
      subst e. constructor.
      + rewrite Hcons. lia.
      + replace (written + Z.of_nat nw - written) with (Z.of_nat nw) by lia.
        rewrite Nat2Z.id, Hpre, Hdata, Hd1. reflexivity.
      + congruence.
      + discriminate.
      + intros Hclean Hacc. destruct (Hcl Hclean Hacc) as (H1 & _). discriminate.
      + intros x Hx _. now apply Hwerr.
    - eexists _, _, _. split; [reflexivity |].
      apply Hstop; try discriminate; auto. }
  specialize (Hfull eq_refl). subst nw. rewrite Nat.eqb_refl. simpl negb. cbv iota.
  destruct e as [e |].
  - destruct e; (eexists _, _, _; split; [reflexivity |]; apply Hstop);
      try discriminate; auto;
      try (right; left; split; reflexivity).
  - destruct (IH (written + Z.of_nat (length d)) st2)
      as (written' & err & st' & Hcopy & [Sw Sd Sc So Sn Se]).
    { rewrite Hs2. specialize (Hlt eq_refl). lia. }
    exists written', err, st'. split; [exact Hcopy |].
    assert (Hc' : consumed st st' = Z.of_nat (length d) + consumed st2 st').
    { unfold consumed in *. rewrite Hs2. lia. }
    constructor.
    + rewrite Hc'. lia.
    + rewrite Sd, Hdata, Hd1, Hs2, firstn_all, <- app_assoc. f_equal.
      rewrite (bodyRead_bytes _ _ _ _ _ Hb).
      replace (Z.to_nat (written' - written))
        with (length d + Z.to_nat (written' - (written + Z.of_nat (length d))))%nat by lia.
      now rewrite take_app_add.
    + congruence.
    + intros He. destruct (So He) as [Ha Hb']. split; [rewrite Hc'; lia |].
      rewrite Hb', Hcw. reflexivity.
    + intros Hclean Hacc. destruct (Hcl Hclean Hacc) as (_ & H2 & _).
      apply Sn; rewrite Hs2; [now apply Hce | exact H2].
    + intros x Hx Hclean. apply (Se x Hx). rewrite Hs2. now apply Hce.
Qed.

(** X21.  A body without a declared length.  A request whose [ContentLength]
    is 0 or negative has its body sent with an unknown length:
    [sendRequestBody] returns, for any body and any stream, with the body
    closed; what it has written is a prefix of the body; if it reports no
    error it has canceled nothing.  A body that yields its bytes and then
    [io.EOF] is written in full on a stream that takes it, and no length is
    ever compared: the error is never the length mismatch. *)
Theorem sendRequestBody_unknown_length :
  forall (req : Request) (st : bodyState),
    ReqContentLength req <= 0 ->
    exists err st',
      sendRequestBody bodyCopyBufferSize (bodyContentLength req) st = Some (err, st') /\
      bodyClosed st' = true /\
      (exists n, streamData st' = streamData st ++ take n (sourceBytes (source st))) /\
      (err = None -> cancelWrites st' = cancelWrites st) /\
      (cleanSource (source st) ->
         (forall a b, err <> Some (errContentLength a b)) /\
         (accepts (Z.of_nat (length (sourceBytes (source st)))) st ->
            err = None /\ source st' = [] /\ cancelWrites st' = [] /\
            streamData st' = streamData st ++ sourceBytes (source st))).
Proof.
  intros req st Hlen.
  destruct (bodyContentLength_declared req) as [_ Hu]. rewrite (Hu Hlen).
  unfold sendRequestBody. simpl (-1 =? -1).  cbv iota.
  destruct (copyBuffer_unlimited (readBound (source st)) 0 st
              (readBound_enough bodyCopyBufferSize bufferNotEmpty _))
    as (n & err & st1 & -> & [Sw Sd Sc So Sn Se]).
  rewrite Z.sub_0_r in *.
  exists err, (closeBody st1). split; [reflexivity |]. split; [reflexivity |].
  split; [exists (Z.to_nat n); exact Sd |].
  split; [intros He; now destruct (So He) |].
  intros Hclean. split.
  - intros a b Hx. destruct (Se _ Hx Hclean) as [msg Hm]. discriminate.
  - intros Hacc. destruct (Sn Hclean Hacc) as [He Hs].
    destruct (So He) as [Hn Hcw].
    split; [exact He |]. split; [exact Hs |].
    split; [simpl; rewrite Hcw; apply Hacc |].
    simpl. rewrite Sd. f_equal.
    assert (Hall : n = Z.of_nat (length (sourceBytes (source st)))).
    { rewrite Hn. unfold consumed. rewrite Hs. simpl. lia. }
    rewrite Hall, Nat2Z.id. apply firstn_all.
Qed.

(** A copy that comes to a [Read] of the body that fails. *)
Lemma copyBuffer_read_error :
  forall fuel pre d e post written st written' err st',
    source st = pre ++ (d, Some e) :: post ->
    cleanSource pre ->
    isRealError (Some e) = true ->
    cancelWrites st = [] -> streamBudget st = None ->
    copyBuffer fuel bodyCopyBufferSize (cancelingReader bodyReader) written st
    = Some (written', err, st') ->
    err <> None /\ cancelWrites st' = [ErrCodeRequestCanceled] /\
    (d = [] -> err = Some e).
Proof.
  induction fuel as [| f IH]; intros pre d e post written st written' err st'
    Hsrc Hclean Hreal Hcw Hbud Hcopy; [discriminate |].
  destruct (bodyRead bodyCopyBufferSize (source st)) as [[d1 e1] rest] eqn:Hb.
  set (st1 := if isRealError e1
              then CancelWrite ErrCodeRequestCanceled (setSource rest st)
              else setSource rest st).
  assert (Hr : Read (cancelingReader bodyReader) bodyCopyBufferSize st
               = (d1, e1, cancelingReader bodyReader, st1)).
  { rewrite Read_cancelingReader, Hb. reflexivity. }
  (* a read that returns no error goes on to the failing one *)
  assert (Hnext : forall pre' d', e1 = None ->
            rest = pre' ++ (d', Some e) :: post -> cleanSource pre' ->
            (d = [] -> d' = []) ->
            err <> None /\ cancelWrites st' = [ErrCodeRequestCanceled] /\
            (d = [] -> err = Some e)).
  { intros pre' d' He1 Hrest Hclean' Hd. subst e1. simpl in st1.
    destruct (writeStep_open d1 st1 Hcw Hbud) as (st2 & Ew & Hcw2 & Hbud2 & Hs2).
    rewrite (copyBuffer_S _ _ _ _ _ _ _ _ _ _ _ _ Hr Ew) in Hcopy.
    rewrite Nat.eqb_refl in Hcopy. simpl in Hcopy.
    destruct (IH pre' d' e post (written + Z.of_nat (length d1)) st2 written' err st')
      as (H1 & H2 & H3); auto; try (rewrite Hs2; exact Hrest). }
  rewrite Hsrc in Hb. unfold bodyRead in Hb.
  destruct pre as [| [d0 e0] pre'].
  - simpl in Hb. destruct (length d <=? bodyCopyBufferSize)%nat eqn:El.
    + (* the failing read *)
      inversion Hb; subst d1 e1 rest. clear Hb.
      assert (Hst1 : st1 = CancelWrite ErrCodeRequestCanceled (setSource post st)).
      { subst st1. now rewrite Hreal. }
      destruct (0 <? length d)%nat eqn:E0.
      * assert (Ew : (if (0 <? length d)%nat then streamWrite d st1 else (0%nat, None, st1))
                     = (0%nat, Some (errOther "write on canceled stream"), st1)).
        { rewrite E0. unfold streamWrite. rewrite Hst1. simpl. now rewrite Hcw. }
        rewrite (copyBuffer_S _ _ _ _ _ _ _ _ _ _ _ _ Hr Ew) in Hcopy.
        inversion Hcopy; subst. split; [discriminate |].
        split; [rewrite Hst1; simpl; now rewrite Hcw |].
        intros ->. discriminate.
      * assert (Ew : (if (0 <? length d)%nat then streamWrite d st1 else (0%nat, None, st1))
                     = (0%nat, None, st1)) by now rewrite E0.
        rewrite (copyBuffer_S _ _ _ _ _ _ _ _ _ _ _ _ Hr Ew) in Hcopy.
        apply Nat.ltb_ge in E0.
        replace (length d =? 0)%nat with true in Hcopy by (symmetry; apply Nat.eqb_eq; lia).
        simpl in Hcopy.
        assert (Hres : Some (written + 0, Some e, st1) = Some (written', err, st')).
        { destruct e; try exact Hcopy. discriminate. }
        inversion Hres; subst. split; [discriminate |].
        split; [rewrite Hst1; simpl; now rewrite Hcw |]. reflexivity.
    + inversion Hb; subst d1 e1 rest. clear Hb.
      apply Nat.leb_gt in El.
      apply (Hnext [] (drop bodyCopyBufferSize d));
        [reflexivity | reflexivity | constructor |].
      intros ->. simpl in El. lia.
  - simpl in Hb. inversion Hclean as [| ? ? H0 Hclean']; subst. simpl in H0. subst e0.
    destruct (length d0 <=? bodyCopyBufferSize)%nat.
    + inversion Hb; subst d1 e1 rest.
      apply (Hnext pre' d); [reflexivity | reflexivity | exact Hclean' | auto].
    + inversion Hb; subst d1 e1 rest.
      apply (Hnext ((drop bodyCopyBufferSize d0, None) :: pre') d);
        [reflexivity | reflexivity | | auto].
      constructor; [reflexivity | exact Hclean'].
Qed.

(** X22.  A body whose [Read] fails.  The body yields some bytes and then
    fails with an error that is not [io.EOF]; the stream takes whatever is
    written.  Then [sendRequestBody] (with an unknown length) cancels the
    write side of the stream with [ErrCodeRequestCanceled], once, closes the
    body, and returns an error: the error of the body, if the failing [Read]
    returned no bytes with it. *)
Theorem sendRequestBody_read_error :
  forall (st : bodyState) (pre : list chunk) (d : list Byte.byte) (e : error)
         (post : list chunk),
    source st = pre ++ (d, Some e) :: post ->
    cleanSource pre ->
    e <> ioEOF ->
    cancelWrites st = [] -> streamBudget st = None ->
    exists err st',
      sendRequestBody bodyCopyBufferSize (-1) st = Some (Some err, st') /\
      cancelWrites st' = [ErrCodeRequestCanceled] /\
      bodyClosed st' = true /\
      (d = [] -> err = e).
Proof.
  intros st pre d e post Hsrc Hclean Hne Hcw Hbud.
  assert (Hreal : isRealError (Some e) = true) by (destruct e; try reflexivity; congruence).
  unfold sendRequestBody. simpl (-1 =? -1). cbv iota.
  destruct (copyBuffer_unlimited (readBound (source st)) 0 st
              (readBound_enough bodyCopyBufferSize bufferNotEmpty _))
    as (n & err & st1 & Hcopy & _).
  rewrite Hcopy.
  destruct (copyBuffer_read_error _ _ _ _ _ _ _ _ _ _ Hsrc Hclean Hreal Hcw Hbud Hcopy)
    as (H1 & H2 & H3).
  destruct err as [x |]; [| congruence].
  exists x, (closeBody st1). split; [reflexivity |]. split; [exact H2 |].
  split; [reflexivity |]. intros Hd. specialize (H3 Hd). congruence.
Qed.

(** [sendRequestBody] returns, whatever the length, the body and the
    stream, and has closed the body. *)
Lemma sendRequestBody_returns L st :
  exists err st',
    sendRequestBody bodyCopyBufferSize L st = Some (err, st') /\ bodyClosed st' = true.
Proof.
  unfold sendRequestBody. destruct (L =? -1).
  - destruct (copyBuffer_unlimited (readBound (source st)) 0 st
                (readBound_enough bodyCopyBufferSize bufferNotEmpty _))
      as (n & err & st1 & -> & _).
    eexists _, _. split; reflexivity.
  - destruct (copyBuffer_limited bodyCopyBufferSize bufferNotEmpty
                (readBound (source st)) L 0 st (readBound_enough bodyCopyBufferSize bufferNotEmpty _))
      as (n1 & err1 & st1 & -> & [_ _ Cs _ _ _ _ _ _]).
    destruct err1 as [x |]; [eexists _, _; split; reflexivity |].
    destruct (discardReadFrom_spec bodyCopyBufferSize bufferNotEmpty (readBound (source st)) 0 st1)
      as (extra & err2 & st2 & -> & _).
    { pose proof (readBound_enough bodyCopyBufferSize bufferNotEmpty (source st)). lia. }
    destruct (n1 + extra >? L); eexists _, _; split; reflexivity.
Qed.

(** X23.  Who closes the write side of the request stream.  Once the header
    is written, [doRequest] closes the stream itself if the request has no
    body, and leaves that to the goroutine it starts for the body if there
    is one; the goroutine closes the stream when [sendRequestBody] has
    returned, with an error or without.  So the stream is closed once, and
    never when [DontCloseRequestStream] is set. *)
Theorem request_stream_closed_once :
  forall (io : requestOracle) (reqp : nat) (req : Request) (str : StreamID)
         (opt : roundTripOptions) (reqDone : bool) (w : world)
         (st : bodyState) (w2 : world),
    writeRequestHeader io = None ->
    let w1 := snd (doRequest io reqp req str opt reqDone w) in
    let once := if DontCloseRequestStream opt then 0%nat else 1%nat in
    match Body req with
    | None => closes (w_trace w1) = (closes (w_trace w) + once)%nat
    | Some body =>
        closes (w_trace w1) = closes (w_trace w) /\
        In (EvGo (goSendRequestBody str body (bodyContentLength req)
                    (negb (DontCloseRequestStream opt)))) (w_trace w1) /\
        exists st' w3,
          sendBodyGoroutine bodyCopyBufferSize req opt str st w2 = Some (st', w3) /\
          bodyClosed st' = true /\
          closes (w_trace w3) = (closes (w_trace w2) + once)%nat /\
          (DontCloseRequestStream opt = false -> last (w_trace w3) = Some (EvStreamClose str))
    end.
Proof.
  intros io reqp req str opt reqDone w st w2 Hw w1 once. subst w1 once.
  unfold doRequest. rewrite Hw.
  destruct (receiveResponse _ _ _ _ _ _ _) as [rsp rerr]. simpl.
  unfold closes.
  destruct (Body req) as [body |].
  - split; [| split].
    + simpl. rewrite !List.filter_app. simpl. now rewrite !app_nil_r.
    + simpl. apply in_or_app. left. apply in_or_app. right. now left.
    + unfold sendBodyGoroutine.
      destruct (sendRequestBody_returns (bodyContentLength req) st) as (err & st' & -> & Hc).
      eexists _, _. split; [reflexivity |]. split; [exact Hc |].
      destruct (DontCloseRequestStream opt), err; simpl;
        rewrite ?List.filter_app, ?length_app; simpl;
        (split; [lia |]); try discriminate; intros _; apply last_snoc.
  - destruct (DontCloseRequestStream opt); simpl;
      rewrite !List.filter_app, !length_app; simpl; lia.
Qed.

End SendBodyOfUnknownLength.

Lemma sendRequestBody_unknown_length_witness :
  exists err st',
    sendRequestBody 2 (bodyContentLength uploadRequest) fiveBytes = Some (err, st') /\
    err = None /\
    streamData st' = [Byte.x01; Byte.x02; Byte.x03; Byte.x04; Byte.x05].
Proof.
  destruct (sendRequestBody_unknown_length 2 ltac:(lia) uploadRequest fiveBytes)
    as (err & st' & Hrun & _ & _ & _ & Hclean); [simpl; lia |].
  exists err, st'. split; [exact Hrun |].
  destruct (Hclean ltac:(repeat constructor)) as (_ & Hacc).
  destruct Hacc as (He & _ & _ & Hd); [split; [reflexivity | exact I] |].
  split; [exact He | exact Hd].
Defined.

Lemma sendRequestBody_read_error_witness :
  exists st',
    sendRequestBody 2 (-1) failingBody = Some (Some (errOther "disk error"), st') /\
    cancelWrites st' = [ErrCodeRequestCanceled].
Proof.
  destruct (sendRequestBody_read_error 2 ltac:(lia) failingBody
              [([Byte.x01; Byte.x02], None)] [] (errOther "disk error") [])
    as (err & st' & Hrun & Hcw & _ & He);
    try reflexivity; [repeat constructor | discriminate |].
  rewrite (He eq_refl) in Hrun. exists st'. split; [exact Hrun | exact Hcw].
Defined.

Lemma request_stream_closed_once_witness :
  closes (w_trace (snd (doRequest sampleIO 0 sampleRequest 0 sampleOptions true sampleWorld)))
  = 1%nat.
Proof.
  apply (request_stream_closed_once 2 ltac:(lia) sampleIO 0%nat sampleRequest 0
           sampleOptions true sampleWorld fiveBytes sampleWorld eq_refl).
Defined.

(** ** A GOAWAY while a request is on its way *)

(** The reader of the control stream goes on after a frame. *)
Lemma applyActions_control w r wg later :
  w_ctrlStopped w = false ->
  controlStep 0 r w = Continue wg ->
  applyActions (ActControlFrame r :: later) w = applyActions later wg.
Proof.
  intros Hrun Hstep. unfold applyActions. cbn [foldl applyAction].
  now rewrite Hrun, Hstep.
Qed.

(** X24.  A GOAWAY that arrives while the request is on its stream.  The
    request is registered under the id of its stream before [doRequest]
    runs, so a GOAWAY with an id up to that of the stream, accepted by the
    reader of the control stream while [doRequest] runs, cancels the context
    of the request with the goaway cause.  If [doRequest] then fails,
    whatever its error, [roundTripOpt] returns the goaway error, by which
    the caller can tell that the request may be sent again on another
    connection. *)
Theorem goaway_interrupts_request :
  forall (env : roundTripEnv) (reqp : nat) (req : Request) (opt : roundTripOptions)
         (str : StreamID) (w : world) (G : StreamID) (later : list envAction),
    whileRequest env = ActControlFrame (Ok (goawayFrame G)) :: later ->
    w_ctrlStopped w = false ->
    goawayInvalid (w_client w) 0 G = false ->
    G <= str ->
    ctxErr (w_ctxs w) (Ctx req) = None ->
    re_err (snd (fst (doRequest (requestIO env) reqp req str opt
                        (negb (DontCloseRequestStream opt)) w))) <> None ->
    exists w',
      requestOnStream env reqp req opt str w = Returns None (Some errGoaway) w' /\
      ctxCause (w_ctxs w') (length (w_ctxs w)) = Some errGoaway /\
      runningCtx (w_client w') !! str = None.
Proof.
  intros env reqp req opt str w G later Hacts Hrun Hvalid HG Hctx Hfail.
  destruct (requestOnStream_effects env reqp req opt str w) as (_ & Hreg & _).
  revert Hreg.
  unfold requestOnStream, registerContext, withCancelCause.
  set (ctx := length (w_ctxs w)).
  set (s := w_ctxs w ++ [mkCtx (Some (Ctx req)) (ctxErr (w_ctxs w) (Ctx req))
                           (ctxCause (w_ctxs w) (Ctx req))]).
  set (w0 := emit (EvGo (goCancelWatcher (Ctx req) str)) _).
  rewrite (doRequest_fst_opts (requestIO env) reqp req str opt
             (negb (DontCloseRequestStream opt)) w w0) in Hfail by reflexivity.
  destruct (doRequest (requestIO env) reqp req str opt
              (negb (DontCloseRequestStream opt)) w0) as [[rsp rerr] w1] eqn:Hd.
  apply doRequest_spec in Hd. destruct Hd as (C1 & S1 & _ & T1 & _).
  simpl in Hfail.
  destruct (re_err rerr) as [e |]; [clear Hfail | congruence].
  cbv beta iota zeta.
  (* the GOAWAY *)
  assert (Hrun1 : w_ctrlStopped w1 = false) by (rewrite T1; exact Hrun).
  assert (Hv1 : goawayInvalid (w_client w1) 0 G = false) by (rewrite C1; exact Hvalid).
  destruct (controlStep 0 (Ok (goawayFrame G)) w1) as [wg | wg why] eqn:Hstep;
    [| simpl in Hstep; rewrite Hv1 in Hstep; discriminate].
  rewrite Hacts, (applyActions_control _ _ _ later Hrun1 Hstep).
  assert (Hlen : length s = S ctx).
  { subst s ctx. rewrite length_app. simpl. lia. }
  assert (Hnew : ctxErr (w_ctxs w1) ctx = None).
  { rewrite S1. subst w0. simpl. unfold ctxErr. subst s ctx.
    rewrite lookup_app_r by lia. rewrite Nat.sub_diag. simpl. exact Hctx. }
  destruct (controlStep_goaway_cause 0 G str ctx w1 wg Hstep) as [Hdone Hcause]; auto.
  { rewrite C1. subst w0. simpl. apply lookup_insert_eq. }
  { rewrite S1. subst w0. simpl. fold s. lia. }
  destruct (ctxErr (w_ctxs wg) ctx) as [x |] eqn:Ex; [clear Hdone | congruence].
  (* what comes after leaves the cause *)
  destruct (applyActions_frame later wg) as (_ & _ & K2 & _).
  destruct (K2 ctx x Ex) as [Kx Kc]. rewrite Hcause in Kc.
  set (w2 := applyActions later wg) in *.
  destruct (joinCancelWatcher_frame env (Ctx req) str w2 req) as (_ & C3 & _).
  set (w3 := joinCancelWatcher env (Ctx req) str w2) in *.
  set (w4 := if streamErr rerr =? 0 then w3 else _).
  set (w5 := if connErr rerr =? 0 then w4 else _).
  assert (C5 : w_ctxs w5 = w_ctxs w2).
  { subst w5 w4. destruct (connErr rerr =? 0), (streamErr rerr =? 0); exact C3. }
  rewrite C5, Kc. simpl isGoaway. cbv iota. simpl outcomeWorld.
  intros Hreg. eexists. split; [reflexivity |]. split.
  - destruct (returnDeferred_frame env str ctx w5) as (_ & _ & K & _).
    rewrite C5 in K. destruct (K ctx x Kx) as [_ Kd]. now rewrite Kd.
  - rewrite Hreg. apply lookup_delete_eq.
Qed.

Lemma goaway_interrupts_request_witness :
  exists w',
    requestOnStream raceEnv 0 sampleRequest sampleOptions 0 sampleWorld
    = Returns None (Some errGoaway) w'.
Proof.
  destruct (goaway_interrupts_request raceEnv 0%nat sampleRequest sampleOptions 0
              sampleWorld 0 [ActCancelCaller 0%nat ctxCanceled])
    as (w' & H & _).
  - reflexivity.
  - reflexivity.
  - reflexivity.
  - unfold Z.le. simpl. discriminate.
  - reflexivity.
  - vm_compute. discriminate.
  - now exists w'.
Defined.

(** X25.  The flag is read once.  [roundTripOpt] looks at the flag that a
    GOAWAY was received at line 278, before it waits for the handshake, and
    not again.  A call that has passed the check and waits goes on when the
    handshake completes, also if a GOAWAY was accepted during the wait: it
    opens a stream and writes the header of the request, although the flag
    is set by then. *)
Theorem goaway_during_handshake_wait :
  forall (env : roundTripEnv) (reqp : nat) (req : Request) (opt : roundTripOptions)
         (w : world) (G : StreamID) (str : StreamID),
    w_reqs w !! reqp = Some req ->
    authorityOfRequest env req = hostname (w_client w) ->
    let wd := dialOnce env (Ctx req) w in
    let w1 := applyActions (whileHandshake env) (emit EvWaitHandshake wd) in
    handshakeErr (w_client wd) = None ->
    receivedGoaway (w_client wd) = false ->
    Method req <> MethodGet0RTT -> Method req <> MethodHead0RTT ->
    whileHandshake env = [ActControlFrame (Ok (goawayFrame G))] ->
    w_ctrlStopped w = false ->
    0 <= G -> (4 | G) ->
    handshakeCompletes env = true ->
    ctxErr (w_ctxs w1) (Ctx req) = None ->
    CheckSettings opt = None ->
    openStreamSync env = Ok str ->
    let w' := outcomeWorld (roundTripOpt env reqp opt w) in
    receivedGoaway (w_client w1) = true /\
    In (EvOpenStream (Ok str)) (w_trace w') /\
    In (EvWriteRequestHeader str req (requestGzip (w_client w) req)) (w_trace w').
Proof.
  intros env reqp req opt w G str Hreq Hauth wd w1 Hhs Hga Hg Hh Hacts Hrun HG0 HG4
    Hdone Hctx Hcheck Hopen w'.
  pose proof (roundTripOpt_reaches_switch env reqp req opt w Hreq Hauth Hhs Hga) as Hsw.
  fold wd in Hsw.
  apply String.eqb_neq in Hg, Hh. rewrite Hg, Hh in Hsw.
  unfold waitForHandshake in Hsw. fold w1 in Hsw. rewrite Hdone, Hctx in Hsw.
  assert (Hflag : receivedGoaway (w_client w1) = true).
  { assert (Hrund : w_ctrlStopped (emit EvWaitHandshake wd) = false).
    { subst wd. unfold dialOnce, dial. destruct (dialed (w_client w)); [exact Hrun |].
      destruct (dialResult env); [exact Hrun |].
      destruct (StreamHijacker _); exact Hrun. }
    assert (Hv : goawayInvalid (w_client wd) 0 G = false).
    { unfold goawayInvalid. rewrite Hga.
      replace (G <? 0) with false by lia.
      apply Z.rem_divide in HG4; [| lia]. rewrite HG4. reflexivity. }
    destruct (controlStep 0 (Ok (goawayFrame G)) (emit EvWaitHandshake wd))
      as [wg | wg why] eqn:Hstep.
    - subst w1. rewrite Hacts, (applyActions_control _ _ _ [] Hrund Hstep).
      apply (controlStep_sets_flag _ _ _ _ Hstep).
    - simpl in Hstep. rewrite Hv in Hstep. discriminate. }
  split; [exact Hflag |].
  subst w'. rewrite Hsw.
  assert (Hopts : requestGzip (w_client w1) req = requestGzip (w_client w) req).
  { pose proof (applyActions_clientFixed (whileHandshake env) (emit EvWaitHandshake wd))
      as (_ & O & _).
    fold w1 in O. simpl in O.
    destruct (dialOnce_effects env (Ctx req) w) as (_ & _ & Od & _). fold wd in Od.
    unfold requestGzip. now rewrite O, Od. }
  split.
  - unfold settingsAndStream. rewrite Hcheck, Hopen.
    destruct (requestOnStream_spec env reqp req opt str (emit (EvOpenStream (Ok str)) w1))
      as (rsp & err & w2 & -> & _ & _ & _ & _ & E & _).
    apply (extends_mono _ _ _ _ E). simpl. apply in_or_app. right. now left.
  - rewrite <- Hopts. now apply settingsAndStream_sends.
Qed.

Lemma goaway_during_handshake_wait_witness :
  In (EvOpenStream (Ok 0))
     (w_trace (outcomeWorld (roundTripOpt lateGoawayEnv 0 sampleOptions sampleWorld))).
Proof.
  destruct (goaway_during_handshake_wait lateGoawayEnv 0%nat sampleRequest sampleOptions
              sampleWorld 4 0) as (_ & H & _).
  - reflexivity.
  - reflexivity.
  - reflexivity.
  - reflexivity.
  - discriminate.
  - discriminate.
  - reflexivity.
  - reflexivity.
  - unfold Z.le. simpl. discriminate.
  - exists 1. reflexivity.
  - reflexivity.
  - reflexivity.
  - reflexivity.
  - reflexivity.
  - exact H.
Defined.

(** ** Where the error of a call comes from *)

Lemma requestOnStream_error env reqp req opt str w rsp err w' :
  requestOnStream env reqp req opt str w = Returns rsp (Some err) w' ->
  err = errGoaway \/
  exists e,
    re_err (snd (fst (doRequest (requestIO env) reqp req str opt
                        (negb (DontCloseRequestStream opt)) w))) = Some e /\
    err = maybeReplaceError env e.
Proof.
  unfold requestOnStream, registerContext, withCancelCause.
  set (w0 := emit (EvGo (goCancelWatcher (Ctx req) str)) _).
  rewrite (doRequest_fst_opts (requestIO env) reqp req str opt
             (negb (DontCloseRequestStream opt)) w w0) by reflexivity.
  destruct (doRequest (requestIO env) reqp req str opt
              (negb (DontCloseRequestStream opt)) w0) as [[rsp0 rerr] w1].
  simpl. destruct (re_err rerr) as [e |].
  - destruct (isGoaway _); intros H; inversion H; subst; [now left |].
    right. now exists e.
  - intros H. inversion H.
Qed.

Lemma settingsAndStream_error env reqp req opt w rsp err w' :
  settingsAndStream env reqp req opt w = Returns rsp (Some err) w' ->
  settingsArrive env = Some (Err err) \/
  (exists check settings,
      CheckSettings opt = Some check /\ settingsArrive env = Some (Ok settings) /\
      check settings = Some err) \/
  openStreamSync env = Err err \/
  err = errGoaway \/
  exists e str w0,
    openStreamSync env = Ok str /\ opts (w_client w0) = opts (w_client w) /\
    re_err (snd (fst (doRequest (requestIO env) reqp req str opt
                        (negb (DontCloseRequestStream opt)) w0))) = Some e /\
    err = maybeReplaceError env e.
Proof.
  unfold settingsAndStream.
  assert (Hopen : forall w1 : world, opts (w_client w1) = opts (w_client w) ->
            (let w2 := emit (EvOpenStream (openStreamSync env)) w1 in
             match openStreamSync env with
             | Ok str => requestOnStream env reqp req opt str w2
             | Err err => Returns None (Some err) w2
             end) = Returns rsp (Some err) w' ->
            openStreamSync env = Err err \/
            err = errGoaway \/
            exists e str w0,
              openStreamSync env = Ok str /\ opts (w_client w0) = opts (w_client w) /\
              re_err (snd (fst (doRequest (requestIO env) reqp req str opt
                                  (negb (DontCloseRequestStream opt)) w0))) = Some e /\
              err = maybeReplaceError env e).
  { intros w1 Ho. cbv zeta. destruct (openStreamSync env) as [str | e0].
    - intros H. apply requestOnStream_error in H as [H | (e & He & Hr)]; [auto |].
      right; right. exists e, str, (emit (EvOpenStream (Ok str)) w1). auto.
    - intros H. inversion H; subst. now left. }
  destruct (CheckSettings opt) as [check |].
  - destruct (settingsArrive env) as [[settings | cause] |]; try discriminate.
    + destruct (check settings) as [e0 |] eqn:Ec.
      * intros H. inversion H; subst. right; left. now exists check, settings.
      * intros H. apply Hopen in H; [tauto | reflexivity].
    + intros H. inversion H; subst. now left.
  - intros H. apply Hopen in H; [tauto | reflexivity].
Qed.

(** X26.  Where the error of a call comes from.  An error that
    [roundTripOpt] returns is one of these, and nothing else: the error for
    a request of another client; the error of the dial; the goaway error;
    the error of the request context, when the wait for the handshake ended
    on it; the cause of the end of the connection, when it ended before the
    SETTINGS came; the error of the settings check; the error of
    [OpenStreamSync]; or the error that [doRequest] reported for the request
    that was sent, passed through [maybeReplaceError].  Only the last one is
    passed through [maybeReplaceError]. *)
Theorem roundTripOpt_error_sources :
  forall (env : roundTripEnv) (reqp : nat) (req : Request) (opt : roundTripOptions)
         (w w' : world) (rsp : option Response) (err : error),
    w_reqs w !! reqp = Some req ->
    roundTripOpt env reqp opt w = Returns rsp (Some err) w' ->
    err = errWrongClient (hostname (w_client w)) (Host req) \/
    handshakeErr (w_client (dialOnce env (Ctx req) w)) = Some err \/
    err = errGoaway \/
    ctxErr (w_ctxs w') (Ctx req) = Some err \/
    settingsArrive env = Some (Err err) \/
    (exists check settings,
        CheckSettings opt = Some check /\ settingsArrive env = Some (Ok settings) /\
        check settings = Some err) \/
    openStreamSync env = Err err \/
    (exists e str p w0,
        openStreamSync env = Ok str /\ opts (w_client w0) = opts (w_client w) /\
        re_err (snd (fst (doRequest (requestIO env) p (sentRequest req) str opt
                            (negb (DontCloseRequestStream opt)) w0))) = Some e /\
        err = maybeReplaceError env e).
Proof.
  intros env reqp req opt w w' rsp err Hreq. unfold roundTripOpt. rewrite Hreq.
  destruct (negb _); [intros H; inversion H; subst; now left |].
  destruct (dialOnce_effects env (Ctx req) w) as (_ & _ & Od & _).
  set (wd := dialOnce env (Ctx req) w) in *.
  destruct (handshakeErr (w_client wd)) as [e0 |];
    [intros H; inversion H; subst; right; now left |].
  destruct (receivedGoaway (w_client wd));
    [intros H; inversion H; subst; right; right; now left |].
  assert (Hgo : forall p r0 (w1 : world), opts (w_client w1) = opts (w_client w) ->
            r0 = sentRequest req ->
            settingsAndStream env p r0 opt w1 = Returns rsp (Some err) w' ->
            err = errWrongClient (hostname (w_client w)) (Host req) \/
            None = Some err \/
            err = errGoaway \/
            ctxErr (w_ctxs w') (Ctx req) = Some err \/
            settingsArrive env = Some (Err err) \/
            (exists check settings,
                CheckSettings opt = Some check /\ settingsArrive env = Some (Ok settings) /\
                check settings = Some err) \/
            openStreamSync env = Err err \/
            (exists e str p w0,
                openStreamSync env = Ok str /\ opts (w_client w0) = opts (w_client w) /\
                re_err (snd (fst (doRequest (requestIO env) p (sentRequest req) str opt
                                    (negb (DontCloseRequestStream opt)) w0))) = Some e /\
                err = maybeReplaceError env e)).
  { intros p r0 w1 Ho -> H.
    apply settingsAndStream_error in H
      as [H | [H | [H | [H | (e & str & w0 & H1 & H2 & H3 & H4)]]]]; auto 10.
    do 7 right. exists e, str, p, w0. repeat split; auto. congruence. }
  unfold copyWithMethod.
  destruct (Method req =? MethodGet0RTT)%string eqn:Eg.
  { apply Hgo; [exact Od |]. unfold sentRequest. now rewrite Eg. }
  destruct (Method req =? MethodHead0RTT)%string eqn:Eh.
  { apply Hgo; [exact Od |]. unfold sentRequest. now rewrite Eg, Eh. }
  unfold waitForHandshake.
  pose proof (applyActions_clientFixed (whileHandshake env) (emit EvWaitHandshake wd))
    as (_ & O2 & _).
  set (w2 := applyActions (whileHandshake env) (emit EvWaitHandshake wd)) in *.
  simpl in O2.
  assert (Hs : req = sentRequest req) by (unfold sentRequest; now rewrite Eg, Eh).
  destruct (handshakeCompletes env), (ctxErr (w_ctxs w2) (Ctx req)) as [ce |] eqn:Ec;
    try destruct (selectPrefersCtx env); simpl;
    try discriminate;
    try (intros H; inversion H; subst; do 3 right; left; exact Ec);
    apply Hgo; auto; congruence.
Qed.

Lemma roundTripOpt_error_sources_witness :
  exists e str p w0,
    openStreamSync (envWithIO dataFirstIO) = Ok str /\
    opts (w_client w0) = opts (w_client sampleWorld) /\
    re_err (snd (fst (doRequest (requestIO (envWithIO dataFirstIO)) p
                        (sentRequest sampleRequest) str sampleOptions
                        (negb (DontCloseRequestStream sampleOptions)) w0))) = Some e /\
    errExpectedHeaders = maybeReplaceError (envWithIO dataFirstIO) e.
Proof.
  destruct (roundTripOpt (envWithIO dataFirstIO) 0 sampleOptions sampleWorld)
    as [rsp [err |] w' | w' | w'] eqn:E; try (vm_compute in E; discriminate).
  assert (He : err = errExpectedHeaders) by (vm_compute in E; congruence).
  subst err.
  destruct (roundTripOpt_error_sources (envWithIO dataFirstIO) 0%nat sampleRequest
              sampleOptions sampleWorld w' rsp errExpectedHeaders eq_refl E)
    as [H | [H | [H | [H | [H | [H | [H | H]]]]]]]; try discriminate.
  - vm_compute in E. inversion E; subst w'. discriminate.
  - destruct H as (check & settings & H & _). discriminate.
  - exact H.
Defined.

(** ** The registry over the life of a client *)

(** X27.  The registry stays in order.  Every registered request has a
    cancellation handle of its own, which is a context of the store: this
    holds for the client that [newClient] returns, whose registry is empty,
    and no sequence of calls of [RoundTripOpt], with whatever the reader of
    the control stream and the callers do during the calls, breaks it. *)
Theorem registry_stays_in_order :
  (forall (E : newClientEnv) (hostname : string) (tlsConf : option tlsConfig)
          (opts : roundTripperOpts) (conf : option quicConfig) (cs : clientSetup)
          (ctxs : list ctxRec) (reqs : list Request),
      fst (newClient E hostname tlsConf opts conf) = Ok cs ->
      registryOK (mkWorld (cs_client cs) ctxs reqs false [])) /\
  (forall (cs : list call) (w : world),
      registryOK w -> registryOK (runCalls cs w)).
Proof.
  split.
  - intros E hostname tlsConf opts conf cs ctxs reqs H.
    apply registryOK_empty.
    unfold newClient in H.
    destruct (match conf with
              | Some c => (c, true)
              | None => _
              end) as [cur shared].
    destruct (_ && _); [discriminate |].
    destruct (if (length (Versions cur) =? 0)%nat then _ else _) as [cur' shared'].
    destruct (Versions cur') as [| v [| v' vs]]; try discriminate.
    inversion H. reflexivity.
  - intros cs. induction cs as [| c cs IH]; intros w Hok; [exact Hok |].
    unfold runCalls in *. simpl. apply IH. now apply RoundTripOpt_registryOK.
Qed.

Lemma registry_stays_in_order_witness :
  registryOK (runCalls [mkCall sampleEnv 0 sampleOptions; mkCall raceEnv 0 sampleOptions]
                freshWorld).
Proof.
  apply registry_stays_in_order.
  apply registryOK_empty. reflexivity.
Defined.

(** ** Bidirectional streams of the server *)

Lemma handleBidirectionalStreams_spec accepted : forall w,
  let '(strs, returned, w') := handleBidirectionalStreams accepted w in
  strs = acceptedStreams accepted /\
  (returned = true <-> exists e, In (Err e) accepted) /\
  w_client w' = w_client w /\ w_ctxs w' = w_ctxs w /\
  connCloses (w_trace w') = connCloses (w_trace w).
Proof.
  induction accepted as [| [str | e] rest IH]; intros w; simpl.
  - split; [reflexivity |]. split; [| auto].
    split; [discriminate | intros [e []]].
  - specialize (IH w). destruct (handleBidirectionalStreams rest w) as [[strs returned] w'].
    destruct IH as (-> & Hr & Hc & Hs & Ht).
    split; [reflexivity |]. split; [| auto].
    rewrite Hr. split.
    + intros [e He]. exists e. now right.
    + intros [e [He | He]]; [discriminate | now exists e].
  - split; [reflexivity |]. split; [| split; [reflexivity | split; [reflexivity |]]].
    + split; [| reflexivity]. intros _. exists e. now left.
    + unfold connCloses. simpl. rewrite List.filter_app. simpl. apply app_nil_r.
Qed.

Lemma connCloses_handlers (results : StreamID -> hijackResult) : forall order w,
  connCloses (w_trace (foldl (fun w s => handleAcceptedStream (results s) w) w order))
  = connCloses (w_trace w)
    ++ map (fun _ => EvConnClose ErrCodeFrameUnexpected (Some errFrameOnBidirectionalStream))
         (List.filter (fun s => negb (isHijacked (results s))) order).
Proof.
  induction order as [| s order IH]; intros w; simpl; [now rewrite app_nil_r |].
  rewrite IH. unfold connCloses.
  destruct (results s); simpl; rewrite ?List.filter_app; simpl;
    rewrite ?app_nil_r, <- ?app_assoc; reflexivity.
Qed.

Lemma filter_length_Permutation {A} (p : A -> bool) (l l' : list A) :
  Permutation l l' -> length (List.filter p l) = length (List.filter p l').
Proof.
  induction 1 as [| x l l' _ IH | x y l | l l' l'' _ IH1 _ IH2]; simpl.
  - reflexivity.
  - destruct (p x); simpl; congruence.
  - destruct (p x), (p y); reflexivity.
  - congruence.
Qed.

(** X28.  Streams that the server opens.  The loop starts one goroutine for
    every stream that [AcceptStream] gives before its first error, returns
    at that error, and does not close the connection itself.  The
    goroutines may run in any order: the connection is closed with
    [ErrCodeFrameUnexpected] once for every accepted stream that the
    [StreamHijacker] did not take, be it that a frame was parsed or that
    parsing failed, and not at all if it took them all. *)
Theorem bidirectional_streams_close :
  forall (accepted : list (res StreamID)) (results : StreamID -> hijackResult)
         (order : list StreamID) (w : world),
    let '(strs, returned, w1) := handleBidirectionalStreams accepted w in
    strs = acceptedStreams accepted /\
    (returned = true <-> exists e, In (Err e) accepted) /\
    connCloses (w_trace w1) = connCloses (w_trace w) /\
    (Permutation order strs ->
     let w2 := foldl (fun w s => handleAcceptedStream (results s) w) w1 order in
     exists closes,
       connCloses (w_trace w2) = connCloses (w_trace w) ++ closes /\
       Forall (fun e => e = EvConnClose ErrCodeFrameUnexpected
                              (Some errFrameOnBidirectionalStream)) closes /\
       length closes
       = length (List.filter (fun s => negb (isHijacked (results s))) strs) /\
       ((forall s, In s strs -> results s = streamHijacked) -> closes = [])).
Proof.
  intros accepted results order w.
  pose proof (handleBidirectionalStreams_spec accepted w) as H.
  destruct (handleBidirectionalStreams accepted w) as [[strs returned] w1].
  destruct H as (Hs & Hr & _ & _ & Ht).
  split; [exact Hs |]. split; [exact Hr |]. split; [exact Ht |].
  intros Hperm w2. subst w2.
  exists (map (fun _ => EvConnClose ErrCodeFrameUnexpected (Some errFrameOnBidirectionalStream))
            (List.filter (fun s => negb (isHijacked (results s))) order)).
  split; [now rewrite connCloses_handlers, Ht |]. split; [| split].
  - apply Forall_forall. intros e He. apply list_elem_of_In, in_map_iff in He.
    now destruct He as (s & <- & _).
  - rewrite length_map. now apply filter_length_Permutation.
  - intros Hall.
    assert (Hnone : List.filter (fun s => negb (isHijacked (results s))) order = []).
    { apply length_zero_iff_nil.
      rewrite (filter_length_Permutation _ _ _ Hperm).
      apply length_zero_iff_nil.
      clear Hperm Hs. induction strs as [| s strs IH]; [reflexivity |].
      simpl. rewrite (Hall s) by now left. simpl. apply IH.
      intros s' Hin. apply Hall. now right. }
    now rewrite Hnone.
Qed.

Lemma bidirectional_streams_close_witness :
  connCloses (w_trace
    (foldl (fun w s => handleAcceptedStream
                         (if s =? 3 then streamHijacked else frameParsed (dataFrame 1)) w)
       (snd (handleBidirectionalStreams [Ok 3; Ok 7; Err (errOther "closed")] sampleWorld))
       [7; 3]))
  = [EvConnClose ErrCodeFrameUnexpected (Some errFrameOnBidirectionalStream)].
Proof.
  pose proof (bidirectional_streams_close [Ok 3; Ok 7; Err (errOther "closed")]
                (fun s => if s =? 3 then streamHijacked else frameParsed (dataFrame 1))
                [7; 3] sampleWorld) as H.
  simpl in H. destruct H as (_ & _ & _ & H).
  destruct H as (closes & Hc & Hall & Hlen & _); [apply perm_swap |].
  simpl in Hlen, Hc. rewrite Hc.
  destruct closes as [| c [| c' cs]]; try discriminate.
  inversion Hall; subst. reflexivity.
Defined.
